(** * SandboxMemoryAccesses: the MinSFI memory-sandboxing pass

    A shallow embedding of [lib/Transforms/MinSFI/SandboxMemoryAccesses.cpp]
    and the properties its specification states about it.

    The pass walks every instruction of every function of a module and
    rewrites the pointer operands of memory accesses so that the address
    is [mem_base + zext (ptr & mask)].  The embedding keeps the shape of the
    C++ code: an LLVM-like IR with instruction objects identified by an id
    (the model of the [Instruction*] pointer), a function under rewriting
    together with the iterator of [runOnFunction], and one Rocq definition
    per C++ method. *)

From Stdlib Require Import ZArith Lia.
From stdpp Require Import base option list strings.

Local Open Scope Z_scope.

(** ** The IR data model *)

Module IR.

Inductive type : Type :=
| VoidTy
| LabelTy
| FloatTy
| DoubleTy
| IntegerTy (bits : nat)
| PointerTy (elem : type)
| FunctionTy
| ArrayTy (n : nat) (elem : type)
| VectorTy (n : nat) (elem : type).

#[global] Instance type_eq_dec : EqDecision type.
Proof. solve_decision. Defined.

Definition I32 : type := IntegerTy 32.
Definition I64 : type := IntegerTy 64.

Definition isPointerTy (t : type) : bool :=
  match t with PointerTy _ => true | _ => false end.

Definition isIntegerTy (t : type) (w : nat) : bool :=
  match t with IntegerTy b => Nat.eqb b w | _ => false end.

(** [Type::getPointerElementType] asserts that the type is a pointer type;
    the address operand of a load, store or atomic access is one.  On any
    other type the model answers [VoidTy]. *)
Definition getPointerElementType (t : type) : type :=
  match t with PointerTy e => e | _ => VoidTy end.

Inductive IntrinsicID : Type :=
| not_intrinsic
| memcpy
| memmove
| memset
| nacl_atomic_load
| nacl_atomic_store
| nacl_atomic_rmw
| nacl_atomic_cmpxchg
| nacl_atomic_fence
| nacl_atomic_fence_all
| nacl_atomic_is_lock_free
| other_intrinsic (n : nat).

(** A [Value*]: a constant, a global, a formal argument, a basic block
    label, or the result of the instruction with the given id. *)
Inductive value : Type :=
| ConstantInt (bits : nat) (v : Z)
| Constant (ty : type)
| GlobalVariable (name : string) (valty : type)
| FunctionRef (name : string) (iid : IntrinsicID)
| Argument (n : nat) (ty : type)
| BasicBlockRef (n : nat)
| InstRef (id : nat).

Inductive binop : Type :=
| Add | Sub | Mul | UDiv | SDiv | URem | SRem
| Shl | LShr | AShr | And | Or | Xor.

Inductive opcode_t : Type :=
| Ret | Br | Switch | IndirectBr | Invoke | Unreachable
| BinaryOperator (op : binop)
| Alloca | Load | Store | GetElementPtr
| AtomicCmpXchg | AtomicRMW | Fence
| Trunc | ZExt | SExt | PtrToInt | IntToPtr | BitCast
| ICmp | FCmp | PHI | Call | Select
| OtherOp (n : nat).

Definition DebugLoc : Type := option nat.

Record instruction : Type := mkInst {
  inst_id : nat;
  opcode : opcode_t;
  inst_ty : type;
  operands : list value;
  dbg : DebugLoc;
  inst_name : string
}.

Definition basic_block : Type := list instruction.

(** A function body: its basic blocks, the entry block first. *)
Definition function : Type := list basic_block.

(** [getOperand] and [setOperand] assert that the index is in range; out
    of range the model reads a void constant and writes nothing. *)
Definition getOperand (Inst : instruction) (n : nat) : value :=
  default (Constant VoidTy) (operands Inst !! n).

Definition setOperand (Inst : instruction) (n : nat) (v : value)
  : instruction :=
  mkInst (inst_id Inst) (opcode Inst) (inst_ty Inst)
         (<[n := v]> (operands Inst)) (dbg Inst) (inst_name Inst).

Definition setDebugLoc (d : DebugLoc) (Inst : instruction) : instruction :=
  mkInst (inst_id Inst) (opcode Inst) (inst_ty Inst) (operands Inst) d
         (inst_name Inst).

(** The [isa<>] / [dyn_cast<>] tests the pass uses. *)
Definition isa_LoadInst (Inst : instruction) : bool :=
  match opcode Inst with Load => true | _ => false end.
Definition isa_StoreInst (Inst : instruction) : bool :=
  match opcode Inst with Store => true | _ => false end.
Definition isa_PtrToIntInst (Inst : instruction) : bool :=
  match opcode Inst with PtrToInt => true | _ => false end.
Definition isa_IntToPtrInst (Inst : instruction) : bool :=
  match opcode Inst with IntToPtr => true | _ => false end.
Definition isa_BitCastInst (Inst : instruction) : bool :=
  match opcode Inst with BitCast => true | _ => false end.
Definition isa_CallInst (Inst : instruction) : bool :=
  match opcode Inst with Call => true | _ => false end.

(** The operands of a call are its arguments followed by the callee. *)
Definition getCalledValue (Inst : instruction) : option value :=
  last (operands Inst).
Definition getNumArgOperands (Inst : instruction) : nat :=
  (length (operands Inst) - 1)%nat.
Definition arg_operands (Inst : instruction) : list value :=
  take (getNumArgOperands Inst) (operands Inst).

(** An [IntrinsicInst] is a call whose callee is a function with an
    intrinsic id. *)
Definition dyn_cast_IntrinsicInst (Inst : instruction) : option IntrinsicID :=
  match opcode Inst with
  | Call =>
      match getCalledValue Inst with
      | Some (FunctionRef _ iid) =>
          match iid with not_intrinsic => None | _ => Some iid end
      | _ => None
      end
  | _ => None
  end.

Definition isa_MemCpyInst (Inst : instruction) : bool :=
  match dyn_cast_IntrinsicInst Inst with Some memcpy => true | _ => false end.
Definition isa_MemMoveInst (Inst : instruction) : bool :=
  match dyn_cast_IntrinsicInst Inst with Some memmove => true | _ => false end.
Definition isa_MemSetInst (Inst : instruction) : bool :=
  match dyn_cast_IntrinsicInst Inst with Some memset => true | _ => false end.

Definition dyn_cast_ConstantInt (v : value) : option (nat * Z) :=
  match v with ConstantInt b x => Some (b, x) | _ => None end.

(** [ConstantInt::getSExtValue]: the constant read as a signed number. *)
Definition getSExtValue (bits : nat) (v : Z) : Z :=
  let u := v mod 2 ^ Z.of_nat bits in
  if u <? 2 ^ (Z.of_nat bits - 1) then u else u - 2 ^ Z.of_nat bits.

(** *** A function with the iterator of [runOnFunction]

    [cur] is the instruction the iterator stands on, [pre] and [post] the
    rest of its basic block, [before] and [after] the other blocks.  An
    instruction created with the insert-before constructor goes to the end
    of [pre]. *)
Record cursor : Type := Cursor {
  before : list basic_block;
  pre : list instruction;
  cur : instruction;
  post : list instruction;
  after : list basic_block
}.

Definition to_function (c : cursor) : function :=
  before c ++ (pre c ++ cur c :: post c) :: after c.

Definition all_insts (c : cursor) : list instruction :=
  concat (to_function c).

Definition has_id (id : nat) (Inst : instruction) : bool :=
  Nat.eqb (inst_id Inst) id.

(** Dereferencing an [Instruction*]. *)
Definition lookup_inst (c : cursor) (id : nat) : option instruction :=
  find (has_id id) (all_insts c).

Definition getType (c : cursor) (v : value) : type :=
  match v with
  | ConstantInt b _ => IntegerTy b
  | Constant t => t
  | GlobalVariable _ t => PointerTy t
  | FunctionRef _ _ => PointerTy FunctionTy
  | Argument _ t => t
  | BasicBlockRef _ => LabelTy
  | InstRef id =>
      match lookup_inst c id with Some Inst => inst_ty Inst | None => VoidTy end
  end.

Definition dyn_cast_IntToPtrInst (c : cursor) (v : value)
  : option instruction :=
  match v with
  | InstRef id =>
      match lookup_inst c id with
      | Some Inst => if isa_IntToPtrInst Inst then Some Inst else None
      | None => None
      end
  | _ => None
  end.

Definition dyn_cast_BinaryOperator (c : cursor) (v : value)
  : option (instruction * binop) :=
  match v with
  | InstRef id =>
      match lookup_inst c id with
      | Some Inst =>
          match opcode Inst with
          | BinaryOperator op => Some (Inst, op)
          | _ => None
          end
      | None => None
      end
  | _ => None
  end.

Definition map_insts (f : instruction -> instruction) (c : cursor) : cursor :=
  Cursor (map (map f) (before c)) (map f (pre c)) (f (cur c))
         (map f (post c)) (map (map f) (after c)).

Definition uses (id : nat) (Inst : instruction) : bool :=
  existsb (fun v => match v with InstRef j => Nat.eqb j id | _ => false end)
          (operands Inst).

(** [Inst->use_empty()]: no instruction of the function has [Inst] as
    operand. *)
Definition use_empty (c : cursor) (id : nat) : bool :=
  negb (existsb (uses id) (all_insts c)).

Definition erase_in (id : nat) (l : list instruction) : list instruction :=
  List.filter (fun Inst => negb (has_id id Inst)) l.

(** [Inst->eraseFromParent()].  The instruction under the iterator is a memory
    access and is never the one erased. *)
Definition eraseFromParent (id : nat) (c : cursor) : cursor :=
  Cursor (map (erase_in id) (before c)) (erase_in id (pre c)) (cur c)
         (erase_in id (post c)) (map (erase_in id) (after c)).

(** [Func.getEntryBlock().getInstList().push_front(Inst)]. *)
Definition push_front_entry (Inst : instruction) (c : cursor) : cursor :=
  match before c with
  | [] => Cursor [] (Inst :: pre c) (cur c) (post c) (after c)
  | b :: bs => Cursor ((Inst :: b) :: bs) (pre c) (cur c) (post c) (after c)
  end.

Definition insert_before_cur (Inst : instruction) (c : cursor) : cursor :=
  Cursor (before c) (pre c ++ [Inst]) (cur c) (post c) (after c).

Definition set_cur (Inst : instruction) (c : cursor) : cursor :=
  Cursor (before c) (pre c) Inst (post c) (after c).

(** The iterator: the first instruction of the first non-empty block of
    [todo], and the step to the next instruction. *)
Fixpoint enter (done todo : list basic_block) : option cursor :=
  match todo with
  | [] => None
  | [] :: bs => enter (done ++ [[]]) bs
  | (Inst :: rest) :: bs => Some (Cursor done [] Inst rest bs)
  end.

Definition advance (c : cursor) : option cursor :=
  match post c with
  | Inst :: rest =>
      Some (Cursor (before c) (pre c ++ [cur c]) Inst rest (after c))
  | [] => enter (before c ++ [pre c ++ [cur c]]) (after c)
  end.

(** The instructions the iterator has not reached yet. *)
Definition remaining (c : cursor) : list instruction :=
  post c ++ concat (after c).

End IR.

Export IR.

(** ** The pass *)

(** The outcome of a run: [FatalError] is [report_fatal_error], which aborts
    the compilation.  [OutOfFuel] belongs to the model of the instruction
    loop only; [iterate_Inv] shows that [runOnFunction] never ends in it. *)
Inductive result (A : Type) : Type :=
| Ok (a : A)
| FatalError (msg : string)
| OutOfFuel.
Arguments Ok {A} a.
Arguments FatalError {A} msg.
Arguments OutOfFuel {A}.

Definition bind {A B : Type} (r : result A) (k : A -> result B) : result B :=
  match r with
  | Ok a => k a
  | FatalError msg => FatalError msg
  | OutOfFuel => OutOfFuel
  end.

Notation "x <- r ;; k" := (bind r (fun x => k))
  (at level 100, r at next level, right associativity).

Definition ExternalSymName_MemoryBase : string := "__sfi_memory_base".
Definition ExternalSymName_PointerSize : string := "__sfi_pointer_size".

Record global : Type := mkGlobal {
  g_name : string;
  g_ty : type;
  g_constant : bool;
  g_init : option value
}.

Record module : Type := mkModule {
  globals : list global;
  functions : list function
}.

(** The fields of the pass object that the methods read. *)
Record SandboxMemoryAccesses : Type := mkPass {
  MemBaseVar : value;
  PtrMask : option value
}.

(** The function being rewritten with the iterator on the current
    instruction, the [MemBase] local of [runOnFunction], and the supply of
    ids for the instructions created with [new]. *)
Record state : Type := State {
  fn : cursor;
  MemBase : option value;
  fresh : nat
}.

Definition wrap (bits : Z) (x : Z) : Z := x mod 2 ^ bits.

(** [int64_t] read of a 64-bit pattern. *)
Definition to_int64 (x : Z) : Z :=
  let u := wrap 64 x in if u <? 2 ^ 63 then u else u - 2 ^ 64.

Definition fatal_message : string :=
  "SandboxMemoryAccesses: unexpected instruction with pointer-type operands".

Section Pass.

(** What [minsfi::GetPointerSizeInBits()] (llvm/Transforms/MinSFI.h)
    returns: the configured width [W] of sandboxed pointers. *)
Variable PointerSizeInBits : Z.

(** [DataLayout::getTypeStoreSize]. *)
Variable getTypeStoreSize : type -> Z.

(** Modelled from the spec: [minsfi::GetAddressSubspaceSize] is declared in
    llvm/Transforms/MinSFI.h, which is missing; the spec defines the address
    subspace as the [2^W]-sized range of offsets. *)
Definition GetAddressSubspaceSize : Z := 2 ^ PointerSizeInBits.

(** Modelled from the spec: [CopyDebug] is declared in
    llvm/Transforms/NaCl.h, which is missing; the spec says that the
    debug/source-location metadata of the original instruction is
    transferred onto its replacement. *)
Definition CopyDebug (NewInst Original : value) (c : cursor) : cursor :=
  match NewInst, Original with
  | InstRef n, InstRef o =>
      match lookup_inst c o with
      | Some Orig =>
          map_insts (fun J => if has_id n J then setDebugLoc (dbg Orig) J
                              else J) c
      | None => c
      end
  | _, _ => c
  end.

(** *** [runOnModule], the module initializer *)

(** [Module::getOrInsertGlobal]: the global of that name, behind a constant
    cast when it exists with another type, or a new declaration. *)
Definition getOrInsertGlobal (M : module) (name : string) (ty : type)
  : value * module :=
  match find (fun g => String.eqb (g_name g) name) (globals M) with
  | Some g =>
      (if decide (g_ty g = ty) then GlobalVariable name ty
       else Constant (PointerTy ty), M)
  | None =>
      (GlobalVariable name ty,
       mkModule (globals M ++ [mkGlobal name ty false None]) (functions M))
  end.

Definition initialize (M : module) : SandboxMemoryAccesses * module :=
  let '(MemBaseVar, M) :=
    getOrInsertGlobal M ExternalSymName_MemoryBase I64 in
  let PointerSize := PointerSizeInBits in
  let M :=
    mkModule
      (globals M ++
         [mkGlobal ExternalSymName_PointerSize I32 true
                   (Some (ConstantInt 32 PointerSize))])
      (functions M) in
  let PtrMask :=
    if PointerSize <? 32
    then Some (ConstantInt 32 (wrap 32 (wrap 32 (Z.shiftl 1 PointerSize) - 1)))
    else None in
  (mkPass MemBaseVar PtrMask, M).

Section Methods.

Variable this : SandboxMemoryAccesses.

(** An instruction created by a constructor with the insert-before
    argument [Inst]: it gets the next id and goes right before the
    instruction under the iterator. *)
Definition emit (op : opcode_t) (ty : type) (ops : list value) (s : state)
  : value * state :=
  (InstRef (fresh s),
   State (insert_before_cur (mkInst (fresh s) op ty ops None "") (fn s))
         (MemBase s) (S (fresh s))).

(** *** [sandboxPtrOperand] *)

(** Lines 137-141: the function acquires the memory base on its first
    sandboxed pointer. *)
Definition acquireMemBase (s : state) : value * state :=
  match MemBase s with
  | Some v => (v, s)
  | None =>
      let MemBaseInst :=
        mkInst (fresh s) Load I64 [MemBaseVar this] None "mem_base" in
      (InstRef (fresh s),
       State (push_front_entry MemBaseInst (fn s))
             (Some (InstRef (fresh s))) (S (fresh s)))
  end.

(** What the pattern match of lines 164-188 leaves in the locals
    [Truncated], [Offset] (the value of [OffsetConst]), [RedundantCast] and
    [RedundantAdd] when [OptimizeGEP] is set. *)
Record folded : Type := Folded {
  Truncated0 : value;
  Offset : Z;
  RedundantCast : instruction;
  RedundantAdd : instruction
}.

Definition MaxOffset (ValType : type) : Z :=
  to_int64 (GetAddressSubspaceSize - getTypeStoreSize ValType).

Definition recognize (c : cursor) (IsFirstClassValueAccess : bool)
           (Ptr : value) : option folded :=
  if IsFirstClassValueAccess then
    match dyn_cast_IntToPtrInst c Ptr with
    | Some Cast =>
        match dyn_cast_BinaryOperator c (getOperand Cast 0) with
        | Some (Op, Add) =>
            if isIntegerTy (inst_ty Op) 32 then
              match dyn_cast_ConstantInt (getOperand Op 1) with
              | Some (bits, CI) =>
                  let ValType := getPointerElementType (getType c Ptr) in
                  let Offset := getSExtValue bits CI in
                  if (0 <=? Offset) && (Offset <=? MaxOffset ValType)
                  then Some (Folded (getOperand Op 0) Offset Cast Op)
                  else None
              | None => None
              end
            else None
        | _ => None
        end
    | None => None
    end
  else None.

(** Lines 137-211: the new address computation is built in front of
    [Inst] and operand [OpNum] is replaced.  The result carries the state,
    and on the optimized path [AddOffset], [SandboxedPtr] and the
    recognized pattern for the cleanup. *)
Definition rewritePtrOperand (OpNum : nat) (IsFirstClassValueAccess : bool)
           (s : state) : state * option (value * value * folded) :=
  let '(MemBaseV, s) := acquireMemBase s in
  let Ptr := getOperand (cur (fn s)) OpNum in
  let PtrTy := getType (fn s) Ptr in
  let OptimizeGEP := recognize (fn s) IsFirstClassValueAccess Ptr in
  let '(Truncated, s) :=
    match OptimizeGEP with
    | Some p => (Truncated0 p, s)
    | None => emit PtrToInt I32 [Ptr] s
    end in
  let '(Truncated, s) :=
    match PtrMask this with
    | Some Mask => emit (BinaryOperator And) I32 [Truncated; Mask] s
    | None => (Truncated, s)
    end in
  let '(Extend, s) := emit ZExt I64 [Truncated] s in
  let '(AddBase, s) := emit (BinaryOperator Add) I64 [MemBaseV; Extend] s in
  let '(AddOffset, s) :=
    match OptimizeGEP with
    | Some p =>
        emit (BinaryOperator Add) I64
             [AddBase; ConstantInt 64 (Offset p)] s
    | None => (AddBase, s)
    end in
  let '(SandboxedPtr, s) := emit IntToPtr PtrTy [AddOffset] s in
  let s :=
    State (set_cur (setOperand (cur (fn s)) OpNum SandboxedPtr) (fn s))
          (MemBase s) (fresh s) in
  (s, match OptimizeGEP with
      | Some p => Some (AddOffset, SandboxedPtr, p)
      | None => None
      end).

(** Lines 213-223: debug locations are copied, then the cast and the add
    are erased when dead, in this order. *)
Definition removeRedundant (AddOffset SandboxedPtr : value) (p : folded)
           (c : cursor) : cursor :=
  let c := CopyDebug AddOffset (InstRef (inst_id (RedundantAdd p))) c in
  let c := CopyDebug SandboxedPtr (InstRef (inst_id (RedundantCast p))) c in
  let c :=
    if use_empty c (inst_id (RedundantCast p))
    then eraseFromParent (inst_id (RedundantCast p)) c else c in
  let c :=
    if use_empty c (inst_id (RedundantAdd p))
    then eraseFromParent (inst_id (RedundantAdd p)) c else c in
  c.

Definition sandboxPtrOperand (OpNum : nat) (IsFirstClassValueAccess : bool)
           (s : state) : state :=
  match rewritePtrOperand OpNum IsFirstClassValueAccess s with
  | (s, Some (AddOffset, SandboxedPtr, p)) =>
      State (removeRedundant AddOffset SandboxedPtr p (fn s))
            (MemBase s) (fresh s)
  | (s, None) => s
  end.

(** *** [sandboxLenOperand] *)

Definition sandboxLenOperand (OpNum : nat) (s : state) : state :=
  match PtrMask this with
  | Some Mask =>
      let Len := getOperand (cur (fn s)) OpNum in
      let '(MaskedLen, s) := emit (BinaryOperator And) I32 [Len; Mask] s in
      State (set_cur (setOperand (cur (fn s)) OpNum MaskedLen) (fn s))
            (MemBase s) (fresh s)
  | None => s
  end.

(** *** [checkDoesNotHavePointerOperands] *)

Definition hasPointerOperand (c : cursor) (Inst : instruction) : bool :=
  let checked :=
    if isa_CallInst Inst then arg_operands Inst else operands Inst in
  fold_left (fun acc v => acc || isPointerTy (getType c v)) checked false.

Definition checkDoesNotHavePointerOperands (s : state) : result state :=
  if hasPointerOperand (fn s) (cur (fn s))
  then FatalError fatal_message
  else Ok s.

(** *** [runOnFunction] *)

(** The body of the instruction loop (lines 262-289). *)
Definition visit (s : state) : result state :=
  let Inst := cur (fn s) in
  if isa_LoadInst Inst then
    Ok (sandboxPtrOperand 0 true s)
  else if isa_StoreInst Inst then
    Ok (sandboxPtrOperand 1 true s)
  else if isa_MemCpyInst Inst || isa_MemMoveInst Inst then
    Ok (sandboxLenOperand 2
          (sandboxPtrOperand 1 false (sandboxPtrOperand 0 false s)))
  else if isa_MemSetInst Inst then
    Ok (sandboxLenOperand 2 (sandboxPtrOperand 0 false s))
  else
    match dyn_cast_IntrinsicInst Inst with
    | Some IntrCall =>
        match IntrCall with
        | nacl_atomic_load | nacl_atomic_cmpxchg =>
            Ok (sandboxPtrOperand 0 true s)
        | nacl_atomic_store | nacl_atomic_rmw | nacl_atomic_is_lock_free =>
            Ok (sandboxPtrOperand 1 true s)
        | _ => checkDoesNotHavePointerOperands s
        end
    | None =>
        if negb (isa_PtrToIntInst Inst) && negb (isa_BitCastInst Inst)
        then checkDoesNotHavePointerOperands s
        else Ok s
    end.

(** The two nested iterator loops.  New instructions are inserted before
    the iterator and the instruction under it is never erased, so [++Inst]
    is [advance] on the rewritten function. *)
Fixpoint iterate (fuel : nat) (s : state) : result state :=
  match fuel with
  | O => OutOfFuel
  | S fuel =>
      s <- visit s ;;
      match advance (fn s) with
      | Some c => iterate fuel (State c (MemBase s) (fresh s))
      | None => Ok s
      end
  end.

Definition runOnFunction (Func : function) (next : nat)
  : result (function * nat) :=
  match enter [] Func with
  | None => Ok (Func, next)
  | Some c =>
      s <- iterate (length (concat Func)) (State c None next) ;;
      Ok (to_function (fn s), fresh s)
  end.

Fixpoint runOnFunctions (Fs : list function) (next : nat)
  : result (list function * nat) :=
  match Fs with
  | [] => Ok ([], next)
  | Func :: Fs =>
      r <- runOnFunction Func next ;;
      rs <- runOnFunctions Fs (snd r) ;;
      Ok (fst r :: fst rs, snd rs)
  end.

End Methods.

Definition runOnModule (M : module) (next : nat) : result (module * nat) :=
  let '(this, M) := initialize M in
  rs <- runOnFunctions this (functions M) next ;;
  Ok (mkModule (globals M) (fst rs), snd rs).

End Pass.

(** ** What the emitted instructions compute

    The meaning of the few opcodes the pass emits, on unsigned
    representatives: a value of type [iN] is a number below [2^N]. *)

Module Sem.

Record machine : Type := Machine {
  regs : nat -> Z;          (* results of the instructions executed so far *)
  args : nat -> Z;          (* formal arguments *)
  symbol : string -> Z;     (* addresses of globals and functions *)
  memory : Z -> Z;          (* the 64-bit word stored at an address *)
  pointer_bits : Z          (* width of a pointer of the target *)
}.

Definition eval (m : machine) (v : value) : Z :=
  match v with
  | ConstantInt b x => wrap (Z.of_nat b) x
  | InstRef id => regs m id
  | Argument n _ => args m n
  | GlobalVariable name _ => symbol m name
  | FunctionRef name _ => symbol m name
  | Constant _ => 0
  | BasicBlockRef _ => 0
  end.

Definition int_bits (t : type) : Z :=
  match t with IntegerTy b => Z.of_nat b | _ => 0 end.

Definition compute (m : machine) (Inst : instruction) : option Z :=
  match opcode Inst, operands Inst with
  | PtrToInt, [p] => Some (wrap (int_bits (inst_ty Inst)) (eval m p))
  | ZExt, [x] => Some (eval m x)
  | BinaryOperator Add, [a; b] =>
      Some (wrap (int_bits (inst_ty Inst)) (eval m a + eval m b))
  | BinaryOperator And, [a; b] => Some (Z.land (eval m a) (eval m b))
  | IntToPtr, [x] => Some (wrap (pointer_bits m) (eval m x))
  | Load, [p] => Some (memory m (eval m p))
  | _, _ => None
  end.

Definition set_reg (id : nat) (x : Z) (m : machine) : machine :=
  Machine (fun j => if Nat.eqb j id then x else regs m j)
          (args m) (symbol m) (memory m) (pointer_bits m).

Definition exec (m : machine) (Inst : instruction) : machine :=
  match compute m Inst with
  | Some x => set_reg (inst_id Inst) x m
  | None => m
  end.

Definition run (m : machine) (l : list instruction) : machine :=
  fold_left exec l m.

End Sem.

(** ** Vocabulary of the properties *)

(** A value that exists before the instruction with id [n] is created. *)
Definition defined_below (n : nat) (v : value) : Prop :=
  match v with InstRef id => (id < n)%nat | _ => True end.

(** All instructions of [l] were created before the id supply reached [n]. *)
Definition ids_below (n : nat) (l : list instruction) : Prop :=
  Forall (fun J => (inst_id J < n)%nat) l.

Definition new_inst (id : nat) (op : opcode_t) (ty : type) (ops : list value)
  : instruction := mkInst id op ty ops None "".

(** General path: [ptrtoint], optional [and], [zext], [add], [inttoptr]. *)
Definition general_seq (Mask : option value) (n : nat) (Ptr : value)
           (PtrTy : type) (MemBaseV : value) : list instruction :=
  match Mask with
  | Some Mask =>
      [ new_inst n PtrToInt I32 [Ptr];
        new_inst (n + 1) (BinaryOperator And) I32 [InstRef n; Mask];
        new_inst (n + 2) ZExt I64 [InstRef (n + 1)];
        new_inst (n + 3) (BinaryOperator Add) I64 [MemBaseV; InstRef (n + 2)];
        new_inst (n + 4) IntToPtr PtrTy [InstRef (n + 3)] ]
  | None =>
      [ new_inst n PtrToInt I32 [Ptr];
        new_inst (n + 1) ZExt I64 [InstRef n];
        new_inst (n + 2) (BinaryOperator Add) I64 [MemBaseV; InstRef (n + 1)];
        new_inst (n + 3) IntToPtr PtrTy [InstRef (n + 2)] ]
  end.

(** Folded-offset path: optional [and], [zext], [add] of the base, [add] of
    the constant, [inttoptr]. *)
Definition folded_seq (Mask : option value) (n : nat) (X : value) (C : Z)
           (PtrTy : type) (MemBaseV : value) : list instruction :=
  match Mask with
  | Some Mask =>
      [ new_inst n (BinaryOperator And) I32 [X; Mask];
        new_inst (n + 1) ZExt I64 [InstRef n];
        new_inst (n + 2) (BinaryOperator Add) I64 [MemBaseV; InstRef (n + 1)];
        new_inst (n + 3) (BinaryOperator Add) I64
                 [InstRef (n + 2); ConstantInt 64 C];
        new_inst (n + 4) IntToPtr PtrTy [InstRef (n + 3)] ]
  | None =>
      [ new_inst n ZExt I64 [X];
        new_inst (n + 1) (BinaryOperator Add) I64 [MemBaseV; InstRef n];
        new_inst (n + 2) (BinaryOperator Add) I64
                 [InstRef (n + 1); ConstantInt 64 C];
        new_inst (n + 3) IntToPtr PtrTy [InstRef (n + 2)] ]
  end.

Definition last_id (n : nat) (l : list instruction) : nat :=
  (n + length l - 1)%nat.

(** The shape of the function after the rewriting of one operand. *)
Definition rewritten (s1 : state) (news : list instruction) (OpNum : nat)
  : state :=
  State (Cursor (before (fn s1)) (pre (fn s1) ++ news)
                (setOperand (cur (fn s1)) OpNum
                            (InstRef (last_id (fresh s1) news)))
                (post (fn s1)) (after (fn s1)))
        (MemBase s1) (fresh s1 + length news).

Definition masked (m : Sem.machine) (Mask : option value) (x : Z) : Z :=
  match Mask with
  | Some Mask => Z.land x (Sem.eval m Mask)
  | None => x
  end.

(** The offset the pass adds to the base: the low 32 bits, masked to [W]
    bits when [W < 32]. *)
Definition sandbox_offset (W : Z) (low : Z) : Z :=
  if W <? 32 then Z.land low (2 ^ W - 1) else low.

(** The shape the pattern match looks for, in the spec's words: [Ptr] is the
    integer-to-pointer cast [Cast] of the 32-bit add [Op] of a value [X] and a
    compile-time constant of signed value [C]. *)
Definition folded_shape (c : cursor) (Ptr X : value) (C : Z)
           (Cast Op : instruction) : Prop :=
  Ptr = InstRef (inst_id Cast) /\
  lookup_inst c (inst_id Cast) = Some Cast /\
  opcode Cast = IntToPtr /\
  getOperand Cast 0 = InstRef (inst_id Op) /\
  lookup_inst c (inst_id Op) = Some Op /\
  opcode Op = BinaryOperator Add /\
  inst_ty Op = IntegerTy 32 /\
  getOperand Op 0 = X /\
  exists bits raw,
    getOperand Op 1 = ConstantInt bits raw /\ C = getSExtValue bits raw.

(** The instruction kinds the function driver handles by itself. *)
Definition sandboxed_atomic (Inst : instruction) : bool :=
  match dyn_cast_IntrinsicInst Inst with
  | Some nacl_atomic_load | Some nacl_atomic_cmpxchg
  | Some nacl_atomic_store | Some nacl_atomic_rmw
  | Some nacl_atomic_is_lock_free => true
  | _ => false
  end.

Definition handled_kind (Inst : instruction) : bool :=
  isa_LoadInst Inst || isa_StoreInst Inst ||
  isa_MemCpyInst Inst || isa_MemMoveInst Inst || isa_MemSetInst Inst ||
  sandboxed_atomic Inst ||
  isa_PtrToIntInst Inst || isa_BitCastInst Inst.

(** The operands the validator looks at: the arguments of a call (not its
    callee), all operands of another instruction. *)
Definition checked_operands (Inst : instruction) : list value :=
  if isa_CallInst Inst then arg_operands Inst else operands Inst.

Definition has_pointer_typed_operand (c : cursor) (Inst : instruction)
  : Prop :=
  exists v, In v (checked_operands Inst) /\ isPointerTy (getType c v) = true.

Definition set_dbg (k : nat) (d : DebugLoc) (J : instruction) : instruction :=
  if has_id k J then setDebugLoc d J else J.

(** The instructions of the folded path before the two replacements. *)
Definition folded_front (Mask : option value) (n : nat) (X : value)
           (MemBaseV : value) : list instruction :=
  match Mask with
  | Some Mask =>
      [ new_inst n (BinaryOperator And) I32 [X; Mask];
        new_inst (n + 1) ZExt I64 [InstRef n];
        new_inst (n + 2) (BinaryOperator Add) I64 [MemBaseV; InstRef (n + 1)] ]
  | None =>
      [ new_inst n ZExt I64 [X];
        new_inst (n + 1) (BinaryOperator Add) I64 [MemBaseV; InstRef n] ]
  end.

(** The replacement of the add ([AddOffset]) and of the cast
    ([SandboxedPtr]). *)
Definition new_AddOffset (last : nat) (C : Z) : instruction :=
  new_inst (last - 1) (BinaryOperator Add) I64
           [InstRef (last - 2); ConstantInt 64 C].

Definition new_SandboxedPtr (last : nat) (PtrTy : type) : instruction :=
  new_inst last IntToPtr PtrTy [InstRef (last - 1)].

(** The state of the function after the operand has been replaced and the
    debug locations copied, before the erasures. *)
Definition replaced_cursor (c1 : cursor) (front : list instruction)
           (AddOffset SandboxedPtr : instruction) (OpNum : nat) : cursor :=
  Cursor (before c1) (pre c1 ++ front ++ [AddOffset; SandboxedPtr])
         (setOperand (cur c1) OpNum (InstRef (inst_id SandboxedPtr)))
         (post c1) (after c1).

Definition first_class_access (Inst : instruction) : Prop :=
  opcode Inst = Load \/ opcode Inst = Store \/ opcode Inst = Call.

(** The instructions the driver hands to the pointer sandboxer. *)
Definition is_site (Inst : instruction) : bool :=
  isa_LoadInst Inst || isa_StoreInst Inst ||
  isa_MemCpyInst Inst || isa_MemMoveInst Inst || isa_MemSetInst Inst ||
  sandboxed_atomic Inst.

Definition mem_base_load (this : SandboxMemoryAccesses) (n : nat)
  : instruction :=
  mkInst n Load I64 [MemBaseVar this] None "mem_base".

(** A load created by the run that started with the id supply at [n0]. *)
Definition synthesized_load (n0 : nat) (J : instruction) : bool :=
  Nat.leb n0 (inst_id J) && isa_LoadInst J.

Definition count_synth (n0 : nat) (l : list instruction) : nat :=
  length (List.filter (synthesized_load n0) l).

(** Every add created by the run adds the value of the instruction [n0] (the
    memory base) to its other operand, or a constant to its first operand. *)
Definition adds_base (n0 : nat) (J : instruction) : Prop :=
  (n0 <= inst_id J)%nat -> opcode J = BinaryOperator Add ->
  (exists v, operands J = [InstRef n0; v]) \/
  (exists v C, operands J = [v; ConstantInt 64 C]).

(** The same for the adds created since the id supply was at [m0], with the
    memory base in the instruction [n]. *)
Definition adds_base_from (m0 n : nat) (J : instruction) : Prop :=
  (m0 <= inst_id J)%nat -> opcode J = BinaryOperator Add ->
  (exists v, operands J = [InstRef n; v]) \/
  (exists v C, operands J = [v; ConstantInt 64 C]).

(** An instruction of the input (its id is below [m0]) or one created since
    the id supply was at [n0]. *)
Definition old_or_new (m0 n0 : nat) (J : instruction) : Prop :=
  (inst_id J < m0)%nat \/ (n0 <= inst_id J)%nat.

Definition entry_head (c : cursor) : option instruction :=
  match to_function c with
  | b :: _ => head b
  | [] => None
  end.

(** The invariant of the instruction loop of [runOnFunction] started with the
    id supply at [n0], on a function whose ids are below [m0 <= n0]: ids are
    fresh, the instructions not yet visited are original ones, and the memory
    base is either not acquired yet, or it is the one load [n0] at the head
    of the entry block that every new add uses. *)
Record Inv (this : SandboxMemoryAccesses) (m0 n0 : nat) (s : state)
  : Prop := {
  inv_ids : ids_below (fresh s) (all_insts (fn s));
  inv_le : (n0 <= fresh s)%nat;
  inv_adds : Forall (adds_base n0) (all_insts (fn s));
  inv_todo : ids_below n0 (cur (fn s) :: remaining (fn s));
  inv_base :
    match MemBase s with
    | None => fresh s = n0
    | Some v =>
        v = InstRef n0 /\ (n0 < fresh s)%nat /\
        entry_head (fn s) = Some (mem_base_load this n0) /\
        count_synth n0 (all_insts (fn s)) = 1%nat
    end;
  inv_old : Forall (old_or_new m0 n0) (all_insts (fn s))
}.

Definition in_range (n len : nat) (K : instruction) : Prop :=
  (n <= inst_id K < n + len)%nat.

(** What [runOnFunction] does about the memory base. *)
Definition mem_base_outcome (this : SandboxMemoryAccesses) (m0 n : nat)
           (Func Func' : function) : Prop :=
  if existsb is_site (concat Func)
  then (exists b bs, Func' = (mem_base_load this n :: b) :: bs) /\
       count_synth m0 (concat Func') = 1%nat /\
       Forall (adds_base_from m0 n) (concat Func')
  else Func' = Func.

(** *** Well-formed functions and the elementary rewriting steps *)

(** Some instruction of [l] has the id [k]. *)
Definition defined_in (l : list instruction) (k : nat) : Prop :=
  exists K, In K l /\ inst_id K = k.

(** No dangling reference: every operand that is an instruction result
    refers to an instruction of the list. *)
Definition closed (l : list instruction) : Prop :=
  forall J k, In J l -> In (InstRef k) (operands J) -> defined_in l k.

(** A function whose instructions are distinct objects created before the id
    supply reached [n], without dangling reference. *)
Record wf_function (n : nat) (Func : function) : Prop := {
  wff_ids : ids_below n (concat Func);
  wff_nodup : NoDup (map inst_id (concat Func));
  wff_closed : closed (concat Func)
}.

Definition not_inst_ref (v : value) : Prop :=
  match v with InstRef _ => False | _ => True end.

(** The fields of the pass object are constants, as [runOnModule] sets
    them. *)
Definition pass_ok (this : SandboxMemoryAccesses) : Prop :=
  not_inst_ref (MemBaseVar this) /\
  forall v, PtrMask this = Some v -> not_inst_ref v.

(** The same for a function under rewriting; the cached memory base is the
    result of a load of the function. *)
Record WF (s : state) : Prop := {
  wf_ids : ids_below (fresh s) (all_insts (fn s));
  wf_nodup : NoDup (map inst_id (all_insts (fn s)));
  wf_closed : closed (all_insts (fn s));
  wf_base :
    forall v, MemBase s = Some v ->
              exists K, In K (all_insts (fn s)) /\ v = InstRef (inst_id K) /\
                        opcode K = Load
}.

(** Where the operand [v] of a new instruction comes from: an operand of an
    instruction of the function, the cached memory base, a constant, or one
    of the new instructions [N]. *)
Definition operand_source (s : state) (N : list instruction) (v : value)
  : Prop :=
  (exists J, In J (all_insts (fn s)) /\ In v (operands J)) \/
  MemBase s = Some v \/
  not_inst_ref v \/
  (exists K, In K N /\ v = InstRef (inst_id K)).

(** The instructions the sandboxers build: casts, the mask, the extension
    and the adds. *)
Definition arithmetic (K : instruction) : Prop :=
  match opcode K with
  | PtrToInt | ZExt | IntToPtr
  | BinaryOperator And | BinaryOperator Add => True
  | _ => False
  end.

(** The elementary steps every visit of an instruction is made of: the
    acquisition of the memory base, the insertion of new instructions before
    the iterator with the replacement of one operand, and the erasure of a
    dead cast or add. *)
Inductive prim (this : SandboxMemoryAccesses) : state -> state -> Prop :=
| prim_acquire s :
    MemBase s = None -> prim this s (acquireMemBase this s).2
| prim_insert s N OpNum :
    N <> [] ->
    map inst_id N = seq (fresh s) (length N) ->
    Forall arithmetic N ->
    first_class_access (cur (fn s)) ->
    (forall K v, In K N -> In v (operands K) -> operand_source s N v) ->
    prim this s (rewritten s N OpNum)
| prim_erase s K :
    In K (all_insts (fn s)) ->
    K <> cur (fn s) ->
    opcode K = IntToPtr \/ opcode K = BinaryOperator Add ->
    use_empty (fn s) (inst_id K) = true ->
    prim this s (State (eraseFromParent (inst_id K) (fn s)) (MemBase s)
                       (fresh s)).

(** Finite sequences of elementary steps. *)
Inductive steps (this : SandboxMemoryAccesses) : state -> state -> Prop :=
| steps_refl s : steps this s s
| steps_cons s1 s2 s3 :
    prim this s1 s2 -> steps this s2 s3 -> steps this s1 s3.

(** An instruction of the input that the pass never erases: its id is below
    [n0] and it is neither an integer-to-pointer cast nor an add. *)
Definition keep (n0 : nat) (J : instruction) : bool :=
  Nat.ltb (inst_id J) n0 && negb (isa_IntToPtrInst J) &&
  negb (match opcode J with BinaryOperator Add => true | _ => false end).

(** An instruction without the part the pass may change: the operands of a
    load, store or call. *)
Definition strip (J : instruction) : instruction :=
  match opcode J with
  | Load | Store | Call =>
      mkInst (inst_id J) (opcode J) (inst_ty J) [] (dbg J) (inst_name J)
  | _ => J
  end.

Definition skeleton (n0 : nat) (Func : function) : list (list instruction) :=
  map (fun b => map strip (List.filter (keep n0) b)) Func.

(** The invariant of the loop on a function whose ids were below [m0]: the
    function is well formed and the instructions of the input that are no
    casts or adds are all there. *)
Definition kept (m0 : nat) (sk : list (list instruction)) (s : state)
  : Prop :=
  WF s /\ (m0 <= fresh s)%nat /\ skeleton m0 (to_function (fn s)) = sk.

(** The operand positions the function driver hands to the sandboxers. *)
Definition sandboxed_operands (Inst : instruction) : list nat :=
  if isa_LoadInst Inst then [0%nat]
  else if isa_StoreInst Inst then [1%nat]
  else if isa_MemCpyInst Inst || isa_MemMoveInst Inst then [0; 1; 2]%nat
  else if isa_MemSetInst Inst then [0; 2]%nat
  else match dyn_cast_IntrinsicInst Inst with
       | Some nacl_atomic_load | Some nacl_atomic_cmpxchg => [0%nat]
       | Some nacl_atomic_store | Some nacl_atomic_rmw
       | Some nacl_atomic_is_lock_free => [1%nat]
       | _ => []
       end.

(** [J'] is the instruction [J] with other operands at the positions [ks]
    at most. *)
Definition differs_at (ks : list nat) (J J' : instruction) : Prop :=
  inst_id J' = inst_id J /\ opcode J' = opcode J /\ inst_ty J' = inst_ty J /\
  dbg J' = dbg J /\ inst_name J' = inst_name J /\
  length (operands J') = length (operands J) /\
  forall k, ~ In k ks -> operands J' !! k = operands J !! k.

(** An instruction the validator rejects in the function [c]: its kind is
    not handled by the driver and one of its checked operands is a pointer. *)
Definition rejected (c : cursor) (J : instruction) : bool :=
  negb (handled_kind J) && hasPointerOperand c J.




(** *** Mediation of the memory accesses *)

(** The operand positions the driver hands to the pointer sandboxer. *)
Definition pointer_operands (Inst : instruction) : list nat :=
  if isa_LoadInst Inst then [0%nat]
  else if isa_StoreInst Inst then [1%nat]
  else if isa_MemCpyInst Inst || isa_MemMoveInst Inst then [0; 1]%nat
  else if isa_MemSetInst Inst then [0%nat]
  else match dyn_cast_IntrinsicInst Inst with
       | Some nacl_atomic_load | Some nacl_atomic_cmpxchg => [0%nat]
       | Some nacl_atomic_store | Some nacl_atomic_rmw
       | Some nacl_atomic_is_lock_free => [1%nat]
       | _ => []
       end.

(** The operands the driver handles exist: a load has its pointer, a store
    its value and its pointer, a call of an intrinsic its arguments before
    the callee. *)
Definition well_shaped (Inst : instruction) : Prop :=
  forall pos,
    In pos (sandboxed_operands Inst) ->
    (pos < length (operands Inst) - if isa_CallInst Inst then 1 else 0)%nat.

(** Operand [pos] of [J] is the result of an integer-to-pointer cast of [l]
    created since the id supply was at [n0]. *)
Definition sandboxed_at (n0 : nat) (l : list instruction) (J : instruction)
           (pos : nat) : Prop :=
  exists K, In K l /\ getOperand J pos = InstRef (inst_id K) /\
            (n0 <= inst_id K)%nat /\ opcode K = IntToPtr.

(** Every pointer the instruction [J] accesses memory through is one the
    pass has made. *)
Definition mediated (n0 : nat) (l : list instruction) (J : instruction)
  : Prop :=
  forall pos, In pos (pointer_operands J) -> sandboxed_at n0 l J pos.

(** The instructions the iterator has passed. *)
Definition passed (c : cursor) : list instruction :=
  concat (before c) ++ pre c.

(** The invariant of the loop for the mediation: the instructions of the
    input (ids below [m0]) the iterator has passed are mediated, and those it
    has not reached are well shaped. *)
Definition mediation (m0 : nat) (s : state) : Prop :=
  ids_below (fresh s) (all_insts (fn s)) /\
  (m0 <= fresh s)%nat /\
  Forall well_shaped (remaining (fn s)) /\
  forall J, In J (passed (fn s)) -> (inst_id J < m0)%nat ->
            mediated m0 (all_insts (fn s)) J.

(** An instruction the pass creates: the load of the memory base or one of
    the instructions of the address computation. *)
Definition created_kind (this : SandboxMemoryAccesses) (J : instruction)
  : Prop :=
  J = mem_base_load this (inst_id J) \/ arithmetic J.

(** The invariant of the loop for the instructions created since the id
    supply was at [m0]. *)
Definition creation (this : SandboxMemoryAccesses) (m0 : nat) (s : state)
  : Prop :=
  ids_below (fresh s) (all_insts (fn s)) /\
  (m0 <= fresh s)%nat /\
  ids_below m0 (cur (fn s) :: remaining (fn s)) /\
  forall J, In J (all_insts (fn s)) -> (m0 <= inst_id J)%nat ->
            created_kind this J.

(** Splits a [Forall] over an explicit list into one goal per element. *)
Ltac split_Forall :=
  repeat match goal with
         | |- Forall _ (_ :: _) => apply List.Forall_cons
         | |- Forall _ [] => apply List.Forall_nil
         end.

(** ** Concrete inputs *)

Module Examples.

(** Store sizes of the scalar types, as a 32-bit data layout gives them. *)
Definition store_size (t : type) : Z :=
  match t with
  | IntegerTy b => (Z.of_nat b + 7) / 8
  | PointerTy _ => 4
  | FloatTy => 4
  | DoubleTy => 8
  | _ => 0
  end.

(** [%a = add i32 %x, 16], [%p = inttoptr i32 %a to i32*],
    [%v = load i32* %p], [store i32 %v, i32* %q], [ret void]. *)
Definition ex_add : instruction :=
  mkInst 0 (BinaryOperator Add) I32 [Argument 0 I32; ConstantInt 32 16]
         (Some 7%nat) "a".
Definition ex_cast : instruction :=
  mkInst 1 IntToPtr (PointerTy I32) [InstRef 0] (Some 8%nat) "p".
Definition ex_load : instruction :=
  mkInst 2 Load I32 [InstRef 1] None "v".
Definition ex_store : instruction :=
  mkInst 3 Store VoidTy [InstRef 2; Argument 1 (PointerTy I32)] None "".
Definition ex_ret : instruction := mkInst 4 Ret VoidTy [] None "".

Definition ex_function : function :=
  [[ex_add; ex_cast; ex_load; ex_store; ex_ret]].

(** A function without memory access. *)
Definition ex_plain : function :=
  [[mkInst 0 (BinaryOperator Mul) I32 [Argument 0 I32; Argument 0 I32]
           None "sq";
    mkInst 1 Ret I32 [InstRef 0] None ""]].

Definition ex_module : module := mkModule [] [ex_function; ex_plain].

(** The iterator on the load and on the store of [ex_function]. *)
Definition at_load : state :=
  State (Cursor [] [ex_add; ex_cast] ex_load [ex_store; ex_ret] []) None 5.
Definition at_store : state :=
  State (Cursor [] [ex_add; ex_cast; ex_load] ex_store [ex_ret] []) None 5.

(** [call void @f(i8* %p)] and [%r = call i32 @g(i32 %x)]. *)
Definition ex_call_ptr : instruction :=
  mkInst 0 Call VoidTy
         [Argument 0 (PointerTy (IntegerTy 8)); FunctionRef "f" not_intrinsic]
         None "".
Definition ex_call_int : instruction :=
  mkInst 0 Call I32 [Argument 0 I32; FunctionRef "g" not_intrinsic] None "r".
Definition at_call_int : state :=
  State (Cursor [] [] ex_call_int [] []) None 1.

(** [call void @llvm.memset.p0i8.i32(i8* %d, i8 0, i32 %n, i32 1, i1 0)]. *)
Definition ex_memset : instruction :=
  mkInst 0 Call VoidTy
         [Argument 0 (PointerTy (IntegerTy 8)); ConstantInt 8 0;
          Argument 1 I32; ConstantInt 32 1; ConstantInt 1 0;
          FunctionRef "llvm.memset.p0i8.i32" memset]
         None "".
Definition at_memset : state := State (Cursor [] [] ex_memset [] []) None 1.

(** [call void @llvm.memcpy.p0i8.p0i8.i32(i8* %d, i8* %s, i32 %n, i32 1,
    i1 0)]. *)
Definition ex_memcpy : instruction :=
  mkInst 0 Call VoidTy
         [Argument 0 (PointerTy (IntegerTy 8));
          Argument 1 (PointerTy (IntegerTy 8));
          Argument 2 I32; ConstantInt 32 1; ConstantInt 1 0;
          FunctionRef "llvm.memcpy.p0i8.p0i8.i32" memcpy]
         None "".
Definition at_memcpy : state := State (Cursor [] [] ex_memcpy [] []) None 1.

(** The iterator on the first instruction of [ex_plain]. *)
Definition at_plain : cursor :=
  Cursor [] []
         (mkInst 0 (BinaryOperator Mul) I32 [Argument 0 I32; Argument 0 I32]
                 None "sq")
         [mkInst 1 Ret I32 [InstRef 0] None ""] [].

(** The pattern recognized at [at_load]. *)
Definition ex_folded : folded := Folded (Argument 0 I32) 16 ex_cast ex_add.

(** A machine whose memory base is [2^32] and whose arguments are all
    [2^24 + 8]. *)
Definition ex_machine : Sem.machine :=
  Sem.Machine (fun _ => 0) (fun _ => 2 ^ 24 + 8) (fun _ => 4096)
              (fun a => if a =? 4096 then 2 ^ 32 else 0) 64.

End Examples.

Import Examples.

(** ** Properties *)

Section Initializer.

Variable W : Z.
Variable M : module.

Lemma initialize_PtrMask :
  0 <= W ->
  PtrMask (initialize W M).1 =
    if W <? 32 then Some (ConstantInt 32 (2 ^ W - 1)) else None.
Proof.
  intros HW. unfold initialize.
  destruct (getOrInsertGlobal M ExternalSymName_MemoryBase I64) as [v M'].
  cbn [fst PtrMask]. destruct (Z.ltb_spec W 32) as [Hlt|]; [|reflexivity].
  do 3 f_equal. unfold wrap. rewrite Z.shiftl_1_l.
  assert (2 ^ W < 2 ^ 32) by (apply Z.pow_lt_mono_r; lia).
  assert (0 < 2 ^ W) by (apply Z.pow_pos_nonneg; lia).
  rewrite (Z.mod_small (2 ^ W)) by lia. apply Z.mod_small. lia.
Qed.

End Initializer.

(** *** The instruction sequences of the two lowering strategies *)

Section Rewrite.

Variable W : Z.
Variable getTypeStoreSize : type -> Z.
Variable this : SandboxMemoryAccesses.

Local Abbreviation acquire := (acquireMemBase this).
Local Abbreviation recognize := (recognize W getTypeStoreSize).
Local Abbreviation rewritePtrOperand :=
  (rewritePtrOperand W getTypeStoreSize this).
Local Abbreviation sandboxPtrOperand :=
  (sandboxPtrOperand W getTypeStoreSize this).

Lemma acquire_cur s : cur (fn (acquire s).2) = cur (fn s).
Proof.
  unfold acquireMemBase. destruct (MemBase s); [reflexivity|].
  cbn. unfold push_front_entry. destruct (before (fn s)); reflexivity.
Qed.

Lemma acquire_post s : post (fn (acquire s).2) = post (fn s).
Proof.
  unfold acquireMemBase. destruct (MemBase s); [reflexivity|].
  cbn. unfold push_front_entry. destruct (before (fn s)); reflexivity.
Qed.

Lemma acquire_after s : after (fn (acquire s).2) = after (fn s).
Proof.
  unfold acquireMemBase. destruct (MemBase s); [reflexivity|].
  cbn. unfold push_front_entry. destruct (before (fn s)); reflexivity.
Qed.


Lemma rewrite_general OpNum fca s :
  let s1 := (acquire s).2 in
  let Ptr := getOperand (cur (fn s)) OpNum in
  recognize (fn s1) fca Ptr = None ->
  rewritePtrOperand OpNum fca s =
    (rewritten s1 (general_seq (PtrMask this) (fresh s1) Ptr
                               (getType (fn s1) Ptr) (acquire s).1) OpNum,
     None).
Proof.
  intros s1 Ptr Hrec. unfold rewritePtrOperand.
  pose proof (acquire_cur s) as Hcur. fold s1 in Hcur.
  destruct (acquire s) as [mb s1'] eqn:Hacq. cbn [snd fst] in *. subst s1.
  rewrite Hcur. fold Ptr. rewrite Hrec.
  unfold rewritten, general_seq, last_id, emit, new_inst, insert_before_cur,
    set_cur.
  destruct (PtrMask this) as [Mask|]; cbn -[Nat.add Nat.sub];
    rewrite <- ?app_assoc; cbn -[Nat.add Nat.sub];
    repeat (f_equal; try lia).
Qed.

Lemma rewrite_folded OpNum fca s p :
  let s1 := (acquire s).2 in
  let Ptr := getOperand (cur (fn s)) OpNum in
  recognize (fn s1) fca Ptr = Some p ->
  let news := folded_seq (PtrMask this) (fresh s1) (Truncated0 p) (Offset p)
                         (getType (fn s1) Ptr) (acquire s).1 in
  rewritePtrOperand OpNum fca s =
    (rewritten s1 news OpNum,
     Some (InstRef (last_id (fresh s1) news - 1),
           InstRef (last_id (fresh s1) news), p)).
Proof.
  intros s1 Ptr Hrec. unfold rewritePtrOperand.
  pose proof (acquire_cur s) as Hcur. fold s1 in Hcur.
  destruct (acquire s) as [mb s1'] eqn:Hacq. cbn [snd fst] in *. subst s1.
  rewrite Hcur. fold Ptr. rewrite Hrec.
  unfold rewritten, folded_seq, last_id, emit, new_inst, insert_before_cur,
    set_cur.
  destruct (PtrMask this) as [Mask|]; cbn -[Nat.add Nat.sub];
    rewrite <- ?app_assoc; cbn -[Nat.add Nat.sub];
    repeat (f_equal; try lia).
Qed.

End Rewrite.

(** *** Executing the emitted sequences *)

Section Execution.

Import Sem.

Lemma eval_set_reg_same m k x : eval (set_reg k x m) (InstRef k) = x.
Proof. cbn. now rewrite Nat.eqb_refl. Qed.

Lemma eval_set_reg_below m n k x v :
  defined_below n v -> (n <= k)%nat -> eval (set_reg k x m) v = eval m v.
Proof.
  destruct v; cbn; try reflexivity. intros Hlt Hle.
  destruct (Nat.eqb_spec id k); [lia | reflexivity].
Qed.

Lemma pointer_bits_set_reg m k x :
  pointer_bits (set_reg k x m) = pointer_bits m.
Proof. reflexivity. Qed.

Lemma exec_new m id op ty ops x :
  compute m (new_inst id op ty ops) = Some x ->
  exec m (new_inst id op ty ops) = set_reg id x m.
Proof. unfold exec. now intros ->. Qed.

Lemma run_general_seq m Mask n Ptr PtrTy mb :
  defined_below n Ptr -> defined_below n mb ->
  match Mask with Some k => defined_below n k | None => True end ->
  let news := general_seq Mask n Ptr PtrTy mb in
  eval (run m news) (InstRef (last_id n news)) =
    wrap (pointer_bits m)
         (wrap 64 (eval m mb + masked m Mask (wrap 32 (eval m Ptr)))).
Proof.
  intros HPtr Hmb HMask news. subst news. unfold general_seq, last_id, masked.
  destruct Mask as [k|]; cbn [length run fold_left];
    [replace (n + 5 - 1)%nat with (n + 4)%nat by lia
    |replace (n + 4 - 1)%nat with (n + 3)%nat by lia];
    repeat (erewrite exec_new by reflexivity);
    cbn [int_bits I32 I64];
    rewrite ?eval_set_reg_same, ?pointer_bits_set_reg;
    rewrite ?eval_set_reg_same;
    rewrite ?(eval_set_reg_below _ n) by (assumption || lia);
    rewrite ?eval_set_reg_same;
    rewrite ?(eval_set_reg_below _ n) by (assumption || lia);
    reflexivity.
Qed.

Lemma run_folded_seq m Mask n X C PtrTy mb :
  defined_below n X -> defined_below n mb ->
  match Mask with Some k => defined_below n k | None => True end ->
  let news := folded_seq Mask n X C PtrTy mb in
  eval (run m news) (InstRef (last_id n news)) =
    wrap (pointer_bits m)
         (wrap 64 (wrap 64 (eval m mb + masked m Mask (eval m X)) +
                   wrap 64 C)).
Proof.
  intros HX Hmb HMask news. subst news. unfold folded_seq, last_id, masked.
  destruct Mask as [k|]; cbn [length run fold_left];
    [replace (n + 5 - 1)%nat with (n + 4)%nat by lia
    |replace (n + 4 - 1)%nat with (n + 3)%nat by lia];
    repeat (erewrite exec_new by reflexivity);
    cbn [int_bits I32 I64];
    rewrite ?eval_set_reg_same, ?pointer_bits_set_reg;
    rewrite ?eval_set_reg_same;
    rewrite ?(eval_set_reg_below _ n) by (assumption || lia);
    rewrite ?eval_set_reg_same;
    rewrite ?(eval_set_reg_below _ n) by (assumption || lia);
    reflexivity.
Qed.

End Execution.

(** *** Arithmetic of the mask *)

Lemma land_mask_mod (x W : Z) :
  0 <= W -> Z.land x (2 ^ W - 1) = x mod 2 ^ W.
Proof.
  intros HW. rewrite <- Z.land_ones by assumption.
  now rewrite Z.ones_equiv, Z.sub_1_r.
Qed.

Lemma land_mask_bound (x W : Z) :
  0 <= W -> 0 <= Z.land x (2 ^ W - 1) <= 2 ^ W - 1.
Proof.
  intros HW. rewrite land_mask_mod by assumption.
  assert (0 < 2 ^ W) by (apply Z.pow_pos_nonneg; lia).
  pose proof (Z.mod_pos_bound x (2 ^ W)). lia.
Qed.

Lemma wrap_bound (b x : Z) : 0 <= b -> 0 <= wrap b x < 2 ^ b.
Proof.
  intros Hb. unfold wrap. apply Z.mod_pos_bound.
  apply Z.pow_pos_nonneg; lia.
Qed.

Lemma wrap_small (b x : Z) : 0 <= x < 2 ^ b -> wrap b x = x.
Proof. intros H. unfold wrap. now apply Z.mod_small. Qed.

(** In 64-bit arithmetic the distance from [b] to [b + o] is [o]. *)
Lemma wrap_distance (b o : Z) :
  0 <= o < 2 ^ 64 -> wrap 64 (wrap 64 (b + o) - b) = o.
Proof.
  intros Ho. unfold wrap. rewrite Zminus_mod_idemp_l.
  replace (b + o - b) with o by lia. now apply Z.mod_small.
Qed.

Lemma wrap_distance_add (b o C : Z) :
  0 <= o + C < 2 ^ 64 ->
  wrap 64 (wrap 64 (wrap 64 (b + o) + C) - b) = o + C.
Proof.
  intros Ho. unfold wrap. rewrite Zplus_mod_idemp_l, Zminus_mod_idemp_l.
  replace (b + o + C - b) with (o + C) by lia. now apply Z.mod_small.
Qed.

Lemma eval_mask m (W : Z) :
  0 <= W < 32 -> Sem.eval m (ConstantInt 32 (2 ^ W - 1)) = 2 ^ W - 1.
Proof.
  intros HW. cbn. apply wrap_small.
  assert (0 < 2 ^ W) by (apply Z.pow_pos_nonneg; lia).
  assert (2 ^ W < 2 ^ 32) by (apply Z.pow_lt_mono_r; lia).
  change (Z.of_nat 32) with 32. lia.
Qed.

Lemma sandbox_offset_bound (W low : Z) :
  0 <= W <= 32 -> 0 <= low < 2 ^ 32 ->
  0 <= sandbox_offset W low < 2 ^ W.
Proof.
  intros HW Hlow. unfold sandbox_offset.
  destruct (Z.ltb_spec W 32).
  - pose proof (land_mask_bound low W). lia.
  - now replace W with 32 by lia.
Qed.

Lemma masked_initialize m (W : Z) (M : module) (x : Z) :
  0 <= W ->
  masked m (PtrMask (initialize W M).1) x = sandbox_offset W x.
Proof.
  intros HW. rewrite initialize_PtrMask by assumption.
  unfold sandbox_offset, masked.
  destruct (Z.ltb_spec W 32); [|reflexivity].
  now rewrite eval_mask by lia.
Qed.

Lemma PtrMask_defined_below (W : Z) (M : module) (n : nat) :
  0 <= W ->
  match PtrMask (initialize W M).1 with
  | Some k => defined_below n k
  | None => True
  end.
Proof.
  intros HW. rewrite initialize_PtrMask by assumption.
  now destruct (W <? 32).
Qed.

Lemma acquire_defined_below this s :
  match MemBase s with
  | Some v => defined_below (fresh s) v
  | None => True
  end ->
  defined_below (fresh (acquireMemBase this s).2) (acquireMemBase this s).1.
Proof.
  unfold acquireMemBase. destruct (MemBase s); cbn; [tauto | lia].
Qed.

Lemma acquire_fresh_le this s :
  (fresh s <= fresh (acquireMemBase this s).2)%nat.
Proof. unfold acquireMemBase. destruct (MemBase s); cbn; lia. Qed.

Lemma defined_below_mono n n' v :
  (n <= n')%nat -> defined_below n v -> defined_below n' v.
Proof. destruct v; cbn; lia || tauto. Qed.

(** C2. On the general (non-optimized) path the operand is replaced by the
    result of [ptrtoint; (and mask;) zext; add mem_base; inttoptr], built
    immediately before the rewritten instruction.  The address is
    [base + zext (low32 (ptr) & mask)] in 64-bit arithmetic, the mask being
    [2^W - 1] when [W < 32] and absent when [W = 32]; its distance from the
    base is that offset, below [2^W], so the address lies in the region
    [base, base + 2^W) of the address space. *)
Theorem general_path_bounded (W : Z) (sz : type -> Z) (M : module)
    (OpNum : nat) (fca : bool) (s : state) :
  let this := (initialize W M).1 in
  let s1 := (acquireMemBase this s).2 in
  let MemBaseV := (acquireMemBase this s).1 in
  let Ptr := getOperand (cur (fn s)) OpNum in
  let news := general_seq (PtrMask this) (fresh s1) Ptr
                          (getType (fn s1) Ptr) MemBaseV in
  0 <= W <= 32 ->
  recognize W sz (fn s1) fca Ptr = None ->
  defined_below (fresh s) Ptr ->
  match MemBase s with
  | Some v => defined_below (fresh s) v
  | None => True
  end ->
  sandboxPtrOperand W sz this OpNum fca s = rewritten s1 news OpNum /\
  forall m : Sem.machine,
    let base := Sem.eval m MemBaseV in
    let offset := sandbox_offset W (wrap 32 (Sem.eval m Ptr)) in
    let addr :=
      Sem.eval (Sem.run m news) (InstRef (last_id (fresh s1) news)) in
    addr = wrap (Sem.pointer_bits m) (wrap 64 (base + offset)) /\
    0 <= offset < 2 ^ W /\
    wrap 64 (wrap 64 (base + offset) - base) = offset /\
    (0 <= base -> base + 2 ^ W <= 2 ^ Sem.pointer_bits m ->
     Sem.pointer_bits m <= 64 ->
     addr = base + offset /\ base <= addr < base + 2 ^ W).
Proof.
  intros this s1 MemBaseV Ptr news HW Hrec HPtr Hmb. split.
  - unfold sandboxPtrOperand.
    rewrite (rewrite_general W sz this OpNum fca s Hrec). reflexivity.
  - intros m base offset addr.
    assert (Haddr : addr = wrap (Sem.pointer_bits m) (wrap 64 (base + offset))).
    { subst addr news. rewrite run_general_seq.
      - subst this. now rewrite masked_initialize by lia.
      - eapply defined_below_mono; [apply acquire_fresh_le | exact HPtr].
      - now apply acquire_defined_below.
      - apply PtrMask_defined_below; lia. }
    assert (Hoff : 0 <= offset < 2 ^ W).
    { apply sandbox_offset_bound; [lia | apply wrap_bound; lia]. }
    assert (HpowW : 2 ^ W <= 2 ^ 32) by (apply Z.pow_le_mono_r; lia).
    split; [exact Haddr | split; [exact Hoff | split]].
    { apply wrap_distance. lia. }
    intros Hbase Hfit Hbits.
    assert (2 ^ Sem.pointer_bits m <= 2 ^ 64)
      by (apply Z.pow_le_mono_r; lia).
    rewrite Haddr, (wrap_small 64), wrap_small by lia. lia.
Qed.

Lemma getOperand_setOperand_ne Inst n k v :
  n <> k -> getOperand (setOperand Inst n v) k = getOperand Inst k.
Proof.
  intros Hne. unfold getOperand, setOperand. cbn.
  now rewrite list_lookup_insert_ne.
Qed.


Lemma sandbox_bulk_operand W sz this OpNum s :
  let s1 := (acquireMemBase this s).2 in
  let Ptr := getOperand (cur (fn s)) OpNum in
  sandboxPtrOperand W sz this OpNum false s =
    rewritten s1 (general_seq (PtrMask this) (fresh s1) Ptr
                              (getType (fn s1) Ptr) (acquireMemBase this s).1)
              OpNum.
Proof.
  intros s1 Ptr. unfold sandboxPtrOperand.
  now rewrite (rewrite_general W sz this OpNum false s).
Qed.

Lemma sandbox_bulk_cur W sz this OpNum s k :
  OpNum <> k ->
  getOperand (cur (fn (sandboxPtrOperand W sz this OpNum false s))) k =
    getOperand (cur (fn s)) k.
Proof.
  intros Hne. rewrite sandbox_bulk_operand. cbn.
  rewrite getOperand_setOperand_ne by assumption. now rewrite acquire_cur.
Qed.

Lemma intrinsic_is_call Inst iid :
  dyn_cast_IntrinsicInst Inst = Some iid -> opcode Inst = Call.
Proof.
  unfold dyn_cast_IntrinsicInst. now destruct (opcode Inst).
Qed.

(** C7. For a bulk copy, move or set the length operand (operand 2) is
    replaced, when [W < 32], by a new [and] of the length with the mask
    [2^W - 1], whose value is at most the mask; when no mask is configured
    the operand stays.  With [W = 24] the length [0x02000000] becomes [0]. *)
Theorem length_operand_masked (W : Z) (sz : type -> Z) (M : module)
    (s : state) :
  let this := (initialize W M).1 in
  let Inst := cur (fn s) in
  0 <= W ->
  isa_MemCpyInst Inst || isa_MemMoveInst Inst || isa_MemSetInst Inst = true ->
  exists s1 : state,
    visit W sz this s = Ok (sandboxLenOperand this 2 s1) /\
    let Len := getOperand (cur (fn s1)) 2 in
    let MaskedLen :=
      new_inst (fresh s1) (BinaryOperator And) I32
               [Len; ConstantInt 32 (2 ^ W - 1)] in
    Len = getOperand Inst 2 /\
    (W < 32 ->
       sandboxLenOperand this 2 s1 =
         State (Cursor (before (fn s1)) (pre (fn s1) ++ [MaskedLen])
                       (setOperand (cur (fn s1)) 2 (InstRef (fresh s1)))
                       (post (fn s1)) (after (fn s1)))
               (MemBase s1) (S (fresh s1)) /\
       forall m : Sem.machine,
         let len' := Sem.eval (Sem.exec m MaskedLen) (InstRef (fresh s1)) in
         len' = Z.land (Sem.eval m Len) (2 ^ W - 1) /\
         0 <= len' <= 2 ^ W - 1 /\
         (W = 24 -> Sem.eval m Len = 0x02000000 -> len' = 0)) /\
    (32 <= W -> sandboxLenOperand this 2 s1 = s1).
Proof.
  intros this Inst HW Hbulk.
  assert (Hcall : opcode Inst = Call).
  { unfold isa_MemCpyInst, isa_MemMoveInst, isa_MemSetInst in Hbulk.
    destruct (dyn_cast_IntrinsicInst Inst) as [iid|] eqn:E; [|discriminate].
    now apply intrinsic_is_call in E. }
  assert (Hvisit : exists s1,
             visit W sz this s = Ok (sandboxLenOperand this 2 s1) /\
             getOperand (cur (fn s1)) 2 = getOperand Inst 2).
  { unfold visit. fold Inst. unfold isa_LoadInst, isa_StoreInst.
    rewrite Hcall.
    destruct (isa_MemCpyInst Inst || isa_MemMoveInst Inst) eqn:Hcpy.
    - eexists. split; [reflexivity|].
      now rewrite !sandbox_bulk_cur by lia.
    - cbn in Hbulk. rewrite Hbulk.
      eexists. split; [reflexivity|].
      now rewrite !sandbox_bulk_cur by lia. }
  destruct Hvisit as (s1 & Hvisit & HLen). exists s1.
  split; [exact Hvisit|]. cbn zeta. split; [exact HLen|].
  unfold sandboxLenOperand. subst this.
  rewrite initialize_PtrMask by assumption. split.
  - intros Hlt. destruct (Z.ltb_spec W 32); [|lia]. split; [reflexivity|].
    intros m.
    assert (Hval : Sem.eval
                     (Sem.exec m
                        (new_inst (fresh s1) (BinaryOperator And) I32
                           [getOperand (cur (fn s1)) 2;
                            ConstantInt 32 (2 ^ W - 1)]))
                     (InstRef (fresh s1)) =
                   Z.land (Sem.eval m (getOperand (cur (fn s1)) 2))
                          (2 ^ W - 1)).
    { erewrite exec_new by reflexivity.
      rewrite eval_set_reg_same. now rewrite eval_mask by lia. }
    cbn zeta. rewrite Hval. split; [reflexivity|].
    split; [apply land_mask_bound; lia|].
    intros -> ->. reflexivity.
  - intros Hge. destruct (Z.ltb_spec W 32); [lia | reflexivity].
Qed.

(** C9. With [W = 32] the module initializer produces no mask; a store is
    dispatched to the pointer sandboxer on its operand 1, no [and] is among
    the instructions built for it, and on the general path these are exactly
    [ptrtoint], [zext], [add mem_base], [inttoptr].  With [W < 32] the
    initializer produces the 32-bit constant [2^W - 1]. *)
Theorem no_mask_at_32 (W : Z) (sz : type -> Z) (M : module) (s : state) :
  let this := (initialize W M).1 in
  let s1 := (acquireMemBase this s).2 in
  let MemBaseV := (acquireMemBase this s).1 in
  let Ptr := getOperand (cur (fn s)) 1 in
  let PtrTy := getType (fn s1) Ptr in
  let n := fresh s1 in
  isa_StoreInst (cur (fn s)) = true ->
  (0 <= W < 32 -> PtrMask this = Some (ConstantInt 32 (2 ^ W - 1))) /\
  (W = 32 ->
     PtrMask this = None /\
     visit W sz this s = Ok (sandboxPtrOperand W sz this 1 true s) /\
     exists news r,
       rewritePtrOperand W sz this 1 true s = (rewritten s1 news 1, r) /\
       Forall (fun J => opcode J <> BinaryOperator And) news /\
       (recognize W sz (fn s1) true Ptr = None ->
        sandboxPtrOperand W sz this 1 true s = rewritten s1 news 1 /\
        news =
          [ new_inst n PtrToInt I32 [Ptr];
            new_inst (n + 1) ZExt I64 [InstRef n];
            new_inst (n + 2) (BinaryOperator Add) I64
                     [MemBaseV; InstRef (n + 1)];
            new_inst (n + 3) IntToPtr PtrTy [InstRef (n + 2)] ])).
Proof.
  intros this s1 MemBaseV Ptr PtrTy n Hstore. split.
  - intros HW. subst this. rewrite initialize_PtrMask by lia.
    destruct (Z.ltb_spec W 32); [reflexivity | lia].
  - intros ->.
    assert (Hmask : PtrMask this = None)
      by (subst this; now rewrite initialize_PtrMask).
    split; [exact Hmask|]. split.
    { unfold visit. rewrite Hstore. unfold isa_LoadInst.
      unfold isa_StoreInst in Hstore.
      now destruct (opcode (cur (fn s))). }
    destruct (recognize 32 sz (fn s1) true Ptr) as [p|] eqn:Hrec.
    + eexists _, _. split; [apply (rewrite_folded 32 sz this 1 true s p Hrec)|].
      rewrite Hmask. split; [|discriminate].
      unfold folded_seq. repeat constructor; discriminate.
    + eexists _, _. split; [apply (rewrite_general 32 sz this 1 true s Hrec)|].
      rewrite Hmask. split.
      * unfold general_seq. repeat constructor; discriminate.
      * intros _. split; [|reflexivity].
        unfold sandboxPtrOperand.
        now rewrite (rewrite_general 32 sz this 1 true s Hrec), Hmask.
Qed.

(** *** The folded-offset pattern *)

Lemma lookup_inst_id c id Inst :
  lookup_inst c id = Some Inst -> inst_id Inst = id.
Proof.
  unfold lookup_inst. intros H. apply find_some in H as [_ H].
  now apply Nat.eqb_eq in H.
Qed.

Lemma dyn_cast_IntToPtrInst_Some c v Cast :
  dyn_cast_IntToPtrInst c v = Some Cast <->
  v = InstRef (inst_id Cast) /\
  lookup_inst c (inst_id Cast) = Some Cast /\
  opcode Cast = IntToPtr.
Proof.
  unfold dyn_cast_IntToPtrInst, isa_IntToPtrInst. split.
  - destruct v; try discriminate.
    destruct (lookup_inst c id) as [J|] eqn:E; [|discriminate].
    pose proof (lookup_inst_id _ _ _ E) as <-.
    destruct (opcode J) eqn:Eop; try discriminate.
    intros [= <-]. auto.
  - intros (-> & -> & ->). reflexivity.
Qed.

Lemma dyn_cast_BinaryOperator_Some c v Op op :
  dyn_cast_BinaryOperator c v = Some (Op, op) <->
  v = InstRef (inst_id Op) /\
  lookup_inst c (inst_id Op) = Some Op /\
  opcode Op = BinaryOperator op.
Proof.
  unfold dyn_cast_BinaryOperator. split.
  - destruct v; try discriminate.
    destruct (lookup_inst c id) as [J|] eqn:E; [|discriminate].
    pose proof (lookup_inst_id _ _ _ E) as <-.
    destruct (opcode J) eqn:Eop; try discriminate.
    intros [= <- <-]. auto.
  - intros (-> & -> & ->). reflexivity.
Qed.

Lemma isIntegerTy_true t w : isIntegerTy t w = true <-> t = IntegerTy w.
Proof.
  destruct t; cbn; try (split; discriminate).
  rewrite Nat.eqb_eq. split; congruence.
Qed.


Lemma folded_shape_unique c Ptr X C Cast Op X' C' Cast' Op' :
  folded_shape c Ptr X C Cast Op -> folded_shape c Ptr X' C' Cast' Op' ->
  X = X' /\ C = C' /\ Cast = Cast' /\ Op = Op'.
Proof.
  intros (HP & HC & _ & HO & HA & _ & _ & HX & b & r & H1 & HCv)
         (HP' & HC' & _ & HO' & HA' & _ & _ & HX' & b' & r' & H1' & HCv').
  assert (Cast = Cast') as <- by congruence.
  assert (Op = Op') as <- by congruence.
  repeat split; congruence.
Qed.

Section Recognizer.

Variable W : Z.
Variable sz : type -> Z.

(** The pattern match, without the arithmetic of [MaxOffset]. *)
Lemma recognize_Some_iff c fca Ptr p :
  recognize W sz c fca Ptr = Some p <->
  fca = true /\
  folded_shape c Ptr (Truncated0 p) (Offset p) (RedundantCast p)
               (RedundantAdd p) /\
  0 <= Offset p /\
  Offset p <= MaxOffset W sz (getPointerElementType (getType c Ptr)).
Proof.
  unfold recognize. split.
  - destruct fca; [|discriminate].
    destruct (dyn_cast_IntToPtrInst c Ptr) as [Cast|] eqn:ECast;
      [|discriminate].
    apply dyn_cast_IntToPtrInst_Some in ECast as (HP & HC & HCop).
    destruct (dyn_cast_BinaryOperator c (getOperand Cast 0))
      as [[Op op]|] eqn:EOp; [|discriminate].
    apply dyn_cast_BinaryOperator_Some in EOp as (HO & HA & HAop).
    destruct op; try discriminate.
    destruct (isIntegerTy (inst_ty Op) 32) eqn:Ety; [|discriminate].
    apply isIntegerTy_true in Ety.
    destruct (getOperand Op 1) as [bits raw| | | | | |] eqn:E1;
      try discriminate.
    cbn [dyn_cast_ConstantInt].
    destruct (0 <=? getSExtValue bits raw) eqn:Hge; [|discriminate].
    destruct (getSExtValue bits raw <=? _) eqn:Hle; [|discriminate].
    intros [= <-]. cbn [Truncated0 Offset RedundantCast RedundantAdd].
    split; [reflexivity|]. split; [|lia].
    unfold folded_shape. repeat split; eauto.
  - intros (-> & (HP & HC & HCop & HO & HA & HAop & Hty & HX & b & r & H1 & HCv)
            & Hge & Hle).
    assert (ECast : dyn_cast_IntToPtrInst c Ptr = Some (RedundantCast p))
      by now apply dyn_cast_IntToPtrInst_Some.
    assert (EOp : dyn_cast_BinaryOperator c (getOperand (RedundantCast p) 0)
                  = Some (RedundantAdd p, Add))
      by now apply dyn_cast_BinaryOperator_Some.
    rewrite ECast, EOp, Hty, H1. cbn [isIntegerTy dyn_cast_ConstantInt].
    rewrite Nat.eqb_refl, <- HCv.
    destruct (Z.leb_spec 0 (Offset p)); [|lia].
    destruct (Z.leb_spec (Offset p)
                (MaxOffset W sz (getPointerElementType (getType c Ptr))));
      [|lia].
    cbn. rewrite HX. now destruct p.
Qed.

Lemma MaxOffset_exact T :
  0 <= W <= 32 -> 0 <= sz T < 2 ^ 63 ->
  MaxOffset W sz T = 2 ^ W - sz T.
Proof.
  intros HW Hsz. unfold MaxOffset, GetAddressSubspaceSize, to_int64, wrap.
  assert (0 < 2 ^ W) by (apply Z.pow_pos_nonneg; lia).
  assert (2 ^ W <= 2 ^ 32) by (apply Z.pow_le_mono_r; lia).
  destruct (Z_lt_le_dec (2 ^ W - sz T) 0) as [Hneg|Hpos].
  - replace ((2 ^ W - sz T) mod 2 ^ 64) with (2 ^ W - sz T + 2 ^ 64).
    + destruct (Z.ltb_spec (2 ^ W - sz T + 2 ^ 64) (2 ^ 63)); lia.
    + symmetry. rewrite <- (Z.mod_small (2 ^ W - sz T + 2 ^ 64) (2 ^ 64))
        by lia.
      replace (2 ^ W - sz T + 2 ^ 64) with (2 ^ W - sz T + 1 * 2 ^ 64) by lia.
      now rewrite Z.mod_add by lia.
  - rewrite Z.mod_small by lia.
    destruct (Z.ltb_spec (2 ^ W - sz T) (2 ^ 63)); lia.
Qed.

End Recognizer.

(** C3. The folded-offset optimization is taken exactly when the access is a
    first-class value access, the pointer operand is an integer-to-pointer
    cast of a 32-bit [add X, C] with [C] a compile-time constant, [C] is
    non-negative and [C] plus the store size of the accessed type is at most
    [2^W].  With a negative [C], or [C] plus the size above [2^W], the general
    path is used; the sandboxer has no failing outcome. *)
Theorem folded_offset_applies_iff (W : Z) (sz : type -> Z) (M : module)
    (OpNum : nat) (fca : bool) (s : state) :
  let this := (initialize W M).1 in
  let s1 := (acquireMemBase this s).2 in
  let MemBaseV := (acquireMemBase this s).1 in
  let Ptr := getOperand (cur (fn s)) OpNum in
  let PtrTy := getType (fn s1) Ptr in
  let T := getPointerElementType PtrTy in
  0 <= W <= 32 ->
  0 <= sz T < 2 ^ 63 ->
  (forall p,
     recognize W sz (fn s1) fca Ptr = Some p <->
     fca = true /\
     folded_shape (fn s1) Ptr (Truncated0 p) (Offset p) (RedundantCast p)
                  (RedundantAdd p) /\
     0 <= Offset p /\ Offset p + sz T <= 2 ^ W) /\
  (forall p,
     recognize W sz (fn s1) fca Ptr = Some p ->
     (rewritePtrOperand W sz this OpNum fca s).1 =
       rewritten s1 (folded_seq (PtrMask this) (fresh s1) (Truncated0 p)
                                (Offset p) PtrTy MemBaseV) OpNum) /\
  (forall X C Cast Op,
     folded_shape (fn s1) Ptr X C Cast Op ->
     C < 0 \/ 2 ^ W < C + sz T ->
     recognize W sz (fn s1) fca Ptr = None /\
     sandboxPtrOperand W sz this OpNum fca s =
       rewritten s1 (general_seq (PtrMask this) (fresh s1) Ptr PtrTy MemBaseV)
                 OpNum).
Proof.
  intros this s1 MemBaseV Ptr PtrTy T HW Hsz.
  assert (Hiff : forall p,
     recognize W sz (fn s1) fca Ptr = Some p <->
     fca = true /\
     folded_shape (fn s1) Ptr (Truncated0 p) (Offset p) (RedundantCast p)
                  (RedundantAdd p) /\
     0 <= Offset p /\ Offset p + sz T <= 2 ^ W).
  { intros p. rewrite recognize_Some_iff. fold PtrTy T.
    rewrite MaxOffset_exact by assumption.
    split; intros (H1 & H2 & H3 & H4);
      (split; [exact H1 | split; [exact H2 | split; [exact H3 | lia]]]). }
  split; [exact Hiff|]. split.
  - intros p Hrec. now rewrite (rewrite_folded W sz this OpNum fca s p Hrec).
  - intros X C Cast Op Hshape Hbad.
    assert (Hnone : recognize W sz (fn s1) fca Ptr = None).
    { destruct (recognize W sz (fn s1) fca Ptr) as [p|] eqn:Hrec;
        [|reflexivity].
      destruct (proj1 (Hiff p) eq_refl) as (_ & Hshape' & Hge & Hle).
      destruct (folded_shape_unique _ _ _ _ _ _ _ _ _ _ Hshape Hshape')
        as (_ & -> & _). lia. }
    split; [exact Hnone|]. unfold sandboxPtrOperand.
    now rewrite (rewrite_general W sz this OpNum fca s Hnone).
Qed.

(** C10. The pattern match is sensitive to operand position and type: for a
    first-class access through an integer-to-pointer cast of an add, the
    optimization is taken only when the add's second operand is a constant
    and the add has type [i32]; [add C, X] with the constant first and a
    non-constant [X] second, or an add of another integer width, takes the
    general path. *)
Theorem pattern_position_sensitive (W : Z) (sz : type -> Z)
    (this : SandboxMemoryAccesses) (OpNum : nat) (s : state)
    (Cast Op : instruction) :
  let s1 := (acquireMemBase this s).2 in
  let MemBaseV := (acquireMemBase this s).1 in
  let Ptr := getOperand (cur (fn s)) OpNum in
  let PtrTy := getType (fn s1) Ptr in
  let general :=
    rewritten s1 (general_seq (PtrMask this) (fresh s1) Ptr PtrTy MemBaseV)
              OpNum in
  Ptr = InstRef (inst_id Cast) ->
  lookup_inst (fn s1) (inst_id Cast) = Some Cast ->
  opcode Cast = IntToPtr ->
  getOperand Cast 0 = InstRef (inst_id Op) ->
  lookup_inst (fn s1) (inst_id Op) = Some Op ->
  opcode Op = BinaryOperator Add ->
  (forall p,
     recognize W sz (fn s1) true Ptr = Some p ->
     inst_ty Op = IntegerTy 32 /\
     exists bits raw,
       getOperand Op 1 = ConstantInt bits raw /\
       Offset p = getSExtValue bits raw /\
       Truncated0 p = getOperand Op 0) /\
  (forall bits raw,
     getOperand Op 0 = ConstantInt bits raw ->
     dyn_cast_ConstantInt (getOperand Op 1) = None ->
     sandboxPtrOperand W sz this OpNum true s = general) /\
  (forall bits,
     inst_ty Op = IntegerTy bits -> bits <> 32%nat ->
     sandboxPtrOperand W sz this OpNum true s = general).
Proof.
  intros s1 MemBaseV Ptr PtrTy general HP HC HCop HO HA HAop.
  assert (Hfields : forall p,
     recognize W sz (fn s1) true Ptr = Some p ->
     RedundantAdd p = Op /\
     inst_ty (RedundantAdd p) = IntegerTy 32 /\
     exists bits raw,
       getOperand (RedundantAdd p) 1 = ConstantInt bits raw /\
       Offset p = getSExtValue bits raw /\
       Truncated0 p = getOperand (RedundantAdd p) 0).
  { intros p Hrec. apply recognize_Some_iff in Hrec
      as (_ & (HP' & HC' & _ & HO' & HA' & _ & Hty & HX & b & r & H1 & HCv)
          & _).
    assert (RedundantCast p = Cast) as ECast by congruence.
    rewrite ECast in HO'.
    assert (RedundantAdd p = Op) as EOp by congruence.
    split; [exact EOp|]. split; [exact Hty|]. exists b, r. auto. }
  assert (Hgeneral : recognize W sz (fn s1) true Ptr = None ->
                     sandboxPtrOperand W sz this OpNum true s = general).
  { intros Hnone. unfold sandboxPtrOperand.
    now rewrite (rewrite_general W sz this OpNum true s Hnone). }
  split; [|split].
  - intros p Hrec. destruct (Hfields p Hrec) as (<- & Hty & Hops).
    split; [exact Hty | exact Hops].
  - intros bits raw _ Hsnd. apply Hgeneral.
    destruct (recognize W sz (fn s1) true Ptr) as [p|] eqn:Hrec;
      [|reflexivity].
    destruct (Hfields p eq_refl) as (<- & _ & b & r & H1 & _).
    rewrite H1 in Hsnd. discriminate.
  - intros bits Hty Hne. apply Hgeneral.
    destruct (recognize W sz (fn s1) true Ptr) as [p|] eqn:Hrec;
      [|reflexivity].
    destruct (Hfields p eq_refl) as (<- & Hty' & _). congruence.
Qed.

(** C4 (amended). When the folded-offset optimization applies only the
    pointer-to-integer cast is skipped: [X] is still masked with [2^W - 1]
    when [W < 32].  The address is [base + zext (X & mask) + C] in 64-bit
    arithmetic ([X] itself when [W = 32]), with [0 <= C] and
    [C + typesize <= 2^W]; the distance of the accessed bytes from the base
    stays below [2 * 2^W], so they lie in the region and guard region
    [base, base + 2 * 2^W) of the address space. *)
Theorem folded_path_address (W : Z) (sz : type -> Z) (M : module)
    (OpNum : nat) (fca : bool) (s : state) (p : folded) :
  let this := (initialize W M).1 in
  let s1 := (acquireMemBase this s).2 in
  let MemBaseV := (acquireMemBase this s).1 in
  let Ptr := getOperand (cur (fn s)) OpNum in
  let PtrTy := getType (fn s1) Ptr in
  let T := getPointerElementType PtrTy in
  let X := Truncated0 p in
  let C := Offset p in
  let news := folded_seq (PtrMask this) (fresh s1) X C PtrTy MemBaseV in
  0 <= W <= 32 ->
  0 <= sz T < 2 ^ 63 ->
  recognize W sz (fn s1) fca Ptr = Some p ->
  defined_below (fresh s) X ->
  match MemBase s with
  | Some v => defined_below (fresh s) v
  | None => True
  end ->
  (rewritePtrOperand W sz this OpNum fca s).1 = rewritten s1 news OpNum /\
  Forall (fun J => opcode J <> PtrToInt) news /\
  (W < 32 ->
   head news = Some (new_inst (fresh s1) (BinaryOperator And) I32
                              [X; ConstantInt 32 (2 ^ W - 1)])) /\
  0 <= C /\ C + sz T <= 2 ^ W /\
  forall m : Sem.machine,
    let base := Sem.eval m MemBaseV in
    let x := Sem.eval m X in
    let addr :=
      Sem.eval (Sem.run m news) (InstRef (last_id (fresh s1) news)) in
    addr = wrap (Sem.pointer_bits m)
                (wrap 64 (wrap 64 (base + sandbox_offset W x) + C)) /\
    (0 <= x < 2 ^ 32 ->
     wrap 64 (wrap 64 (wrap 64 (base + sandbox_offset W x) + C) - base) =
       sandbox_offset W x + C /\
     0 <= sandbox_offset W x + C /\
     sandbox_offset W x + C + sz T < 2 * 2 ^ W) /\
    (0 <= x < 2 ^ 32 -> 0 <= base ->
     base + 2 * 2 ^ W <= 2 ^ Sem.pointer_bits m ->
     Sem.pointer_bits m <= 64 ->
     addr = base + sandbox_offset W x + C /\
     base <= addr /\ addr + sz T < base + 2 * 2 ^ W).
Proof.
  intros this s1 MemBaseV Ptr PtrTy T X C news HW Hsz Hrec HX Hmb.
  pose proof (proj1 (recognize_Some_iff W sz _ _ _ _) Hrec)
    as (_ & _ & HC0 & HCmax).
  fold PtrTy T C in HCmax. rewrite MaxOffset_exact in HCmax by assumption.
  fold C in HC0.
  assert (HpowW : 0 < 2 ^ W <= 2 ^ 32).
  { split; [apply Z.pow_pos_nonneg; lia | apply Z.pow_le_mono_r; lia]. }
  split; [|split; [|split; [|split; [|split]]]]; try lia.
  - now rewrite (rewrite_folded W sz this OpNum fca s p Hrec).
  - subst news. unfold folded_seq.
    destruct (PtrMask this); repeat constructor; discriminate.
  - intros Hlt. subst news this. rewrite initialize_PtrMask by lia.
    destruct (Z.ltb_spec W 32); [reflexivity | lia].
  - intros m base x addr.
    assert (Haddr : addr = wrap (Sem.pointer_bits m)
                (wrap 64 (wrap 64 (base + sandbox_offset W x) + C))).
    { subst addr news. rewrite run_folded_seq.
      - subst this. rewrite masked_initialize by lia.
        now rewrite (wrap_small 64 C) by lia.
      - eapply defined_below_mono; [apply acquire_fresh_le | exact HX].
      - now apply acquire_defined_below.
      - apply PtrMask_defined_below; lia. }
    split; [exact Haddr|]. split.
    { intros Hx. pose proof (sandbox_offset_bound W x HW Hx) as Hoff.
      split; [apply wrap_distance_add; lia | lia]. }
    intros Hx Hbase Hfit Hbits.
    pose proof (sandbox_offset_bound W x HW Hx) as Hoff.
    assert (2 ^ Sem.pointer_bits m <= 2 ^ 64)
      by (apply Z.pow_le_mono_r; lia).
    rewrite Haddr, (wrap_small 64 (base + sandbox_offset W x)) by lia.
    rewrite (wrap_small 64), wrap_small by lia. lia.
Qed.

(** *** Validation of the other instructions *)

Lemma fold_orb_existsb {A} (f : A -> bool) (l : list A) (b : bool) :
  fold_left (fun acc v => acc || f v) l b = b || existsb f l.
Proof.
  revert b. induction l as [|a l IH]; intros b; cbn.
  - now rewrite orb_false_r.
  - now rewrite IH, orb_assoc.
Qed.

Lemma hasPointerOperand_spec c Inst :
  hasPointerOperand c Inst = true <-> has_pointer_typed_operand c Inst.
Proof.
  unfold hasPointerOperand, has_pointer_typed_operand, checked_operands.
  rewrite fold_orb_existsb. cbn [orb]. apply existsb_exists.
Qed.

Lemma visit_unhandled W sz this s :
  handled_kind (cur (fn s)) = false ->
  visit W sz this s = checkDoesNotHavePointerOperands s.
Proof.
  unfold handled_kind, visit, sandboxed_atomic.
  intros H. repeat (apply orb_false_elim in H as [H ?]).
  repeat match goal with E : _ = false |- _ => rewrite E; clear E end.
  cbn [orb negb andb].
  destruct (dyn_cast_IntrinsicInst (cur (fn s))) as [[]|];
    reflexivity || discriminate.
Qed.

Lemma check_fatal_iff s :
  checkDoesNotHavePointerOperands s = FatalError fatal_message <->
  has_pointer_typed_operand (fn s) (cur (fn s)).
Proof.
  unfold checkDoesNotHavePointerOperands.
  rewrite <- hasPointerOperand_spec.
  destruct (hasPointerOperand (fn s) (cur (fn s))); split;
    congruence || discriminate.
Qed.

Lemma check_ok s :
  ~ has_pointer_typed_operand (fn s) (cur (fn s)) ->
  checkDoesNotHavePointerOperands s = Ok s.
Proof.
  unfold checkDoesNotHavePointerOperands.
  rewrite <- hasPointerOperand_spec.
  now destruct (hasPointerOperand (fn s) (cur (fn s))).
Qed.

Lemma check_outcome s :
  checkDoesNotHavePointerOperands s = Ok s \/
  checkDoesNotHavePointerOperands s = FatalError fatal_message.
Proof.
  unfold checkDoesNotHavePointerOperands.
  destruct (hasPointerOperand (fn s) (cur (fn s))); auto.
Qed.

(** C1. An instruction of a kind the driver does not handle by itself makes
    the pass stop with the fatal error exactly when one of its checked
    operands (the arguments of a call, all operands otherwise) has pointer
    type; the error ends the instruction loop.  Without such an operand the
    instruction, and the whole state, is left as it was. *)
Theorem unhandled_instruction_checked (W : Z) (sz : type -> Z)
    (this : SandboxMemoryAccesses) (s : state) :
  handled_kind (cur (fn s)) = false ->
  ((exists msg, visit W sz this s = FatalError msg) <->
   has_pointer_typed_operand (fn s) (cur (fn s))) /\
  (forall msg fuel,
     visit W sz this s = FatalError msg ->
     iterate W sz this (S fuel) s = FatalError msg) /\
  (~ has_pointer_typed_operand (fn s) (cur (fn s)) ->
   visit W sz this s = Ok s).
Proof.
  intros Hkind. rewrite (visit_unhandled W sz this s Hkind).
  split; [|split].
  - split.
    + intros [msg Hmsg]. apply check_fatal_iff.
      destruct (check_outcome s) as [E|E]; congruence.
    + intros Hptr. exists fatal_message. now apply check_fatal_iff.
  - intros msg fuel Hmsg. cbn [iterate].
    rewrite (visit_unhandled W sz this s Hkind), Hmsg. reflexivity.
  - apply check_ok.
Qed.

(** C5 (amended). A call that is not one of the sandboxed intrinsics and
    passes a pointer-typed argument stops the pass with the fatal error; only
    its callee operand is exempt, so without pointer-typed arguments it is
    left as it was.  A pointer-typed operand of another instruction of an
    unhandled kind stops the pass too.  The message is the same fixed text in
    both cases. *)
Theorem call_arguments_checked (W : Z) (sz : type -> Z)
    (this : SandboxMemoryAccesses) (s : state) :
  let Inst := cur (fn s) in
  let pointer_typed v := isPointerTy (getType (fn s) v) = true in
  handled_kind Inst = false ->
  (isa_CallInst Inst = true ->
   ((exists v, In v (arg_operands Inst) /\ pointer_typed v) ->
    visit W sz this s = FatalError fatal_message) /\
   ((forall v, In v (arg_operands Inst) -> ~ pointer_typed v) ->
    visit W sz this s = Ok s)) /\
  (isa_CallInst Inst = false ->
   (exists v, In v (operands Inst) /\ pointer_typed v) ->
   visit W sz this s = FatalError fatal_message).
Proof.
  intros Inst pointer_typed Hkind.
  rewrite (visit_unhandled W sz this s Hkind). split.
  - intros Hcall. split.
    + intros Hptr. apply check_fatal_iff.
      unfold has_pointer_typed_operand, checked_operands.
      fold Inst. now rewrite Hcall.
    + intros Hnone. apply check_ok.
      unfold has_pointer_typed_operand, checked_operands.
      fold Inst. rewrite Hcall. intros (v & Hin & Hv).
      exact (Hnone v Hin Hv).
  - intros Hcall Hptr. apply check_fatal_iff.
    unfold has_pointer_typed_operand, checked_operands.
    fold Inst. now rewrite Hcall.
Qed.

(** *** Cleanup after the folded path *)

Lemma all_insts_Cursor B P c Po A :
  all_insts (Cursor B P c Po A) = concat B ++ P ++ c :: Po ++ concat A.
Proof.
  unfold all_insts, to_function. cbn.
  rewrite concat_app. cbn. now rewrite <- !app_assoc.
Qed.

Lemma all_insts_eq c :
  all_insts c =
    concat (before c) ++ pre c ++ cur c :: post c ++ concat (after c).
Proof. destruct c. apply all_insts_Cursor. Qed.

Lemma ids_below_app n l1 l2 :
  ids_below n (l1 ++ l2) <-> ids_below n l1 /\ ids_below n l2.
Proof. apply Forall_app. Qed.

Lemma ids_below_cons n J l :
  ids_below n (J :: l) <-> (inst_id J < n)%nat /\ ids_below n l.
Proof. unfold ids_below. now rewrite Forall_cons. Qed.

Lemma ids_below_mono n n' l :
  (n <= n')%nat -> ids_below n l -> ids_below n' l.
Proof.
  intros Hle H. eapply Forall_impl; [exact H|]. cbn. intros J HJ. lia.
Qed.

Lemma ids_below_concat n (B : list (list instruction)) :
  ids_below n (concat B) <-> Forall (ids_below n) B.
Proof.
  induction B as [|b B IH]; cbn.
  - split; constructor.
  - rewrite ids_below_app, Forall_cons, IH. tauto.
Qed.

Lemma ids_below_cursor n c :
  ids_below n (all_insts c) <->
  Forall (ids_below n) (before c) /\ ids_below n (pre c) /\
  (inst_id (cur c) < n)%nat /\ ids_below n (post c) /\
  Forall (ids_below n) (after c).
Proof.
  rewrite all_insts_eq, !ids_below_app, ids_below_cons, ids_below_app,
    !ids_below_concat. tauto.
Qed.

Lemma acquire_ids_below this s :
  ids_below (fresh s) (all_insts (fn s)) ->
  ids_below (fresh (acquireMemBase this s).2)
            (all_insts (fn (acquireMemBase this s).2)).
Proof.
  unfold acquireMemBase. destruct (MemBase s); [tauto|]. cbn [snd fn fresh].
  intros H. apply (ids_below_mono _ (S (fresh s))) in H; [|lia].
  revert H. rewrite !ids_below_cursor. unfold push_front_entry.
  destruct (before (fn s)) as [|b bs]; cbn [before pre cur post after].
  - rewrite ids_below_cons. intuition (cbn; lia).
  - rewrite !Forall_cons, ids_below_cons. intuition (cbn; lia).
Qed.

Lemma map_set_dbg_below n k d l :
  ids_below n l -> (n <= k)%nat -> map (set_dbg k d) l = l.
Proof.
  intros Hl Hk. induction Hl as [|J l HJ _ IH]; cbn; [reflexivity|].
  rewrite IH. f_equal. unfold set_dbg, has_id.
  destruct (Nat.eqb_spec (inst_id J) k); [lia | reflexivity].
Qed.

Lemma map_map_set_dbg_below n k d (B : list (list instruction)) :
  Forall (ids_below n) B -> (n <= k)%nat -> map (map (set_dbg k d)) B = B.
Proof.
  intros HB Hk. induction HB as [|b B Hb _ IH]; cbn; [reflexivity|].
  now rewrite IH, (map_set_dbg_below n).
Qed.


Lemma erase_in_app k l1 l2 :
  erase_in k (l1 ++ l2) = erase_in k l1 ++ erase_in k l2.
Proof. apply List.filter_app. Qed.

Lemma find_app_l {A} (P : A -> bool) l1 l2 x :
  find P l1 = Some x -> find P (l1 ++ l2) = Some x.
Proof.
  induction l1 as [|a l1 IH]; cbn; [discriminate|].
  destruct (P a); auto.
Qed.

Lemma find_app_r {A} (P : A -> bool) l1 l2 :
  find P l1 = None -> find P (l1 ++ l2) = find P l2.
Proof.
  induction l1 as [|a l1 IH]; cbn; [reflexivity|].
  destruct (P a); [discriminate | auto].
Qed.

(** Looking up an old instruction other than the one under the iterator is
    not affected by the new instructions nor by the change of an operand. *)
Lemma lookup_rewritten B P c c' N Po A id J :
  lookup_inst (Cursor B P c Po A) id = Some J ->
  opcode J <> opcode c ->
  inst_id c' = inst_id c ->
  Forall (fun K => has_id id K = false) N ->
  lookup_inst (Cursor B (P ++ N) c' Po A) id = Some J.
Proof.
  unfold lookup_inst. rewrite !all_insts_Cursor.
  intros Hfind Hop Hid HN.
  destruct (find (has_id id) (concat B)) as [x|] eqn:EB.
  { rewrite (find_app_l _ _ _ _ EB) in Hfind.
    rewrite (find_app_l _ _ _ _ EB). exact Hfind. }
  rewrite (find_app_r _ _ _ EB) in Hfind. rewrite (find_app_r _ _ _ EB).
  destruct (find (has_id id) P) as [x|] eqn:EP.
  { rewrite (find_app_l _ _ _ _ EP) in Hfind.
    rewrite <- app_assoc, (find_app_l _ _ _ _ EP). exact Hfind. }
  rewrite (find_app_r _ _ _ EP) in Hfind.
  rewrite <- app_assoc, (find_app_r _ _ _ EP).
  assert (EN : find (has_id id) N = None).
  { clear -HN. induction HN as [|K N HK _ IH]; cbn; [reflexivity|].
    now rewrite HK. }
  rewrite (find_app_r _ _ _ EN).
  cbn [find] in Hfind |- *. unfold has_id in Hfind |- * at 1.
  rewrite Hid. destruct (Nat.eqb_spec (inst_id c) id).
  - injection Hfind as <-. congruence.
  - exact Hfind.
Qed.

Lemma CopyDebug_rewritten B P c c' N Po A n k o Orig :
  ids_below n (all_insts (Cursor B P c Po A)) ->
  Forall (fun K => (n <= inst_id K)%nat) N ->
  (n <= k)%nat ->
  lookup_inst (Cursor B P c Po A) o = Some Orig ->
  opcode Orig <> opcode c ->
  inst_id c' = inst_id c ->
  CopyDebug (InstRef k) (InstRef o) (Cursor B (P ++ N) c' Po A) =
    Cursor B (P ++ map (set_dbg k (dbg Orig)) N) c' Po A.
Proof.
  intros Hids HN Hk Hlook Hop Hid.
  assert (Ho : (o < n)%nat).
  { pose proof (lookup_inst_id _ _ _ Hlook) as <-.
    unfold lookup_inst in Hlook. apply find_some in Hlook as [Hin _].
    unfold ids_below in Hids. rewrite Forall_forall in Hids.
    apply Hids. now apply list_elem_of_In. }
  unfold CopyDebug.
  rewrite (lookup_rewritten B P c c' N Po A o Orig Hlook Hop Hid).
  2:{ eapply Forall_impl; [exact HN|]. cbn. intros K HK. unfold has_id.
      apply Nat.eqb_neq. lia. }
  apply ids_below_cursor in Hids as (HB & HP & Hc & HPo & HA).
  cbn [before pre cur post after] in *.
  unfold map_insts. cbn [before pre cur post after].
  fold (set_dbg k (dbg Orig)).
  rewrite map_app, (map_set_dbg_below n k _ P), (map_set_dbg_below n k _ Po),
    !(map_map_set_dbg_below n) by assumption.
  f_equal. unfold set_dbg, has_id. rewrite Hid.
  destruct (Nat.eqb_spec (inst_id c) k); [lia | reflexivity].
Qed.

Lemma folded_seq_split Mask n X C PtrTy mb :
  let last := last_id n (folded_seq Mask n X C PtrTy mb) in
  folded_seq Mask n X C PtrTy mb =
    folded_front Mask n X mb ++
    [new_AddOffset last C; new_SandboxedPtr last PtrTy] /\
  (n + 2 <= last)%nat /\
  Forall (fun K => (n <= inst_id K)%nat) (folded_seq Mask n X C PtrTy mb) /\
  ids_below (last - 1) (folded_front Mask n X mb).
Proof.
  unfold folded_seq, folded_front, last_id, new_AddOffset, new_SandboxedPtr,
    new_inst, ids_below.
  destruct Mask; cbn [length app]; (split; [|split; [lia | split]]).
  all: try (repeat constructor; cbn; lia).
  all: repeat (f_equal; try lia).
Qed.

Lemma set_dbg_tail last C PtrTy front dA dC :
  (2 <= last)%nat ->
  ids_below (last - 1) front ->
  map (set_dbg last dC)
      (map (set_dbg (last - 1) dA)
           (front ++ [new_AddOffset last C; new_SandboxedPtr last PtrTy])) =
    front ++ [setDebugLoc dA (new_AddOffset last C);
              setDebugLoc dC (new_SandboxedPtr last PtrTy)].
Proof.
  intros Hlast Hfront. rewrite !map_app.
  rewrite (map_set_dbg_below (last - 1) (last - 1)) by (assumption || lia).
  rewrite (map_set_dbg_below (last - 1) last) by (assumption || lia).
  f_equal. unfold set_dbg, has_id, new_AddOffset, new_SandboxedPtr, new_inst,
    setDebugLoc.
  cbn [map inst_id opcode inst_ty operands dbg inst_name].
  rewrite !Nat.eqb_refl.
  destruct (Nat.eqb_spec last (last - 1)); [lia|].
  cbn [inst_id opcode inst_ty operands dbg inst_name].
  destruct (Nat.eqb_spec (last - 1) last); [lia|].
  now rewrite !Nat.eqb_refl.
Qed.

(** *** Erasing dead instructions *)

Lemma concat_map_erase k (B : list (list instruction)) :
  concat (map (erase_in k) B) = erase_in k (concat B).
Proof.
  induction B as [|b B IH]; cbn [map concat]; [reflexivity|].
  now rewrite IH, erase_in_app.
Qed.

Lemma In_erase_in k J l :
  In J (erase_in k l) <-> In J l /\ inst_id J <> k.
Proof.
  unfold erase_in. rewrite List.filter_In. unfold has_id.
  rewrite negb_true_iff, Nat.eqb_neq. reflexivity.
Qed.

Lemma In_all_insts_erase k J c :
  In J (all_insts (eraseFromParent k c)) <->
  In J (all_insts c) /\ (inst_id J <> k \/ J = cur c).
Proof.
  rewrite !all_insts_eq. unfold eraseFromParent.
  cbn [before pre cur post after].
  rewrite !concat_map_erase.
  repeat (rewrite !in_app_iff || rewrite !In_erase_in || cbn [In]).
  intuition congruence.
Qed.

Lemma use_empty_false c id J :
  In J (all_insts c) -> uses id J = true -> use_empty c id = false.
Proof.
  intros Hin Huse. unfold use_empty. apply negb_false_iff.
  apply existsb_exists. eauto.
Qed.

Lemma uses_operand id J n :
  getOperand J n = InstRef id -> uses id J = true.
Proof.
  unfold getOperand, uses. intros H. apply existsb_exists.
  exists (InstRef id). split; [|apply Nat.eqb_refl].
  destruct (operands J !! n) as [v|] eqn:E; cbn in H; [|discriminate].
  subst v. apply list_elem_of_In. eapply list_elem_of_lookup_2. exact E.
Qed.

(** The two conditional erasures of lines 219-222 on a function [c] in which
    the cast [Cast] has the add [Op] as operand. *)
Lemma erase_cast_then_add c Cast Op :
  In Cast (all_insts c) -> In Op (all_insts c) ->
  getOperand Cast 0 = InstRef (inst_id Op) ->
  inst_id Cast <> inst_id Op ->
  Cast <> cur c -> Op <> cur c ->
  let c3 :=
    if use_empty c (inst_id Cast) then eraseFromParent (inst_id Cast) c
    else c in
  let c4 :=
    if use_empty c3 (inst_id Op) then eraseFromParent (inst_id Op) c3
    else c3 in
  (use_empty c (inst_id Cast) = false -> c4 = c) /\
  (use_empty c (inst_id Cast) = true ->
   ~ In Cast (all_insts c4) /\
   (In Op (all_insts c4) <->
    use_empty (eraseFromParent (inst_id Cast) c) (inst_id Op) = false)).
Proof.
  intros HCast HOp Huse Hne HCcur HOcur c3 c4. split.
  - intros Hused. subst c4 c3. rewrite Hused.
    rewrite (use_empty_false c (inst_id Op) Cast HCast); [reflexivity|].
    eapply uses_operand. exact Huse.
  - intros Hdead. subst c4 c3. rewrite Hdead.
    assert (HnoCast :
      ~ In Cast (all_insts (eraseFromParent (inst_id Cast) c))).
    { rewrite In_all_insts_erase. intros [_ [H|H]]; congruence. }
    destruct (use_empty (eraseFromParent (inst_id Cast) c) (inst_id Op))
      eqn:HdeadOp.
    + split.
      * rewrite In_all_insts_erase. tauto.
      * rewrite In_all_insts_erase. cbn [cur eraseFromParent].
        split; [|discriminate]. intros [_ [H|H]]; congruence.
    + split; [exact HnoCast|]. split; [reflexivity|]. intros _.
      rewrite In_all_insts_erase. split; [exact HOp|]. left. congruence.
Qed.

Lemma inst_id_set_dbg k d K : inst_id (set_dbg k d K) = inst_id K.
Proof. unfold set_dbg. now destruct (has_id k K). Qed.

Lemma Forall_ids_set_dbg n k d N :
  Forall (fun K => (n <= inst_id K)%nat) N ->
  Forall (fun K => (n <= inst_id K)%nat) (map (set_dbg k d) N).
Proof.
  intros H. apply Forall_map. eapply Forall_impl; [exact H|].
  cbn. intros K HK. now rewrite inst_id_set_dbg.
Qed.

Lemma erase_in_above n k l :
  Forall (fun K => (n <= inst_id K)%nat) l -> (k < n)%nat ->
  erase_in k l = l.
Proof.
  intros Hl Hk. unfold erase_in.
  induction Hl as [|J l HJ _ IH]; cbn; [reflexivity|].
  unfold has_id at 1. destruct (Nat.eqb_spec (inst_id J) k); [lia|].
  cbn. now rewrite IH.
Qed.

Lemma In_all_insts_rewritten B P c c' N Po A J :
  In J (all_insts (Cursor B P c Po A)) -> J <> c ->
  In J (all_insts (Cursor B (P ++ N) c' Po A)).
Proof.
  rewrite !all_insts_Cursor.
  repeat (rewrite !in_app_iff || cbn [In]). intuition congruence.
Qed.

Lemma lookup_inst_In c id J : lookup_inst c id = Some J -> In J (all_insts c).
Proof. unfold lookup_inst. intros H. now apply find_some in H. Qed.

Lemma removeRedundant_copies c1 front last C PtrTy OpNum n p :
  ids_below n (all_insts c1) ->
  (n + 2 <= last)%nat ->
  Forall (fun K => (n <= inst_id K)%nat)
         (front ++ [new_AddOffset last C; new_SandboxedPtr last PtrTy]) ->
  ids_below (last - 1) front ->
  lookup_inst c1 (inst_id (RedundantAdd p)) = Some (RedundantAdd p) ->
  lookup_inst c1 (inst_id (RedundantCast p)) = Some (RedundantCast p) ->
  opcode (RedundantAdd p) <> opcode (cur c1) ->
  opcode (RedundantCast p) <> opcode (cur c1) ->
  let c2 :=
    Cursor (before c1)
           (pre c1 ++ front ++
              [new_AddOffset last C; new_SandboxedPtr last PtrTy])
           (setOperand (cur c1) OpNum (InstRef last)) (post c1) (after c1) in
  let c :=
    replaced_cursor c1 front
      (setDebugLoc (dbg (RedundantAdd p)) (new_AddOffset last C))
      (setDebugLoc (dbg (RedundantCast p)) (new_SandboxedPtr last PtrTy))
      OpNum in
  removeRedundant (InstRef (last - 1)) (InstRef last) p c2 =
    let c3 :=
      if use_empty c (inst_id (RedundantCast p))
      then eraseFromParent (inst_id (RedundantCast p)) c else c in
    if use_empty c3 (inst_id (RedundantAdd p))
    then eraseFromParent (inst_id (RedundantAdd p)) c3 else c3.
Proof.
  intros Hids Hlast HN Hfront HlA HlC HopA HopC c2 c.
  destruct c1 as [B P cu Po A]. cbn [before pre cur post after] in *.
  unfold removeRedundant. subst c2.
  set (cu' := setOperand cu OpNum (InstRef last)).
  rewrite (CopyDebug_rewritten B P cu cu' _ Po A n (last - 1) _ _
             Hids HN ltac:(lia) HlA HopA eq_refl).
  rewrite (CopyDebug_rewritten B P cu cu' _ Po A n last _ _
             Hids (Forall_ids_set_dbg _ _ _ _ HN) ltac:(lia) HlC HopC eq_refl).
  rewrite set_dbg_tail by (assumption || lia).
  reflexivity.
Qed.

Lemma sandbox_folded W sz this OpNum s p :
  let s1 := (acquireMemBase this s).2 in
  let MemBaseV := (acquireMemBase this s).1 in
  let Ptr := getOperand (cur (fn s)) OpNum in
  let PtrTy := getType (fn s1) Ptr in
  let news := folded_seq (PtrMask this) (fresh s1) (Truncated0 p) (Offset p)
                         PtrTy MemBaseV in
  let last := last_id (fresh s1) news in
  let c :=
    replaced_cursor (fn s1)
      (folded_front (PtrMask this) (fresh s1) (Truncated0 p) MemBaseV)
      (setDebugLoc (dbg (RedundantAdd p)) (new_AddOffset last (Offset p)))
      (setDebugLoc (dbg (RedundantCast p)) (new_SandboxedPtr last PtrTy))
      OpNum in
  ids_below (fresh s) (all_insts (fn s)) ->
  first_class_access (cur (fn s)) ->
  recognize W sz (fn s1) true Ptr = Some p ->
  sandboxPtrOperand W sz this OpNum true s =
    State (let c3 :=
             if use_empty c (inst_id (RedundantCast p))
             then eraseFromParent (inst_id (RedundantCast p)) c else c in
           if use_empty c3 (inst_id (RedundantAdd p))
           then eraseFromParent (inst_id (RedundantAdd p)) c3 else c3)
          (MemBase s1) (fresh s1 + length news).
Proof.
  intros s1 MemBaseV Ptr PtrTy news last c Hids Hacc Hrec.
  pose proof (proj1 (recognize_Some_iff W sz _ _ _ _) Hrec)
    as (_ & (HP & HC & HCop & HO & HA & HAop & _) & _).
  unfold sandboxPtrOperand.
  rewrite (rewrite_folded W sz this OpNum true s p Hrec).
  fold s1 MemBaseV Ptr PtrTy news last.
  cbn [rewritten fn MemBase fresh].
  destruct (folded_seq_split (PtrMask this) (fresh s1) (Truncated0 p)
              (Offset p) PtrTy MemBaseV) as (Hsplit & Hlast & HN & Hfront).
  fold news last in Hsplit, Hlast, HN, Hfront.
  assert (Hcur : cur (fn s1) = cur (fn s)) by apply acquire_cur.
  f_equal. rewrite Hsplit at 1.
  apply (removeRedundant_copies (fn s1) _ last (Offset p) PtrTy OpNum
           (fresh s1) p); try assumption.
  - now apply acquire_ids_below.
  - now rewrite <- Hsplit.
  - rewrite Hcur, HAop. destruct Hacc as [-> | [-> | ->]]; discriminate.
  - rewrite Hcur, HCop. destruct Hacc as [-> | [-> | ->]]; discriminate.
Qed.

(** C8. On the folded path the debug locations of the original add and cast
    are copied onto their replacements, which stay right before the rewritten
    instruction.  Then the cast is erased only if nothing uses it any more,
    and while it stays the add stays too (the cast uses it); once the cast is
    erased the add is erased exactly when nothing else uses it. *)
Theorem folded_cleanup_order (W : Z) (sz : type -> Z)
    (this : SandboxMemoryAccesses) (OpNum : nat) (s : state) (p : folded) :
  let s1 := (acquireMemBase this s).2 in
  let MemBaseV := (acquireMemBase this s).1 in
  let Ptr := getOperand (cur (fn s)) OpNum in
  let PtrTy := getType (fn s1) Ptr in
  let news := folded_seq (PtrMask this) (fresh s1) (Truncated0 p) (Offset p)
                         PtrTy MemBaseV in
  let last := last_id (fresh s1) news in
  let Cast := RedundantCast p in
  let Op := RedundantAdd p in
  let front := folded_front (PtrMask this) (fresh s1) (Truncated0 p) MemBaseV in
  let AddOffset := setDebugLoc (dbg Op) (new_AddOffset last (Offset p)) in
  let SandboxedPtr := setDebugLoc (dbg Cast) (new_SandboxedPtr last PtrTy) in
  let copied := replaced_cursor (fn s1) front AddOffset SandboxedPtr OpNum in
  let s' := sandboxPtrOperand W sz this OpNum true s in
  ids_below (fresh s) (all_insts (fn s)) ->
  first_class_access (cur (fn s)) ->
  recognize W sz (fn s1) true Ptr = Some p ->
  (exists pre0, pre (fn s') = pre0 ++ front ++ [AddOffset; SandboxedPtr]) /\
  cur (fn s') = setOperand (cur (fn s)) OpNum (InstRef last) /\
  (use_empty copied (inst_id Cast) = false -> fn s' = copied) /\
  (use_empty copied (inst_id Cast) = true ->
   ~ In Cast (all_insts (fn s')) /\
   (In Op (all_insts (fn s')) <->
    use_empty (eraseFromParent (inst_id Cast) copied) (inst_id Op) = false)).
Proof.
  intros s1 MemBaseV Ptr PtrTy news last Cast Op front AddOffset SandboxedPtr
    copied s' Hids Hacc Hrec.
  pose proof (sandbox_folded W sz this OpNum s p Hids Hacc Hrec) as Hs'.
  fold s1 MemBaseV Ptr PtrTy news last front Cast Op AddOffset SandboxedPtr
    copied s' in Hs'.
  pose proof (proj1 (recognize_Some_iff W sz _ _ _ _) Hrec)
    as (_ & (HP & HC & HCop & HO & HA & HAop & _) & _).
  fold Cast Op in HP, HC, HCop, HO, HA, HAop.
  assert (Hcur : cur (fn s1) = cur (fn s)) by apply acquire_cur.
  assert (Hids1 : ids_below (fresh s1) (all_insts (fn s1)))
    by now apply acquire_ids_below.
  assert (HCne : Cast <> cur (fn s1)).
  { intros E. rewrite E, Hcur in HCop.
    destruct Hacc as [H | [H | H]]; congruence. }
  assert (HOne : Op <> cur (fn s1)).
  { intros E. rewrite E, Hcur in HAop.
    destruct Hacc as [H | [H | H]]; congruence. }
  assert (Hidne : inst_id Cast <> inst_id Op).
  { intros E. rewrite E in HC. congruence. }
  assert (HinC : In Cast (all_insts copied)).
  { subst copied. unfold replaced_cursor. destruct (fn s1).
    eapply In_all_insts_rewritten; [|exact HCne].
    now apply lookup_inst_In in HC. }
  assert (HinO : In Op (all_insts copied)).
  { subst copied. unfold replaced_cursor. destruct (fn s1).
    eapply In_all_insts_rewritten; [|exact HOne].
    now apply lookup_inst_In in HA. }
  assert (HCcur : Cast <> cur copied).
  { intros E. rewrite E in HCop. cbn in HCop. rewrite Hcur in HCop.
    destruct Hacc as [H | [H | H]]; congruence. }
  assert (HOcur : Op <> cur copied).
  { intros E. rewrite E in HAop. cbn in HAop. rewrite Hcur in HAop.
    destruct Hacc as [H | [H | H]]; congruence. }
  destruct (erase_cast_then_add copied Cast Op HinC HinO HO Hidne HCcur HOcur)
    as (Hused & Hdead).
  assert (Hfn : fn s' =
    (let c3 := if use_empty copied (inst_id Cast)
               then eraseFromParent (inst_id Cast) copied else copied in
     if use_empty c3 (inst_id Op)
     then eraseFromParent (inst_id Op) c3 else c3)) by now rewrite Hs'.
  assert (HCid : (inst_id Cast < fresh s1)%nat).
  { apply lookup_inst_In in HC. unfold ids_below in Hids1.
    rewrite Forall_forall in Hids1. apply Hids1. now apply list_elem_of_In. }
  assert (HOid : (inst_id Op < fresh s1)%nat).
  { apply lookup_inst_In in HA. unfold ids_below in Hids1.
    rewrite Forall_forall in Hids1. apply Hids1. now apply list_elem_of_In. }
  assert (Hnews : Forall (fun K => (fresh s1 <= inst_id K)%nat)
                         (front ++ [AddOffset; SandboxedPtr])).
  { destruct (folded_seq_split (PtrMask this) (fresh s1) (Truncated0 p)
                (Offset p) PtrTy MemBaseV) as (Hsplit & _ & HN & _).
    fold news last front in Hsplit, HN. rewrite Hsplit in HN.
    apply Forall_app in HN as [HN1 HN2]. apply Forall_app. split; [exact HN1|].
    inversion HN2 as [|? ? H1 HN3]; subst.
    inversion HN3 as [|? ? H2 _]; subst.
    repeat constructor; assumption. }
  assert (Hshape : forall c k,
            (k < fresh s1)%nat ->
            (exists pre0, pre c = pre0 ++ front ++ [AddOffset; SandboxedPtr]) ->
            exists pre0,
              pre (eraseFromParent k c) =
                pre0 ++ front ++ [AddOffset; SandboxedPtr]).
  { intros c k Hk [pre0 Hc]. exists (erase_in k pre0).
    cbn [pre eraseFromParent]. rewrite Hc, erase_in_app.
    now rewrite (erase_in_above (fresh s1) k (front ++ _)). }
  split; [|split; [|split]].
  - rewrite Hfn. cbn zeta.
    assert (H0 : exists pre0,
               pre copied = pre0 ++ front ++ [AddOffset; SandboxedPtr])
      by (exists (pre (fn s1)); reflexivity).
    destruct (use_empty copied (inst_id Cast));
      [destruct (use_empty (eraseFromParent _ copied) _)
      |destruct (use_empty copied (inst_id Op))]; auto.
  - rewrite Hfn. cbn zeta.
    destruct (use_empty copied (inst_id Cast));
      [destruct (use_empty (eraseFromParent _ copied) _)
      |destruct (use_empty copied (inst_id Op))];
      cbn [cur eraseFromParent copied replaced_cursor];
      now rewrite Hcur.
  - intros Hu. rewrite Hfn. now apply Hused.
  - intros Hd. rewrite Hfn. now apply Hdead.
Qed.

(** *** The memory base of a function *)

Lemma enter_Some done todo c :
  enter done todo = Some c ->
  to_function c = done ++ todo /\ cur c :: remaining c = concat todo.
Proof.
  revert done. induction todo as [|b todo IH]; intros done; cbn.
  - discriminate.
  - destruct b as [|J rest].
    + intros H. apply IH in H as [H1 H2]. split; [|exact H2].
      now rewrite H1, <- app_assoc.
    + intros [= <-]. split; reflexivity.
Qed.

Lemma enter_None done todo : enter done todo = None -> concat todo = [].
Proof.
  revert done. induction todo as [|b todo IH]; intros done; cbn.
  - reflexivity.
  - destruct b; [apply IH | discriminate].
Qed.

Lemma advance_Some c c' :
  advance c = Some c' ->
  to_function c' = to_function c /\ cur c' :: remaining c' = remaining c.
Proof.
  unfold advance. destruct (post c) as [|J rest] eqn:Epost.
  - intros H. apply enter_Some in H as [H1 H2]. split.
    + rewrite H1. unfold to_function. rewrite Epost.
      now rewrite <- app_assoc.
    + rewrite H2. unfold remaining. now rewrite Epost.
  - intros [= <-]. split.
    + unfold to_function. cbn. rewrite Epost. now rewrite <- app_assoc.
    + unfold remaining. cbn. now rewrite Epost.
Qed.

Lemma advance_None c : advance c = None -> remaining c = [].
Proof.
  unfold advance, remaining. destruct (post c); [|discriminate].
  intros H. now apply enter_None in H.
Qed.

Lemma advance_all_insts c c' :
  advance c = Some c' -> all_insts c' = all_insts c.
Proof.
  intros H. unfold all_insts. now destruct (advance_Some c c' H) as [-> _].
Qed.

Lemma advance_entry_head c c' :
  advance c = Some c' -> entry_head c' = entry_head c.
Proof.
  intros H. unfold entry_head. now destruct (advance_Some c c' H) as [-> _].
Qed.

Lemma count_synth_app n0 l1 l2 :
  count_synth n0 (l1 ++ l2) = (count_synth n0 l1 + count_synth n0 l2)%nat.
Proof.
  unfold count_synth. now rewrite List.filter_app, length_app.
Qed.

Lemma count_synth_below n0 l : ids_below n0 l -> count_synth n0 l = 0%nat.
Proof.
  unfold count_synth. induction 1 as [|J l HJ _ IH]; cbn; [reflexivity|].
  unfold synthesized_load at 1.
  destruct (Nat.leb_spec n0 (inst_id J)); [lia | exact IH].
Qed.

Lemma count_synth_no_load n0 l :
  Forall (fun J => isa_LoadInst J = false) l -> count_synth n0 l = 0%nat.
Proof.
  unfold count_synth. induction 1 as [|J l HJ _ IH]; cbn; [reflexivity|].
  unfold synthesized_load at 1. now rewrite HJ, andb_false_r.
Qed.

Lemma count_synth_erase n0 k l :
  (count_synth n0 (erase_in k l) <= count_synth n0 l)%nat.
Proof.
  unfold count_synth, erase_in. induction l as [|J l IH]; cbn; [lia|].
  destruct (negb (has_id k J)); cbn;
    destruct (synthesized_load n0 J); cbn; lia.
Qed.

Lemma count_synth_In n0 J l :
  In J l -> synthesized_load n0 J = true -> (1 <= count_synth n0 l)%nat.
Proof.
  unfold count_synth. intros Hin HJ.
  assert (In J (List.filter (synthesized_load n0) l))
    by now apply List.filter_In.
  destruct (List.filter (synthesized_load n0) l); cbn; [contradiction | lia].
Qed.

Lemma all_insts_push_front L c :
  all_insts (push_front_entry L c) = L :: all_insts c.
Proof.
  rewrite (all_insts_eq c). unfold push_front_entry.
  destruct (before c); rewrite all_insts_Cursor; reflexivity.
Qed.

Lemma entry_head_push_front L c : entry_head (push_front_entry L c) = Some L.
Proof.
  unfold entry_head, push_front_entry, to_function.
  destruct (before c); reflexivity.
Qed.

Lemma remaining_push_front L c :
  cur (push_front_entry L c) :: remaining (push_front_entry L c) =
    cur c :: remaining c.
Proof.
  unfold push_front_entry, remaining. destruct (before c); reflexivity.
Qed.

Lemma entry_head_all_insts c L :
  entry_head c = Some L -> exists rest, all_insts c = L :: rest.
Proof.
  unfold entry_head, all_insts. destruct (to_function c) as [|b bs];
    [discriminate|].
  destruct b as [|J b]; [discriminate|]. intros [= ->]. cbn. eauto.
Qed.

Lemma entry_head_lookup c L :
  entry_head c = Some L -> lookup_inst c (inst_id L) = Some L.
Proof.
  intros H. apply entry_head_all_insts in H as [rest H].
  unfold lookup_inst. rewrite H. cbn. unfold has_id.
  now rewrite Nat.eqb_refl.
Qed.

Lemma entry_head_insert B P c c' N Po A L :
  entry_head (Cursor B P c Po A) = Some L -> L <> c ->
  entry_head (Cursor B (P ++ N) c' Po A) = Some L.
Proof.
  unfold entry_head, to_function. cbn [before pre cur post after].
  destruct B as [|b B]; cbn; [|tauto].
  destruct P as [|J P]; cbn; congruence.
Qed.

Lemma entry_head_erase k c L :
  entry_head c = Some L -> inst_id L <> k ->
  entry_head (eraseFromParent k c) = Some L.
Proof.
  unfold entry_head, to_function, eraseFromParent.
  cbn [before pre cur post after].
  destruct (before c) as [|b B]; cbn.
  - destruct (pre c) as [|J P]; cbn; [tauto|].
    intros [= ->] Hne. unfold has_id.
    destruct (Nat.eqb_spec (inst_id L) k); [contradiction | reflexivity].
  - destruct b as [|J b]; cbn; [discriminate|].
    intros [= ->] Hne. unfold has_id.
    destruct (Nat.eqb_spec (inst_id L) k); [contradiction | reflexivity].
Qed.

Lemma remaining_erase k c :
  remaining (eraseFromParent k c) = erase_in k (remaining c).
Proof.
  unfold remaining, eraseFromParent. cbn [post after].
  now rewrite concat_map_erase, erase_in_app.
Qed.

Lemma ids_below_erase n k l : ids_below n l -> ids_below n (erase_in k l).
Proof.
  unfold ids_below. rewrite !Forall_forall. intros H J HJ.
  apply list_elem_of_In, In_erase_in in HJ as [HJ _].
  apply H. now apply list_elem_of_In.
Qed.

Lemma length_erase_in k l : (length (erase_in k l) <= length l)%nat.
Proof.
  unfold erase_in. induction l as [|J l IH]; cbn; [lia|].
  destruct (negb (has_id k J)); cbn; lia.
Qed.

Lemma count_synth_all_erase n0 k c :
  (count_synth n0 (all_insts (eraseFromParent k c)) <=
   count_synth n0 (all_insts c))%nat.
Proof.
  rewrite !all_insts_eq. unfold eraseFromParent.
  cbn [before pre cur post after]. rewrite !concat_map_erase.
  rewrite !count_synth_app.
  change (cur c :: erase_in k (post c) ++ erase_in k (concat (after c)))
    with ([cur c] ++ erase_in k (post c) ++ erase_in k (concat (after c))).
  change (cur c :: post c ++ concat (after c))
    with ([cur c] ++ post c ++ concat (after c)).
  rewrite !count_synth_app.
  pose proof (count_synth_erase n0 k (concat (before c))).
  pose proof (count_synth_erase n0 k (pre c)).
  pose proof (count_synth_erase n0 k (post c)).
  pose proof (count_synth_erase n0 k (concat (after c))).
  lia.
Qed.

Section Invariant.

Variable W : Z.
Variable sz : type -> Z.
Variable this : SandboxMemoryAccesses.
Variable m0 : nat.
Variable n0 : nat.

Lemma Inv_acquire s :
  Inv this m0 n0 s ->
  Inv this m0 n0 (acquireMemBase this s).2 /\
  MemBase (acquireMemBase this s).2 = Some (InstRef n0) /\
  (acquireMemBase this s).1 = InstRef n0.
Proof.
  intros [Hids Hle Hadds Htodo Hbase Hold]. unfold acquireMemBase.
  destruct (MemBase s) as [v|] eqn:EMB.
  - destruct Hbase as (-> & Hlt & Hhead & Hcount). cbn [fst snd].
    split; [|split]; try reflexivity || exact EMB.
    constructor; try assumption. now rewrite EMB.
  - cbn [fst snd]. subst n0. split; [|split; reflexivity].
    constructor; cbn [fn MemBase fresh].
    + rewrite all_insts_push_front, ids_below_cons. cbn. split; [lia|].
      eapply ids_below_mono; [|exact Hids]. lia.
    + lia.
    + rewrite all_insts_push_front. constructor; [|exact Hadds].
      intros _ Hop. discriminate.
    + now rewrite remaining_push_front.
    + split; [reflexivity|]. split; [lia|].
      split; [apply entry_head_push_front|].
      rewrite all_insts_push_front.
      change (count_synth (fresh s)
                ([mem_base_load this (fresh s)] ++ all_insts (fn s)) = 1%nat).
      rewrite count_synth_app, (count_synth_below _ (all_insts (fn s)))
        by assumption.
      unfold count_synth, synthesized_load. cbn.
      now rewrite Nat.leb_refl.
    + rewrite all_insts_push_front. constructor; [|exact Hold].
      right. cbn. lia.
Qed.

(** New instructions that are no loads, put before the iterator. *)
Lemma Inv_insert s N c' :
  Inv this m0 n0 s ->
  MemBase s <> None ->
  Forall (fun K => (fresh s <= inst_id K < fresh s + length N)%nat) N ->
  Forall (fun K => isa_LoadInst K = false) N ->
  Forall (adds_base n0) N ->
  inst_id c' = inst_id (cur (fn s)) ->
  isa_LoadInst c' = isa_LoadInst (cur (fn s)) ->
  Inv this m0 n0
      (State (Cursor (before (fn s)) (pre (fn s) ++ N) c' (post (fn s))
                     (after (fn s)))
             (MemBase s) (fresh s + length N)).
Proof.
  intros [Hids Hle Hadds Htodo Hbase Hold] HMB HN Hload HNadds Hid Hisload.
  apply ids_below_cons in Htodo as [Hcur Hrem].
  rewrite all_insts_eq in Hids, Hadds.
  apply ids_below_app in Hids as (HidB & Hids).
  apply ids_below_app in Hids as (HidP & Hids).
  apply ids_below_cons in Hids as (Hidc & Hids).
  apply Forall_app in Hadds as (HaB & Hadds).
  apply Forall_app in Hadds as (HaP & Hadds).
  apply Forall_cons in Hadds as (Hac & Hadds).
  constructor; cbn [fn MemBase fresh].
  - rewrite all_insts_Cursor, !ids_below_app, ids_below_cons.
    repeat split.
    + eapply ids_below_mono; [|exact HidB]. lia.
    + eapply ids_below_mono; [|exact HidP]. lia.
    + eapply Forall_impl; [exact HN|]. cbn. intros K HK. lia.
    + lia.
    + eapply ids_below_mono; [|exact Hids]. lia.
  - lia.
  - rewrite all_insts_Cursor, !Forall_app, Forall_cons.
    repeat split; try assumption.
    intros Hge. lia.
  - cbn [cur]. unfold remaining. cbn [post after].
    apply ids_below_cons. split; [lia | exact Hrem].
  - destruct (MemBase s) as [v|]; [|contradiction].
    destruct Hbase as (-> & Hlt & Hhead & Hcount).
    split; [reflexivity|]. split; [lia|]. split.
    + destruct (fn s) as [B P c Po A]. cbn [before pre cur post after] in *.
      eapply entry_head_insert; [exact Hhead|].
      intros E. rewrite <- E in Hcur. cbn in Hcur. lia.
    + rewrite all_insts_Cursor. rewrite all_insts_eq in Hcount.
      revert Hcount. rewrite !count_synth_app.
      change (c' :: post (fn s) ++ concat (after (fn s)))
        with ([c'] ++ post (fn s) ++ concat (after (fn s))).
      change (cur (fn s) :: post (fn s) ++ concat (after (fn s)))
        with ([cur (fn s)] ++ post (fn s) ++ concat (after (fn s))).
      rewrite !count_synth_app, (count_synth_no_load n0 N) by assumption.
      assert (count_synth n0 [c'] = count_synth n0 [cur (fn s)]) as ->.
      { unfold count_synth, synthesized_load. cbn. rewrite Hid, Hisload.
        now destruct (_ && _). }
      lia.
  - rewrite all_insts_eq in Hold.
    apply Forall_app in Hold as (HoB & Hold).
    apply Forall_app in Hold as (HoP & Hold).
    apply Forall_cons in Hold as (Hoc & Hold).
    rewrite all_insts_Cursor, !Forall_app, Forall_cons.
    repeat split; try assumption.
    + eapply Forall_impl; [exact HN|]. cbn. intros K HK. right. lia.
    + unfold old_or_new in *. rewrite Hid. exact Hoc.
Qed.

Lemma Inv_erase s k :
  Inv this m0 n0 s -> MemBase s <> None -> k <> n0 ->
  Inv this m0 n0 (State (eraseFromParent k (fn s)) (MemBase s) (fresh s)).
Proof.
  intros [Hids Hle Hadds Htodo Hbase Hold] HMB Hk.
  constructor; cbn [fn MemBase fresh].
  - unfold ids_below in *. rewrite Forall_forall in *. intros J HJ.
    apply list_elem_of_In, In_all_insts_erase in HJ as [HJ _].
    apply Hids. now apply list_elem_of_In.
  - exact Hle.
  - rewrite Forall_forall in *. intros J HJ.
    apply list_elem_of_In, In_all_insts_erase in HJ as [HJ _].
    apply Hadds. now apply list_elem_of_In.
  - rewrite remaining_erase. cbn [cur eraseFromParent].
    apply ids_below_cons in Htodo as [Hcur Hrem].
    apply ids_below_cons. split; [exact Hcur | now apply ids_below_erase].
  - destruct (MemBase s) as [v|]; [|contradiction].
    destruct Hbase as (-> & Hlt & Hhead & Hcount).
    split; [reflexivity|]. split; [exact Hlt|].
    assert (Hhead' : entry_head (eraseFromParent k (fn s)) =
                     Some (mem_base_load this n0)).
    { apply entry_head_erase; [exact Hhead | cbn; lia]. }
    split; [exact Hhead'|].
    pose proof (count_synth_all_erase n0 k (fn s)).
    apply entry_head_all_insts in Hhead' as [rest Hrest].
    assert (1 <= count_synth n0 (all_insts (eraseFromParent k (fn s))))%nat.
    { apply (count_synth_In n0 (mem_base_load this n0)).
      - rewrite Hrest. now left.
      - unfold synthesized_load. cbn. now rewrite Nat.leb_refl. }
    lia.
  - rewrite Forall_forall in *. intros J HJ.
    apply list_elem_of_In, In_all_insts_erase in HJ as [HJ _].
    apply Hold. now apply list_elem_of_In.
Qed.

End Invariant.

Lemma general_seq_facts Mask n Ptr PtrTy n0 :
  let N := general_seq Mask n Ptr PtrTy (InstRef n0) in
  Forall (in_range n (length N)) N /\
  Forall (fun K => isa_LoadInst K = false) N /\
  Forall (adds_base n0) N.
Proof.
  unfold general_seq, in_range, adds_base, new_inst.
  destruct Mask; cbn [length]; (split; [|split]); split_Forall;
    cbn; try lia; try reflexivity; intros Hge Hop;
    try discriminate; eauto.
Qed.

Lemma folded_seq_facts Mask n X C PtrTy dA dC n0 :
  let news := folded_seq Mask n X C PtrTy (InstRef n0) in
  let last := last_id n news in
  let N := folded_front Mask n X (InstRef n0) ++
           [setDebugLoc dA (new_AddOffset last C);
            setDebugLoc dC (new_SandboxedPtr last PtrTy)] in
  length N = length news /\
  Forall (in_range n (length N)) N /\
  Forall (fun K => isa_LoadInst K = false) N /\
  Forall (adds_base n0) N.
Proof.
  unfold folded_seq, folded_front, last_id, in_range, adds_base,
    new_AddOffset, new_SandboxedPtr, setDebugLoc, new_inst.
  destruct Mask; cbn [length app];
    (split; [reflexivity | split; [|split]]); split_Forall;
    cbn; try lia; try reflexivity; intros Hge Hop;
    try discriminate; eauto.
Qed.

Section Steps.

Variable W : Z.
Variable sz : type -> Z.
Variable this : SandboxMemoryAccesses.
Variable m0 : nat.
Variable n0 : nat.

Lemma state_eta s : State (fn s) (MemBase s) (fresh s) = s.
Proof. now destruct s. Qed.

Lemma Inv_cond_erase s k (b : bool) :
  Inv this m0 n0 s -> MemBase s <> None -> k <> n0 ->
  Inv this m0 n0
      (State (if b then eraseFromParent k (fn s) else fn s)
             (MemBase s) (fresh s)).
Proof.
  intros HI HMB Hk. destruct b; [now apply Inv_erase|].
  now rewrite state_eta.
Qed.

Lemma length_remaining_cond_erase c k (b : bool) :
  (length (remaining (if b then eraseFromParent k c else c)) <=
   length (remaining c))%nat.
Proof.
  destruct b; [|lia]. rewrite remaining_erase. apply length_erase_in.
Qed.

Lemma not_base_id s Inst :
  Inv this m0 n0 s -> MemBase s <> None ->
  lookup_inst (fn s) (inst_id Inst) = Some Inst ->
  opcode Inst <> Load ->
  inst_id Inst <> n0.
Proof.
  intros [_ _ _ _ Hbase _] HMB Hlook Hop E.
  destruct (MemBase s); [|contradiction].
  destruct Hbase as (_ & _ & Hhead & _).
  apply entry_head_lookup in Hhead. cbn [inst_id mem_base_load] in Hhead.
  rewrite E in Hlook. rewrite Hhead in Hlook. injection Hlook as <-.
  now apply Hop.
Qed.

Lemma sandboxPtrOperand_Inv OpNum fca s :
  Inv this m0 n0 s ->
  (fca = true -> first_class_access (cur (fn s))) ->
  let s' := sandboxPtrOperand W sz this OpNum fca s in
  Inv this m0 n0 s' /\ MemBase s' <> None /\
  (length (remaining (fn s')) <= length (remaining (fn s)))%nat /\
  opcode (cur (fn s')) = opcode (cur (fn s)) /\
  forall k, k <> OpNum ->
            getOperand (cur (fn s')) k = getOperand (cur (fn s)) k.
Proof.
  intros HI Hacc s'.
  destruct (Inv_acquire this m0 n0 s HI) as (HI1 & HMB1 & HV).
  pose proof (acquire_cur this s) as Hcur.
  pose proof (acquire_post this s) as Hpost.
  pose proof (acquire_after this s) as Hafter.
  set (s1 := (acquireMemBase this s).2) in *.
  set (Ptr := getOperand (cur (fn s)) OpNum).
  assert (HMB1' : MemBase s1 <> None) by congruence.
  assert (Hrem1 : remaining (fn s1) = remaining (fn s))
    by (unfold remaining; congruence).
  destruct (recognize W sz (fn s1) fca Ptr) as [p|] eqn:Hrec.
  - assert (fca = true) as -> by (destruct fca; [reflexivity | discriminate]).
    pose proof (sandbox_folded W sz this OpNum s p (inv_ids _ _ _ _ HI)
                  (Hacc eq_refl) Hrec) as Hs'.
    fold s1 Ptr s' in Hs'. rewrite HV in Hs'.
    destruct (folded_seq_facts (PtrMask this) (fresh s1) (Truncated0 p)
                (Offset p) (getType (fn s1) Ptr)
                (dbg (RedundantAdd p)) (dbg (RedundantCast p)) n0)
      as (Hlen & Hrange & Hnoload & Hadds).
    pose proof (proj1 (recognize_Some_iff W sz _ _ _ _) Hrec)
      as (_ & (_ & HC & HCop & _ & HA & HAop & _) & _).
    pose proof (not_base_id s1 _ HI1 HMB1' HC ltac:(congruence)) as HCne.
    pose proof (not_base_id s1 _ HI1 HMB1' HA ltac:(congruence)) as HAne.
    match type of Hs' with
    | _ = State (let c3 := if ?b1 then eraseFromParent ?k1 ?c else _ in _) _ _
      => set (copied := c) in *
    end.
    cbn zeta in Hs'.
    assert (HIc : Inv this m0 n0 (State copied (MemBase s1)
                                     (fresh s1 + length (folded_seq
                                        (PtrMask this) (fresh s1)
                                        (Truncated0 p) (Offset p)
                                        (getType (fn s1) Ptr) (InstRef n0))))).
    { rewrite <- Hlen. subst copied. unfold replaced_cursor.
      apply Inv_insert; try assumption; reflexivity. }
    set (Sc := State copied _ _) in HIc.
    pose proof (Inv_cond_erase Sc (inst_id (RedundantCast p))
                  (use_empty copied (inst_id (RedundantCast p)))
                  HIc HMB1' HCne) as HI3.
    cbn [fn MemBase fresh Sc] in HI3.
    set (c3 := if use_empty copied (inst_id (RedundantCast p))
               then eraseFromParent (inst_id (RedundantCast p)) copied
               else copied) in *.
    pose proof (Inv_cond_erase _ (inst_id (RedundantAdd p))
                  (use_empty c3 (inst_id (RedundantAdd p)))
                  HI3 HMB1' HAne) as HI4.
    cbn [fn MemBase fresh] in HI4. rewrite <- Hs' in HI4.
    split; [exact HI4|]. rewrite Hs'. cbn [fn MemBase fresh].
    split; [exact HMB1'|]. split; [|split].
    + pose proof (length_remaining_cond_erase c3 (inst_id (RedundantAdd p))
                    (use_empty c3 (inst_id (RedundantAdd p)))).
      pose proof (length_remaining_cond_erase copied
                    (inst_id (RedundantCast p))
                    (use_empty copied (inst_id (RedundantCast p)))).
      fold c3 in H0.
      assert (remaining copied = remaining (fn s)) as <-.
      { rewrite <- Hrem1. reflexivity. }
      lia.
    + destruct (use_empty c3 _); subst c3;
        destruct (use_empty copied _); cbn; now rewrite Hcur.
    + intros k Hk.
      destruct (use_empty c3 _); subst c3;
        destruct (use_empty copied _); cbn [cur eraseFromParent copied
          replaced_cursor];
        rewrite getOperand_setOperand_ne by congruence; now rewrite Hcur.
  - assert (Hs' : s' = rewritten s1 (general_seq (PtrMask this) (fresh s1) Ptr
                                       (getType (fn s1) Ptr) (InstRef n0))
                                 OpNum).
    { subst s'. unfold sandboxPtrOperand.
      rewrite (rewrite_general W sz this OpNum fca s Hrec).
      fold s1 Ptr. now rewrite HV. }
    destruct (general_seq_facts (PtrMask this) (fresh s1) Ptr
                (getType (fn s1) Ptr) n0) as (Hrange & Hnoload & Hadds).
    rewrite Hs'. unfold rewritten. cbn [fn MemBase fresh].
    split; [|split; [exact HMB1' | split; [|split]]].
    + apply Inv_insert; try assumption; reflexivity.
    + change (length (remaining (fn s1)) <= length (remaining (fn s)))%nat.
      rewrite Hrem1. lia.
    + cbn. now rewrite Hcur.
    + intros k Hk. cbn [cur].
      rewrite getOperand_setOperand_ne by congruence. now rewrite Hcur.
Qed.

Lemma sandboxLenOperand_Inv OpNum s :
  Inv this m0 n0 s -> MemBase s <> None ->
  let s' := sandboxLenOperand this OpNum s in
  Inv this m0 n0 s' /\ MemBase s' <> None /\
  remaining (fn s') = remaining (fn s).
Proof.
  intros HI HMB s'. subst s'. unfold sandboxLenOperand.
  destruct (PtrMask this) as [Mask|]; [|auto].
  unfold emit, insert_before_cur, set_cur. cbn [fn MemBase fresh before pre
    cur post after].
  split; [|split; [exact HMB | reflexivity]].
  replace (S (fresh s)) with (fresh s + length [mkInst (fresh s)
    (BinaryOperator And) I32 [getOperand (cur (fn s)) OpNum; Mask] None ""])%nat
    by (cbn; lia).
  apply Inv_insert; try assumption; try reflexivity.
  - split_Forall. cbn. lia.
  - split_Forall. reflexivity.
  - split_Forall. intros _ Hop. discriminate.
Qed.

End Steps.

Section Loop.

Variable W : Z.
Variable sz : type -> Z.
Variable this : SandboxMemoryAccesses.
Variable m0 : nat.
Variable n0 : nat.

Lemma visit_Inv s :
  Inv this m0 n0 s ->
  match visit W sz this s with
  | OutOfFuel => False
  | FatalError _ => True
  | Ok s1 =>
      Inv this m0 n0 s1 /\
      (length (remaining (fn s1)) <= length (remaining (fn s)))%nat /\
      (is_site (cur (fn s)) = true -> MemBase s1 <> None) /\
      (is_site (cur (fn s)) = false -> s1 = s)
  end.
Proof.
  intros HI. unfold visit, is_site, sandboxed_atomic.
  pose proof (fun OpNum fca =>
                sandboxPtrOperand_Inv W sz this m0 n0 OpNum fca s HI) as Hptr.
  destruct (isa_LoadInst (cur (fn s))) eqn:ELoad.
  { destruct (Hptr 0%nat true) as (H1 & H2 & H3 & _).
    - intros _. left. unfold isa_LoadInst in ELoad.
      now destruct (opcode (cur (fn s))).
    - cbn [orb]. split; [exact H1 | split; [exact H3 | split]];
        [intros _; exact H2 | discriminate]. }
  destruct (isa_StoreInst (cur (fn s))) eqn:EStore.
  { destruct (Hptr 1%nat true) as (H1 & H2 & H3 & _).
    - intros _. right. left. unfold isa_StoreInst in EStore.
      now destruct (opcode (cur (fn s))).
    - cbn [orb]. split; [exact H1 | split; [exact H3 | split]];
        [intros _; exact H2 | discriminate]. }
  cbn [orb].
  destruct (isa_MemCpyInst (cur (fn s)) || isa_MemMoveInst (cur (fn s)))
    eqn:ECpy.
  { destruct (Hptr 0%nat false) as (H1 & H2 & H3 & _); [discriminate|].
    destruct (sandboxPtrOperand_Inv W sz this m0 n0 1 false _ H1)
      as (H1' & H2' & H3' & _); [discriminate|].
    destruct (sandboxLenOperand_Inv this m0 n0 2 _ H1' H2')
      as (H1'' & H2'' & H3'').
    rewrite H3''. cbn [orb].
    split; [exact H1'' | split; [lia | split]];
      [intros _; exact H2'' | discriminate]. }
  destruct (isa_MemSetInst (cur (fn s))) eqn:ESet.
  { destruct (Hptr 0%nat false) as (H1 & H2 & H3 & _); [discriminate|].
    destruct (sandboxLenOperand_Inv this m0 n0 2 _ H1 H2)
      as (H1'' & H2'' & H3'').
    rewrite H3''. cbn [orb].
    split; [exact H1'' | split; [exact H3 | split]];
      [intros _; exact H2'' | discriminate]. }
  cbn [orb].
  assert (Hcheck : match checkDoesNotHavePointerOperands s with
                   | OutOfFuel => False
                   | FatalError _ => True
                   | Ok s1 => Inv this m0 n0 s1 /\
                       (length (remaining (fn s1)) <=
                        length (remaining (fn s)))%nat /\
                       (false = true -> MemBase s1 <> None) /\
                       (false = false -> s1 = s)
                   end).
  { destruct (check_outcome s) as [-> | ->]; [|exact I].
    split; [exact HI | split; [lia | split]]; [discriminate | reflexivity]. }
  destruct (dyn_cast_IntrinsicInst (cur (fn s))) as [iid|] eqn:EI.
  - assert (Hacc : first_class_access (cur (fn s))).
    { right. right. now apply intrinsic_is_call in EI. }
    destruct iid; try exact Hcheck.
    all: match goal with
         | |- context [sandboxPtrOperand _ _ _ ?n true _] =>
             destruct (Hptr n true) as (H1 & H2 & H3 & _); [auto|];
             (split; [exact H1 | split; [exact H3 | split]]);
             [intros _; exact H2 | discriminate]
         end.
  - destruct (negb (isa_PtrToIntInst (cur (fn s))) &&
              negb (isa_BitCastInst (cur (fn s)))); [exact Hcheck|].
    split; [exact HI | split; [lia | split]]; [discriminate | reflexivity].
Qed.

Lemma Inv_advance s c' :
  Inv this m0 n0 s -> advance (fn s) = Some c' ->
  Inv this m0 n0 (State c' (MemBase s) (fresh s)).
Proof.
  intros [Hids Hle Hadds Htodo Hbase Hold] Hadv.
  pose proof (advance_all_insts _ _ Hadv) as Hall.
  pose proof (advance_entry_head _ _ Hadv) as Hhead.
  destruct (advance_Some _ _ Hadv) as [_ Hrem].
  constructor; cbn [fn MemBase fresh]; rewrite ?Hall, ?Hhead; try assumption.
  rewrite Hrem. now apply ids_below_cons in Htodo.
Qed.

Lemma iterate_Inv fuel : forall s,
  Inv this m0 n0 s ->
  (length (remaining (fn s)) < fuel)%nat ->
  match iterate W sz this fuel s with
  | OutOfFuel => False
  | FatalError _ => True
  | Ok s' =>
      Inv this m0 n0 s' /\
      (MemBase s <> None \/
       existsb is_site (cur (fn s) :: remaining (fn s)) = true ->
       MemBase s' <> None) /\
      (existsb is_site (cur (fn s) :: remaining (fn s)) = false ->
       to_function (fn s') = to_function (fn s) /\ fresh s' = fresh s)
  end.
Proof.
  induction fuel as [|fuel IH]; intros s HI Hfuel; [lia|].
  cbn [iterate bind]. pose proof (visit_Inv s HI) as Hvisit.
  destruct (visit W sz this s) as [s1| |]; cbn [bind]; try exact Hvisit.
  destruct Hvisit as (HI1 & Hlen & Hsite & Hnosite).
  destruct (advance (fn s1)) as [c'|] eqn:Hadv.
  - destruct (advance_Some _ _ Hadv) as [Hfun Hrem].
    specialize (IH (State c' (MemBase s1) (fresh s1))
                   (Inv_advance s1 c' HI1 Hadv)).
    cbn [fn MemBase fresh] in IH.
    assert (Hlen' : (length (remaining c') < fuel)%nat).
    { assert (length (cur c' :: remaining c') =
              length (remaining (fn s1))) by now rewrite Hrem.
      cbn [length] in H. lia. }
    specialize (IH Hlen').
    destruct (iterate W sz this fuel _) as [s'| |]; try exact IH.
    destruct IH as (HI' & HMB & Hsame). split; [exact HI'|].
    rewrite Hrem in HMB, Hsame. cbn [existsb]. split.
    + intros Hpre. apply HMB.
      destruct (is_site (cur (fn s))) eqn:Ecur.
      * left. now apply Hsite.
      * rewrite (Hnosite eq_refl). destruct Hpre as [Hpre | Hpre]; auto.
    + intros Hno. apply orb_false_elim in Hno as [Ecur Hno].
      rewrite (Hnosite Ecur) in *. destruct (Hsame Hno) as [-> ->].
      now rewrite Hfun.
  - split; [exact HI1|]. cbn [existsb]. split.
    + intros Hpre. destruct (is_site (cur (fn s))) eqn:Ecur.
      * now apply Hsite.
      * rewrite (Hnosite eq_refl) in *. apply advance_None in Hadv.
        rewrite Hadv in Hpre. cbn in Hpre.
        destruct Hpre as [Hpre | Hpre]; [exact Hpre | discriminate].
    + intros Hno. apply orb_false_elim in Hno as [Ecur _].
      now rewrite (Hnosite Ecur).
Qed.

Lemma entry_head_function c L :
  entry_head c = Some L -> exists b bs, to_function c = (L :: b) :: bs.
Proof.
  unfold entry_head. destruct (to_function c) as [|b bs]; [discriminate|].
  destruct b as [|J b]; [discriminate|]. intros [= ->]. eauto.
Qed.

Lemma count_synth_between l :
  (m0 <= n0)%nat -> Forall (old_or_new m0 n0) l ->
  count_synth m0 l = count_synth n0 l.
Proof.
  intros Hle Hl. unfold count_synth.
  induction Hl as [|J l HJ _ IH]; cbn; [reflexivity|].
  assert (synthesized_load m0 J = synthesized_load n0 J) as ->.
  { unfold synthesized_load. f_equal.
    destruct (Nat.leb_spec m0 (inst_id J)), (Nat.leb_spec n0 (inst_id J));
      try reflexivity; destruct HJ; lia. }
  destruct (synthesized_load n0 J); cbn; now rewrite IH.
Qed.

Lemma adds_base_between l :
  (m0 <= n0)%nat -> Forall (old_or_new m0 n0) l ->
  Forall (adds_base n0) l -> Forall (adds_base_from m0 n0) l.
Proof.
  intros Hle Hl Hadds. rewrite Forall_forall in *. intros J HJ Hge.
  apply Hadds; [exact HJ|]. destruct (Hl J HJ); lia.
Qed.

Lemma runOnFunction_mem_base Func :
  (m0 <= n0)%nat ->
  ids_below m0 (concat Func) ->
  match runOnFunction W sz this Func n0 with
  | OutOfFuel => False
  | FatalError _ => True
  | Ok (Func', n') =>
      (n0 <= n')%nat /\ mem_base_outcome this m0 n0 Func Func'
  end.
Proof.
  intros Hm0 Hids. unfold runOnFunction, mem_base_outcome.
  destruct (enter [] Func) as [c|] eqn:Henter.
  - apply enter_Some in Henter as [Hfun Hrem]. cbn [app] in Hfun.
    assert (HI : Inv this m0 n0 (State c None n0)).
    { constructor; cbn [fn MemBase fresh].
      - unfold all_insts. rewrite Hfun.
        eapply ids_below_mono; [exact Hm0 | exact Hids].
      - lia.
      - unfold all_insts. rewrite Hfun.
        eapply Forall_impl; [exact Hids|]. cbn. intros J HJ Hge. lia.
      - rewrite Hrem. eapply ids_below_mono; [exact Hm0 | exact Hids].
      - reflexivity.
      - unfold all_insts. rewrite Hfun.
        eapply Forall_impl; [exact Hids|]. cbn. intros J HJ. now left. }
    assert (Hfuel : (length (remaining c) < length (concat Func))%nat).
    { rewrite <- Hrem. cbn. lia. }
    pose proof (iterate_Inv (length (concat Func)) _ HI Hfuel) as Hit.
    cbn [fn MemBase fresh] in Hit.
    destruct (iterate W sz this _ _) as [s'| |]; cbn [bind]; try exact Hit.
    destruct Hit as (HI' & HMB & Hsame). rewrite Hrem in HMB, Hsame.
    split; [apply (inv_le _ _ _ _ HI')|].
    destruct (existsb is_site (concat Func)) eqn:Esite.
    + specialize (HMB (or_intror eq_refl)).
      pose proof (inv_base _ _ _ _ HI') as Hbase.
      pose proof (inv_adds _ _ _ _ HI') as Hadds.
      pose proof (inv_old _ _ _ _ HI') as Hold.
      destruct (MemBase s'); [|contradiction].
      destruct Hbase as (_ & _ & Hhead & Hcount).
      split; [now apply entry_head_function|]. split.
      * now rewrite count_synth_between.
      * now apply adds_base_between.
    + destruct (Hsame eq_refl) as [-> _]. exact Hfun.
  - apply enter_None in Henter. rewrite Henter. cbn. auto.
Qed.

End Loop.

Lemma runOnFunctions_mem_base W sz this m0 Fs : forall n0,
  (m0 <= n0)%nat ->
  Forall (fun Func => ids_below m0 (concat Func)) Fs ->
  match runOnFunctions W sz this Fs n0 with
  | OutOfFuel => False
  | FatalError _ => True
  | Ok (Fs', n') =>
      Forall2 (fun Func Func' =>
                 exists n,
                   (n0 <= n)%nat /\ mem_base_outcome this m0 n Func Func')
              Fs Fs'
  end.
Proof.
  induction Fs as [|Func Fs IH]; intros n0 Hm0 Hids;
    cbn [runOnFunctions bind].
  - constructor.
  - apply Forall_cons in Hids as [HF HFs].
    pose proof (runOnFunction_mem_base W sz this m0 n0 Func Hm0 HF) as Hrun.
    destruct (runOnFunction W sz this Func n0) as [[Func' n1]| |];
      cbn [bind]; try exact Hrun.
    destruct Hrun as [Hle Hout]. cbn [fst snd].
    specialize (IH n1 ltac:(lia) HFs).
    destruct (runOnFunctions W sz this Fs n1) as [[Fs' n2]| |];
      cbn [bind]; try exact IH.
    cbn [fst snd]. constructor.
    + exists n0. split; [lia | exact Hout].
    + eapply Forall2_impl; [exact IH|]. cbn.
      intros G G' (n & Hn & HG). exists n. split; [lia | exact HG].
Qed.

Lemma initialize_functions W M : functions (initialize W M).2 = functions M.
Proof.
  unfold initialize, getOrInsertGlobal.
  destruct (find _ (globals M)); reflexivity.
Qed.

(** C6. A run of the pass on a module whose instruction ids are below the
    id supply [n0] never ends in the model's [OutOfFuel], and when it
    succeeds, every function with a sandboxing site starts its entry block
    with a new load of the memory base, this is the only load among the
    instructions created (those with an id from [n0] on), and every add
    created in the function adds that loaded value; a function without
    sandboxing site is left as it was.  Each function has its own load:
    [runOnFunction] starts from an empty cache. *)
Theorem mem_base_loaded_once (W : Z) (sz : type -> Z) (M : module)
    (n0 : nat) :
  let this := (initialize W M).1 in
  Forall (fun Func => ids_below n0 (concat Func)) (functions M) ->
  match runOnModule W sz M n0 with
  | OutOfFuel => False
  | FatalError _ => True
  | Ok (M', _) =>
      Forall2 (fun Func Func' =>
                 exists n,
                   (n0 <= n)%nat /\
                   if existsb is_site (concat Func)
                   then (exists b bs,
                           Func' = (mem_base_load this n :: b) :: bs) /\
                        count_synth n0 (concat Func') = 1%nat /\
                        Forall (adds_base_from n0 n) (concat Func')
                   else Func' = Func)
              (functions M) (functions M')
  end.
Proof.
  intros this Hids. unfold runOnModule.
  pose proof (initialize_functions W M) as Hfun. subst this.
  destruct (initialize W M) as [this M1]. cbn [fst snd] in *.
  rewrite Hfun.
  pose proof (runOnFunctions_mem_base W sz this n0 (functions M) n0
                ltac:(lia) Hids) as Hrun.
  destruct (runOnFunctions W sz this (functions M) n0) as [[Fs' n']| |];
    cbn [bind]; exact Hrun.
Qed.



(** *** The run as a sequence of elementary steps *)

Lemma steps_trans this s1 s2 s3 :
  steps this s1 s2 -> steps this s2 s3 -> steps this s1 s3.
Proof.
  induction 1 as [|a b c Hab _ IH]; [tauto|].
  intros H. eapply steps_cons; [exact Hab | now apply IH].
Qed.

Lemma steps_once this s1 s2 : prim this s1 s2 -> steps this s1 s2.
Proof. intros H. eapply steps_cons; [exact H | apply steps_refl]. Qed.

Lemma acquire_MemBase this s :
  MemBase (acquireMemBase this s).2 = Some (acquireMemBase this s).1.
Proof.
  unfold acquireMemBase. destruct (MemBase s) eqn:E; [exact E | reflexivity].
Qed.

Lemma acquire_steps this s : steps this s (acquireMemBase this s).2.
Proof.
  destruct (MemBase s) eqn:E.
  - unfold acquireMemBase. rewrite E. apply steps_refl.
  - apply steps_once. now constructor.
Qed.

Lemma getOperand_source s N Inst n :
  In Inst (all_insts (fn s)) -> operand_source s N (getOperand Inst n).
Proof.
  intros Hin. unfold getOperand.
  destruct (operands Inst !! n) as [v|] eqn:E; cbn.
  - left. exists Inst. split; [exact Hin|].
    apply list_elem_of_In. eapply list_elem_of_lookup_2. exact E.
  - right. right. left. exact I.
Qed.

Lemma source_new s N k :
  map inst_id N = seq (fresh s) (length N) ->
  (fresh s <= k < fresh s + length N)%nat ->
  operand_source s N (InstRef k).
Proof.
  intros Hids Hk. right. right. right.
  assert (Hin : In k (map inst_id N)) by (rewrite Hids; apply in_seq; lia).
  apply in_map_iff in Hin as (K & <- & HK). eauto.
Qed.

Lemma general_seq_operands (P : value -> Prop) Mask n Ptr PtrTy mb :
  let N := general_seq Mask n Ptr PtrTy mb in
  P Ptr -> P mb -> (forall v, Mask = Some v -> P v) ->
  (forall k, (n <= k < n + length N)%nat -> P (InstRef k)) ->
  N <> [] /\ map inst_id N = seq n (length N) /\
  Forall (fun K => Forall P (operands K)) N.
Proof.
  unfold general_seq, new_inst.
  destruct Mask as [Mask|]; cbn [length]; intros HPtr Hmb HMask Hnew;
    (split; [discriminate | split]);
    try (cbn; repeat (f_equal; try lia));
    split_Forall; cbn [operands]; split_Forall;
    try assumption; try (apply Hnew; lia); now apply HMask.
Qed.

Lemma folded_seq_operands (P : value -> Prop) Mask n X C PtrTy mb dA dC :
  let last := last_id n (folded_seq Mask n X C PtrTy mb) in
  let N := folded_front Mask n X mb ++
           [setDebugLoc dA (new_AddOffset last C);
            setDebugLoc dC (new_SandboxedPtr last PtrTy)] in
  P X -> P mb -> (forall v, Mask = Some v -> P v) -> P (ConstantInt 64 C) ->
  (forall k, (n <= k < n + length N)%nat -> P (InstRef k)) ->
  N <> [] /\ map inst_id N = seq n (length N) /\
  length N = length (folded_seq Mask n X C PtrTy mb) /\
  Forall (fun K => Forall P (operands K)) N.
Proof.
  unfold folded_seq, folded_front, last_id, new_AddOffset, new_SandboxedPtr,
    setDebugLoc, new_inst.
  destruct Mask as [Mask|]; cbn [length app];
    intros HX Hmb HMask HC Hnew;
    (split; [discriminate | split; [|split; [reflexivity|]]]);
    try (cbn; repeat (f_equal; try lia));
    split_Forall; cbn [operands]; split_Forall;
    try assumption; try (apply Hnew; lia); now apply HMask.
Qed.

Lemma general_seq_arithmetic Mask n Ptr PtrTy mb :
  Forall arithmetic (general_seq Mask n Ptr PtrTy mb).
Proof.
  unfold general_seq, new_inst. destruct Mask; split_Forall; exact I.
Qed.

Lemma folded_seq_arithmetic Mask n X C PtrTy mb dA dC :
  let last := last_id n (folded_seq Mask n X C PtrTy mb) in
  Forall arithmetic
         (folded_front Mask n X mb ++
          [setDebugLoc dA (new_AddOffset last C);
           setDebugLoc dC (new_SandboxedPtr last PtrTy)]).
Proof.
  unfold folded_front, new_AddOffset, new_SandboxedPtr, setDebugLoc, new_inst.
  destruct Mask; cbn [app]; split_Forall; exact I.
Qed.

Lemma cond_erase_steps this s K :
  In K (all_insts (fn s)) -> K <> cur (fn s) ->
  opcode K = IntToPtr \/ opcode K = BinaryOperator Add ->
  steps this s
        (State (if use_empty (fn s) (inst_id K)
                then eraseFromParent (inst_id K) (fn s) else fn s)
               (MemBase s) (fresh s)).
Proof.
  intros Hin Hne Hop. destruct (use_empty (fn s) (inst_id K)) eqn:E.
  - apply steps_once. now constructor.
  - rewrite state_eta. apply steps_refl.
Qed.

Lemma cur_In c : In (cur c) (all_insts c).
Proof. rewrite all_insts_eq, !in_app_iff. right. right. now left. Qed.

Lemma Forall_operands_In (P : value -> Prop) (N : list instruction) :
  Forall (fun K => Forall P (operands K)) N ->
  forall K v, In K N -> In v (operands K) -> P v.
Proof.
  intros H K v HK Hv. rewrite Forall_forall in H.
  specialize (H K (proj2 (list_elem_of_In _ _) HK)).
  rewrite Forall_forall in H. apply H. now apply list_elem_of_In.
Qed.

Section Decompose.

Variable W : Z.
Variable sz : type -> Z.
Variable this : SandboxMemoryAccesses.
Hypothesis Hok : pass_ok this.

Lemma mask_source s N v : PtrMask this = Some v -> operand_source s N v.
Proof. intros H. right. right. left. now apply (proj2 Hok). Qed.

Lemma sandboxPtrOperand_steps OpNum fca s :
  first_class_access (cur (fn s)) ->
  (fca = true -> ids_below (fresh s) (all_insts (fn s))) ->
  steps this s (sandboxPtrOperand W sz this OpNum fca s).
Proof.
  intros Hacc Hids.
  eapply steps_trans; [apply acquire_steps|].
  pose proof (acquire_cur this s) as Hcur.
  pose proof (acquire_MemBase this s) as HMB.
  set (s1 := (acquireMemBase this s).2) in *.
  set (mb := (acquireMemBase this s).1) in *.
  set (Ptr := getOperand (cur (fn s)) OpNum).
  assert (Hacc1 : first_class_access (cur (fn s1))) by now rewrite Hcur.
  assert (HPtr : forall N, operand_source s1 N Ptr).
  { intros N. subst Ptr. rewrite <- Hcur. apply getOperand_source, cur_In. }
  assert (Hmb : forall N, operand_source s1 N mb)
    by (intros N; now right; left).
  destruct (recognize W sz (fn s1) fca Ptr) as [p|] eqn:Hrec.
  - assert (fca = true) as -> by (destruct fca; [reflexivity | discriminate]).
    pose proof (sandbox_folded W sz this OpNum s p (Hids eq_refl) Hacc Hrec)
      as Hs'.
    fold s1 mb Ptr in Hs'.
    pose proof (proj1 (recognize_Some_iff W sz _ _ _ _) Hrec)
      as (_ & (_ & HC & HCop & HO & HA & HAop & _ & HX & _) & _).
    set (PtrTy := getType (fn s1) Ptr) in *.
    set (news := folded_seq (PtrMask this) (fresh s1) (Truncated0 p)
                            (Offset p) PtrTy mb) in *.
    set (last := last_id (fresh s1) news) in *.
    set (N := folded_front (PtrMask this) (fresh s1) (Truncated0 p) mb ++
              [setDebugLoc (dbg (RedundantAdd p))
                           (new_AddOffset last (Offset p));
               setDebugLoc (dbg (RedundantCast p))
                           (new_SandboxedPtr last PtrTy)]).
    destruct (folded_seq_operands (fun _ => True) (PtrMask this) (fresh s1)
                (Truncated0 p) (Offset p) PtrTy mb (dbg (RedundantAdd p))
                (dbg (RedundantCast p)) I I (fun _ _ => I) I (fun _ _ => I))
      as (Hne & Hseq & Hlen & _).
    fold news last N in Hne, Hseq, Hlen.
    assert (HX' : operand_source s1 N (Truncated0 p)).
    { rewrite <- HX. apply getOperand_source. now apply lookup_inst_In in HA. }
    destruct (folded_seq_operands (operand_source s1 N) (PtrMask this)
                (fresh s1) (Truncated0 p) (Offset p) PtrTy mb
                (dbg (RedundantAdd p)) (dbg (RedundantCast p)) HX' (Hmb N)
                (mask_source s1 N) (or_intror (or_intror (or_introl I))))
      as (_ & _ & _ & Hsrc).
    { fold news last N. intros k Hk. now apply source_new. }
    fold news last N in Hsrc.
    assert (Hins : prim this s1 (rewritten s1 N OpNum)).
    { constructor; try assumption.
      - apply folded_seq_arithmetic.
      - now apply Forall_operands_In. }
    assert (Hcopied :
      rewritten s1 N OpNum =
        State (replaced_cursor (fn s1)
                 (folded_front (PtrMask this) (fresh s1) (Truncated0 p) mb)
                 (setDebugLoc (dbg (RedundantAdd p))
                              (new_AddOffset last (Offset p)))
                 (setDebugLoc (dbg (RedundantCast p))
                              (new_SandboxedPtr last PtrTy)) OpNum)
              (MemBase s1) (fresh s1 + length news)).
    { unfold rewritten, replaced_cursor. fold N. rewrite Hlen.
      cbn [inst_id setDebugLoc new_SandboxedPtr new_inst].
      unfold last, last_id. rewrite Hlen. reflexivity. }
    rewrite Hcopied in Hins. clear Hcopied.
    set (copied := replaced_cursor _ _ _ _ _) in *.
    set (Sc := State copied (MemBase s1) (fresh s1 + length news)) in *.
    assert (HCne : RedundantCast p <> cur (fn s1)).
    { intros E. rewrite E in HCop.
      destruct Hacc1 as [H | [H | H]]; congruence. }
    assert (HOne : RedundantAdd p <> cur (fn s1)).
    { intros E. rewrite E in HAop.
      destruct Hacc1 as [H | [H | H]]; congruence. }
    assert (HinC : In (RedundantCast p) (all_insts copied)).
    { subst copied. unfold replaced_cursor. destruct (fn s1).
      eapply In_all_insts_rewritten; [|exact HCne].
      now apply lookup_inst_In in HC. }
    assert (HinO : In (RedundantAdd p) (all_insts copied)).
    { subst copied. unfold replaced_cursor. destruct (fn s1).
      eapply In_all_insts_rewritten; [|exact HOne].
      now apply lookup_inst_In in HA. }
    assert (HCcur : RedundantCast p <> cur copied).
    { intros E. rewrite E in HCop. cbn in HCop.
      destruct Hacc1 as [H | [H | H]]; congruence. }
    assert (HOcur : RedundantAdd p <> cur copied).
    { intros E. rewrite E in HAop. cbn in HAop.
      destruct Hacc1 as [H | [H | H]]; congruence. }
    assert (Hidne : inst_id (RedundantAdd p) <> inst_id (RedundantCast p)).
    { intros E. rewrite E in HA. congruence. }
    eapply steps_cons; [exact Hins|].
    pose proof (cond_erase_steps this Sc (RedundantCast p) HinC HCcur
                  (or_introl HCop)) as H3.
    cbn [fn MemBase fresh Sc] in H3.
    eapply steps_trans; [exact H3|]. rewrite Hs'. cbn zeta.
    set (c3 := if use_empty copied (inst_id (RedundantCast p))
               then eraseFromParent (inst_id (RedundantCast p)) copied
               else copied).
    apply (cond_erase_steps this (State c3 (MemBase s1)
                                        (fresh s1 + length news))
             (RedundantAdd p)).
    + cbn [fn]. subst c3. destruct (use_empty copied _); [|exact HinO].
      apply In_all_insts_erase. split; [exact HinO | now left].
    + cbn [fn]. subst c3. now destruct (use_empty copied _).
    + now right.
  - unfold sandboxPtrOperand.
    rewrite (rewrite_general W sz this OpNum fca s Hrec).
    fold s1 mb Ptr. apply steps_once.
    set (N := general_seq _ _ _ _ _).
    destruct (general_seq_operands (fun _ => True) (PtrMask this) (fresh s1)
                Ptr (getType (fn s1) Ptr) mb I I (fun _ _ => I)
                (fun _ _ => I)) as (Hne & Hseq & _).
    fold N in Hne, Hseq.
    destruct (general_seq_operands (operand_source s1 N) (PtrMask this)
                (fresh s1) Ptr (getType (fn s1) Ptr) mb (HPtr N) (Hmb N)
                (mask_source s1 N)) as (_ & _ & Hsrc).
    { fold N. intros k Hk. now apply source_new. }
    fold N in Hsrc.
    constructor; try assumption.
    + apply general_seq_arithmetic.
    + now apply Forall_operands_In.
Qed.

Lemma sandboxLenOperand_steps OpNum s :
  first_class_access (cur (fn s)) ->
  steps this s (sandboxLenOperand this OpNum s).
Proof.
  intros Hacc. unfold sandboxLenOperand.
  destruct (PtrMask this) as [Mask|] eqn:EM; [|apply steps_refl].
  unfold emit, insert_before_cur, set_cur.
  cbn [fn MemBase fresh before pre cur post after].
  set (N := [mkInst (fresh s) (BinaryOperator And) I32
               [getOperand (cur (fn s)) OpNum; Mask] None ""]).
  assert (E : State (Cursor (before (fn s)) (pre (fn s) ++ N)
                       (setOperand (cur (fn s)) OpNum (InstRef (fresh s)))
                       (post (fn s)) (after (fn s)))
                    (MemBase s) (S (fresh s)) = rewritten s N OpNum).
  { unfold rewritten, last_id. cbn [length N]. repeat (f_equal; try lia). }
  rewrite E. apply steps_once. constructor; try assumption.
  - discriminate.
  - reflexivity.
  - unfold N. split_Forall. exact I.
  - intros K v [<- | []] [<- | [<- | []]].
    + apply getOperand_source, cur_In.
    + now apply mask_source.
Qed.

Lemma sandbox_bulk_access OpNum s :
  first_class_access (cur (fn s)) ->
  first_class_access (cur (fn (sandboxPtrOperand W sz this OpNum false s))).
Proof.
  rewrite sandbox_bulk_operand. cbn. now rewrite acquire_cur.
Qed.

Lemma visit_steps s s1 :
  ids_below (fresh s) (all_insts (fn s)) ->
  visit W sz this s = Ok s1 -> steps this s s1.
Proof.
  intros Hids. unfold visit.
  destruct (isa_LoadInst (cur (fn s))) eqn:ELoad.
  { intros [= <-]. apply sandboxPtrOperand_steps; [|auto].
    left. unfold isa_LoadInst in ELoad. now destruct (opcode (cur (fn s))). }
  destruct (isa_StoreInst (cur (fn s))) eqn:EStore.
  { intros [= <-]. apply sandboxPtrOperand_steps; [|auto].
    right. left. unfold isa_StoreInst in EStore.
    now destruct (opcode (cur (fn s))). }
  assert (Hintr : forall iid, dyn_cast_IntrinsicInst (cur (fn s)) = Some iid ->
                              first_class_access (cur (fn s))).
  { intros iid E. right. right. now apply intrinsic_is_call in E. }
  destruct (isa_MemCpyInst (cur (fn s)) || isa_MemMoveInst (cur (fn s)))
    eqn:ECpy.
  { intros [= <-].
    assert (Hacc : first_class_access (cur (fn s))).
    { unfold isa_MemCpyInst, isa_MemMoveInst in ECpy.
      destruct (dyn_cast_IntrinsicInst (cur (fn s))) eqn:E; [|discriminate].
      eauto. }
    eapply steps_trans;
      [apply (sandboxPtrOperand_steps 0 false s Hacc); discriminate|].
    eapply steps_trans;
      [apply (sandboxPtrOperand_steps 1 false);
       [now apply sandbox_bulk_access | discriminate]|].
    apply sandboxLenOperand_steps. now do 2 apply sandbox_bulk_access. }
  destruct (isa_MemSetInst (cur (fn s))) eqn:ESet.
  { intros [= <-].
    assert (Hacc : first_class_access (cur (fn s))).
    { unfold isa_MemSetInst in ESet.
      destruct (dyn_cast_IntrinsicInst (cur (fn s))) eqn:E; [|discriminate].
      eauto. }
    eapply steps_trans;
      [apply (sandboxPtrOperand_steps 0 false s Hacc); discriminate|].
    apply sandboxLenOperand_steps. now apply sandbox_bulk_access. }
  assert (Hcheck : checkDoesNotHavePointerOperands s = Ok s1 ->
                   steps this s s1).
  { destruct (check_outcome s) as [-> | ->]; [|discriminate].
    intros [= <-]. apply steps_refl. }
  destruct (dyn_cast_IntrinsicInst (cur (fn s))) as [iid|] eqn:EI.
  - destruct iid; try exact Hcheck; intros [= <-];
      apply sandboxPtrOperand_steps; eauto.
  - destruct (negb (isa_PtrToIntInst (cur (fn s))) &&
              negb (isa_BitCastInst (cur (fn s)))); [exact Hcheck|].
    intros [= <-]. apply steps_refl.
Qed.

(** An invariant of the elementary steps and of the move of the iterator
    that implies the freshness of the id supply is an invariant of the
    instruction loop. *)
Lemma iterate_steps_invariant (P : state -> Prop) :
  (forall s, P s -> ids_below (fresh s) (all_insts (fn s))) ->
  (forall s s', P s -> prim this s s' -> P s') ->
  (forall s c, P s -> advance (fn s) = Some c ->
               P (State c (MemBase s) (fresh s))) ->
  forall fuel s s', P s -> iterate W sz this fuel s = Ok s' -> P s'.
Proof.
  intros Hids Hprim Hadvance.
  assert (Hsteps : forall s s', steps this s s' -> P s -> P s').
  { induction 1; eauto. }
  induction fuel as [|fuel IH]; intros s s' HP; cbn [iterate bind];
    [discriminate|].
  destruct (visit W sz this s) as [s1| |] eqn:Hvisit; cbn [bind];
    try discriminate.
  assert (HP1 : P s1) by (eapply Hsteps; [eapply visit_steps|]; eauto).
  destruct (advance (fn s1)) as [c'|] eqn:Hadv.
  - apply IH. now apply Hadvance.
  - now intros [= <-].
Qed.

End Decompose.

(** *** Well-formedness is kept *)

Lemma NoDup_insert_middle {A} (l1 m l2 : list A) :
  NoDup (l1 ++ l2) -> NoDup m ->
  (forall x, In x m -> ~ In x (l1 ++ l2)) ->
  NoDup (l1 ++ m ++ l2).
Proof.
  intros H12 Hm Hdis.
  rewrite (Permutation_app_swap_app l1 m l2).
  apply NoDup_app. split; [exact Hm | split; [|exact H12]].
  intros x Hx Hx'. apply (Hdis x); now apply list_elem_of_In.
Qed.

Lemma NoDup_map_inj_In {A B} (f : A -> B) (l : list A) x y :
  NoDup (map f l) -> In x l -> In y l -> f x = f y -> x = y.
Proof.
  induction l as [|a l IH]; cbn [map In]; [tauto|].
  intros Hnd Hx Hy E. apply NoDup_cons in Hnd as [Ha Hnd].
  rewrite list_elem_of_In in Ha.
  destruct Hx as [-> | Hx], Hy as [-> | Hy]; auto.
  - exfalso. apply Ha. rewrite E. now apply in_map.
  - exfalso. apply Ha. rewrite <- E. now apply in_map.
Qed.

Lemma erase_in_sublist k l : erase_in k l `sublist_of` l.
Proof.
  unfold erase_in. induction l as [|J l IH]; cbn; [constructor|].
  destruct (negb (has_id k J)); now constructor.
Qed.

Lemma all_insts_erase_sublist k c :
  all_insts (eraseFromParent k c) `sublist_of` all_insts c.
Proof.
  rewrite !all_insts_eq. unfold eraseFromParent.
  cbn [before pre cur post after]. rewrite !concat_map_erase.
  repeat (apply sublist_app || apply sublist_skip || apply erase_in_sublist).
Qed.

Lemma NoDup_ids_erase k c :
  NoDup (map inst_id (all_insts c)) ->
  NoDup (map inst_id (all_insts (eraseFromParent k c))).
Proof.
  intros H. eapply sublist_NoDup; [exact H|].
  change (inst_id <$> all_insts (eraseFromParent k c) `sublist_of`
          inst_id <$> all_insts c).
  apply fmap_sublist, all_insts_erase_sublist.
Qed.

Lemma uses_In id J : In (InstRef id) (operands J) -> uses id J = true.
Proof.
  intros H. unfold uses. apply existsb_exists. exists (InstRef id).
  split; [exact H | apply Nat.eqb_refl].
Qed.

Lemma use_empty_not_used c id J :
  use_empty c id = true -> In J (all_insts c) ->
  ~ In (InstRef id) (operands J).
Proof.
  intros He HJ Hin. rewrite (use_empty_false c id J HJ) in He;
    [discriminate | now apply uses_In].
Qed.

Lemma In_setOperand v Inst n x :
  In v (operands (setOperand Inst n x)) -> v = x \/ In v (operands Inst).
Proof.
  unfold setOperand. cbn [operands]. generalize (operands Inst).
  intros l. revert n. induction l as [|a l IH]; intros [|n]; cbn; try tauto.
  - intros [<- | H]; tauto.
  - intros [<- | H]; [tauto|]. apply IH in H. tauto.
Qed.

Lemma defined_in_rewritten B P c c' N Po A k :
  inst_id c' = inst_id c ->
  defined_in (all_insts (Cursor B P c Po A)) k ->
  defined_in (all_insts (Cursor B (P ++ N) c' Po A)) k.
Proof.
  intros Hid (K & HK & <-). revert HK. rewrite !all_insts_Cursor.
  unfold defined_in. repeat (rewrite !in_app_iff || cbn [In]).
  intros [H | [H | [<- | [H | H]]]];
    [exists K | exists K | exists c' | exists K | exists K];
    (split; [repeat (rewrite !in_app_iff || cbn [In]); tauto | auto]).
Qed.

Section WellFormed.

Variable this : SandboxMemoryAccesses.
Hypothesis Hok : pass_ok this.

Lemma WF_acquire s : WF s -> MemBase s = None -> WF (acquireMemBase this s).2.
Proof.
  intros [Hids Hnd Hcl Hbase] HMB.
  pose proof (acquire_ids_below this s Hids) as Hids'.
  revert Hids'. unfold acquireMemBase. rewrite HMB. cbn [snd]. intros Hids'.
  constructor; cbn [fn MemBase fresh] in *; try exact Hids'.
  - rewrite all_insts_push_front. cbn [map inst_id]. apply NoDup_cons.
    split; [|exact Hnd]. rewrite list_elem_of_In, in_map_iff.
    intros (K & HK & Hin). unfold ids_below in Hids.
    rewrite Forall_forall in Hids.
    specialize (Hids K (proj2 (list_elem_of_In _ _) Hin)). lia.
  - rewrite all_insts_push_front. intros J k [<- | HJ] Hop.
    + cbn in Hop. destruct Hop as [E | []].
      destruct Hok as [H _]. rewrite E in H. destruct H.
    + destruct (Hcl J k HJ Hop) as (K & HK & HKid).
      exists K. split; [now right | exact HKid].
  - intros v [= <-]. eexists. rewrite all_insts_push_front.
    split; [now left|]. split; reflexivity.
Qed.

Lemma WF_insert s N OpNum :
  WF s ->
  N <> [] ->
  map inst_id N = seq (fresh s) (length N) ->
  (forall K v, In K N -> In v (operands K) -> operand_source s N v) ->
  WF (rewritten s N OpNum).
Proof.
  intros [Hids Hnd Hcl Hbase] Hne Hseq Hsrc. unfold rewritten.
  destruct (fn s) as [B P c Po A] eqn:Efn.
  cbn [before pre cur post after].
  set (c' := setOperand c OpNum (InstRef (last_id (fresh s) N))).
  assert (HNid : forall K, In K N ->
                           (fresh s <= inst_id K < fresh s + length N)%nat).
  { intros K HK. apply (in_map inst_id) in HK. rewrite Hseq in HK.
    apply in_seq in HK. lia. }
  assert (Hdef : forall k,
            defined_in (all_insts (Cursor B P c Po A)) k ->
            defined_in (all_insts (Cursor B (P ++ N) c' Po A)) k).
  { intros k. now apply defined_in_rewritten. }
  assert (HdefN : forall k,
            (fresh s <= k < fresh s + length N)%nat ->
            defined_in (all_insts (Cursor B (P ++ N) c' Po A)) k).
  { intros k Hk.
    assert (Hin : In k (map inst_id N)) by (rewrite Hseq; apply in_seq; lia).
    apply in_map_iff in Hin as (K & <- & HK). exists K.
    split; [|reflexivity]. rewrite all_insts_Cursor, !in_app_iff. tauto. }
  constructor; cbn [fn MemBase fresh].
  - revert Hids. rewrite !all_insts_Cursor, !ids_below_app, !ids_below_cons,
      !ids_below_app. intros (HB & HP & Hc & HPo & HA).
    repeat split; try (eapply ids_below_mono; [|eassumption]; lia).
    + unfold ids_below. rewrite Forall_forall. intros K HK.
      apply list_elem_of_In, HNid in HK. lia.
    + cbn. lia.
  - rewrite all_insts_Cursor in Hnd, Hids. rewrite all_insts_Cursor.
    assert (E1 : concat B ++ P ++ c :: Po ++ concat A =
                 (concat B ++ P) ++ c :: Po ++ concat A)
      by now rewrite <- app_assoc.
    assert (E2 : map inst_id (concat B ++ (P ++ N) ++ c' :: Po ++ concat A) =
                 map inst_id (concat B ++ P) ++ map inst_id N ++
                 map inst_id (c :: Po ++ concat A)).
    { rewrite !map_app. cbn [map]. rewrite !map_app, <- !app_assoc.
      reflexivity. }
    rewrite E2. rewrite E1 in Hnd, Hids.
    apply NoDup_insert_middle.
    + now rewrite <- map_app.
    + rewrite Hseq. apply NoDup_seq.
    + intros x Hx Hx'. rewrite Hseq in Hx. apply in_seq in Hx.
      rewrite <- map_app in Hx'. apply in_map_iff in Hx' as (K & <- & HK).
      unfold ids_below in Hids. rewrite Forall_forall in Hids.
      specialize (Hids K (proj2 (list_elem_of_In _ _) HK)). lia.
  - intros J k HJ Hop.
    assert (Hold : In J (all_insts (Cursor B P c Po A)) ->
                   defined_in (all_insts (Cursor B (P ++ N) c' Po A)) k).
    { intros HJ'. apply Hdef. eapply Hcl; eassumption. }
    rewrite all_insts_Cursor in HJ.
    repeat (rewrite !in_app_iff in HJ || cbn [In] in HJ).
    destruct HJ as [HJ | [[HJ | HJ] | [<- | [HJ | HJ]]]].
    1,2,5,6: apply Hold; rewrite all_insts_Cursor;
      repeat (rewrite !in_app_iff || cbn [In]); tauto.
    + destruct (Hsrc J (InstRef k) HJ Hop)
        as [(J0 & HJ0 & Hop0) | [HMB | [[] | (K & HK & [= ->])]]].
      * apply Hdef. rewrite Efn in HJ0. eapply Hcl; eassumption.
      * destruct (Hbase _ HMB) as (K & HK & [= ->] & _).
        apply Hdef. exists K. split; [exact HK | reflexivity].
      * apply HdefN. now apply HNid.
    + apply In_setOperand in Hop as [[= ->] | Hop].
      * apply HdefN. unfold last_id. destruct N; [contradiction|]. cbn. lia.
      * apply Hdef. apply (Hcl c); [|exact Hop].
        rewrite all_insts_Cursor.
        repeat (rewrite !in_app_iff || cbn [In]). tauto.
  - intros v HMB. destruct (Hbase v HMB) as (K & HK & -> & Hop).
    revert HK. rewrite !all_insts_Cursor.
    repeat (rewrite !in_app_iff || cbn [In]).
    intros [H | [H | [<- | [H | H]]]];
      [exists K | exists K | exists c' | exists K | exists K];
      (split; [repeat (rewrite !in_app_iff || cbn [In]); tauto | auto]).
Qed.

Lemma WF_erase s K :
  WF s ->
  In K (all_insts (fn s)) ->
  opcode K = IntToPtr \/ opcode K = BinaryOperator Add ->
  use_empty (fn s) (inst_id K) = true ->
  WF (State (eraseFromParent (inst_id K) (fn s)) (MemBase s) (fresh s)).
Proof.
  intros [Hids Hnd Hcl Hbase] HK Hop Hempty.
  constructor; cbn [fn MemBase fresh].
  - unfold ids_below in *. rewrite Forall_forall in *. intros J HJ.
    apply list_elem_of_In, In_all_insts_erase in HJ as [HJ _].
    apply Hids. now apply list_elem_of_In.
  - now apply NoDup_ids_erase.
  - intros J k HJ HJop. apply In_all_insts_erase in HJ as [HJ _].
    destruct (Hcl J k HJ HJop) as (K' & HK' & <-).
    exists K'. split; [|reflexivity].
    apply In_all_insts_erase. split; [exact HK'|]. left. intros E.
    rewrite E in HJop. now apply (use_empty_not_used _ _ J Hempty HJ).
  - intros v HMB. destruct (Hbase v HMB) as (L & HL & -> & HLop).
    exists L. split; [|split; [reflexivity | exact HLop]].
    apply In_all_insts_erase. split; [exact HL|]. left. intros E.
    assert (L = K) by (eapply NoDup_map_inj_In; eassumption).
    subst L. destruct Hop; congruence.
Qed.

Lemma WF_prim s s' : WF s -> prim this s s' -> WF s'.
Proof.
  intros HWF Hprim. destruct Hprim.
  - now apply WF_acquire.
  - now apply WF_insert.
  - now apply WF_erase.
Qed.

Lemma WF_advance s c :
  WF s -> advance (fn s) = Some c -> WF (State c (MemBase s) (fresh s)).
Proof.
  intros [Hids Hnd Hcl Hbase] H.
  pose proof (advance_all_insts _ _ H) as Hall.
  constructor; cbn [fn MemBase fresh]; rewrite ?Hall; assumption.
Qed.

End WellFormed.

Lemma prim_fresh_le this s s' : prim this s s' -> (fresh s <= fresh s')%nat.
Proof.
  destruct 1; cbn [fresh rewritten]; try lia.
  unfold acquireMemBase. rewrite H. cbn. lia.
Qed.

Lemma wf_function_mono n n' Func :
  (n <= n')%nat -> wf_function n Func -> wf_function n' Func.
Proof.
  intros Hle [Hids Hnd Hcl]. constructor; try assumption.
  eapply ids_below_mono; eassumption.
Qed.

Lemma initialize_pass_ok W M : pass_ok (initialize W M).1.
Proof.
  unfold initialize, getOrInsertGlobal.
  destruct (find _ (globals M)) as [g|]; cbn [fst MemBaseVar PtrMask].
  - split; [now destruct (decide _)|].
    destruct (W <? 32); [|discriminate]. now intros v [= <-].
  - split; [exact I|].
    destruct (W <? 32); [|discriminate]. now intros v [= <-].
Qed.

(** *** What stays of the input *)

Lemma keep_new n0 J : (n0 <= inst_id J)%nat -> keep n0 J = false.
Proof.
  intros H. unfold keep. destruct (Nat.ltb_spec (inst_id J) n0); [lia|].
  reflexivity.
Qed.

Lemma filter_keep_new n0 N :
  Forall (fun K => (n0 <= inst_id K)%nat) N -> List.filter (keep n0) N = [].
Proof.
  induction 1 as [|K N HK _ IH]; cbn; [reflexivity|].
  now rewrite keep_new.
Qed.

Lemma filter_keep_erase n0 e l :
  (forall J, In J l -> inst_id J = e -> keep n0 J = false) ->
  List.filter (keep n0) (erase_in e l) = List.filter (keep n0) l.
Proof.
  unfold erase_in. induction l as [|J l IH]; intros H; cbn; [reflexivity|].
  unfold has_id at 1. destruct (Nat.eqb_spec (inst_id J) e) as [E|E]; cbn.
  - rewrite (H J) by (auto; now left). apply IH. intros; apply H; auto.
    now right.
  - rewrite IH; [reflexivity|]. intros; apply H; auto. now right.
Qed.

Lemma skeleton_app n0 (F1 F2 : function) :
  skeleton n0 (F1 ++ F2) = skeleton n0 F1 ++ skeleton n0 F2.
Proof. apply map_app. Qed.

Lemma skeleton_push_front n0 L c :
  (n0 <= inst_id L)%nat ->
  skeleton n0 (to_function (push_front_entry L c)) =
    skeleton n0 (to_function c).
Proof.
  intros HL. unfold push_front_entry, to_function, skeleton.
  destruct (before c) as [|b bs]; cbn [before pre cur post after app map];
    cbn [List.filter]; now rewrite keep_new.
Qed.

Lemma strip_setOperand Inst n v :
  first_class_access Inst -> strip (setOperand Inst n v) = strip Inst.
Proof.
  unfold strip, setOperand. cbn. intros [-> | [-> | ->]]; reflexivity.
Qed.

Lemma skeleton_rewritten n0 s N OpNum :
  (n0 <= fresh s)%nat ->
  map inst_id N = seq (fresh s) (length N) ->
  first_class_access (cur (fn s)) ->
  skeleton n0 (to_function (fn (rewritten s N OpNum))) =
    skeleton n0 (to_function (fn s)).
Proof.
  intros Hle Hseq Hacc. unfold rewritten, to_function. cbn [fn before pre
    cur post after]. rewrite !skeleton_app. f_equal.
  unfold skeleton. cbn [map]. f_equal.
  rewrite <- !app_assoc, !List.filter_app.
  rewrite (filter_keep_new n0 N).
  2:{ rewrite Forall_forall. intros K HK.
      apply list_elem_of_In, (in_map inst_id) in HK. rewrite Hseq in HK.
      apply in_seq in HK. lia. }
  cbn [app List.filter].
  assert (keep n0 (setOperand (cur (fn s)) OpNum
                     (InstRef (last_id (fresh s) N))) =
          keep n0 (cur (fn s))) as -> by reflexivity.
  destruct (keep n0 (cur (fn s))); rewrite !map_app; cbn [map];
    now rewrite ?strip_setOperand.
Qed.

Lemma skeleton_erase n0 c K :
  NoDup (map inst_id (all_insts c)) ->
  In K (all_insts c) ->
  opcode K = IntToPtr \/ opcode K = BinaryOperator Add ->
  skeleton n0 (to_function (eraseFromParent (inst_id K) c)) =
    skeleton n0 (to_function c).
Proof.
  intros Hnd HK Hop.
  assert (Hdead : forall J, In J (all_insts c) -> inst_id J = inst_id K ->
                            keep n0 J = false).
  { intros J HJ E. assert (J = K) as -> by (eapply NoDup_map_inj_In; eauto).
    unfold keep, isa_IntToPtrInst.
    destruct Hop as [-> | ->]; cbn; now rewrite ?andb_false_r. }
  assert (Hblocks : forall Bs : list basic_block,
            (forall J, In J (concat Bs) -> In J (all_insts c)) ->
            skeleton n0 (map (erase_in (inst_id K)) Bs) = skeleton n0 Bs).
  { induction Bs as [|b Bs IH]; intros Hin; [reflexivity|].
    unfold skeleton in *. cbn [map]. rewrite IH.
    - rewrite filter_keep_erase; [reflexivity|].
      intros J HJ. apply Hdead, Hin. cbn. apply in_app_iff. now left.
    - intros J HJ. apply Hin. cbn. apply in_app_iff. now right. }
  unfold eraseFromParent, to_function. cbn [before pre cur post after].
  rewrite !skeleton_app. f_equal.
  - apply Hblocks. intros J HJ. rewrite all_insts_eq, !in_app_iff. tauto.
  - change ((erase_in (inst_id K) (pre c) ++ cur c ::
               erase_in (inst_id K) (post c)) ::
            map (erase_in (inst_id K)) (after c))
      with ([erase_in (inst_id K) (pre c) ++ cur c ::
               erase_in (inst_id K) (post c)] ++
            map (erase_in (inst_id K)) (after c)).
    change ((pre c ++ cur c :: post c) :: after c)
      with ([pre c ++ cur c :: post c] ++ after c).
    rewrite !skeleton_app. f_equal.
    + unfold skeleton. cbn [map]. f_equal.
      rewrite !List.filter_app. cbn [List.filter].
      rewrite !filter_keep_erase; [reflexivity| |].
      * intros J HJ. apply Hdead. rewrite all_insts_eq, !in_app_iff.
        cbn [In]. rewrite in_app_iff. tauto.
      * intros J HJ. apply Hdead. rewrite all_insts_eq, !in_app_iff. tauto.
    + apply Hblocks. intros J HJ. rewrite all_insts_eq, !in_app_iff.
      cbn [In]. rewrite in_app_iff. tauto.
Qed.

Section Kept.

Variable W : Z.
Variable sz : type -> Z.
Variable this : SandboxMemoryAccesses.
Hypothesis Hok : pass_ok this.
Variable m0 : nat.

Lemma kept_prim sk s s' : kept m0 sk s -> prim this s s' -> kept m0 sk s'.
Proof.
  intros (HWF & Hle & Hsk) Hprim.
  split; [now apply (WF_prim this Hok s)|].
  split; [apply prim_fresh_le in Hprim; lia|].
  rewrite <- Hsk. destruct Hprim.
  - unfold acquireMemBase. rewrite H. cbn [snd fn].
    now apply skeleton_push_front.
  - now apply skeleton_rewritten.
  - cbn [fn]. apply skeleton_erase; [apply HWF | assumption..].
Qed.

Lemma kept_advance sk s c :
  kept m0 sk s -> advance (fn s) = Some c ->
  kept m0 sk (State c (MemBase s) (fresh s)).
Proof.
  intros (HWF & Hle & Hsk) H.
  split; [now apply WF_advance|]. split; [exact Hle|].
  cbn [fn]. now destruct (advance_Some _ _ H) as [-> _].
Qed.

Lemma runOnFunction_kept Func n0 Func' n' :
  (m0 <= n0)%nat ->
  wf_function m0 Func ->
  runOnFunction W sz this Func n0 = Ok (Func', n') ->
  (n0 <= n')%nat /\ wf_function n' Func' /\
  skeleton m0 Func' = skeleton m0 Func.
Proof.
  intros Hle [Hids Hnd Hcl]. unfold runOnFunction.
  destruct (enter [] Func) as [c|] eqn:Henter.
  - apply enter_Some in Henter as [Hfun _]. cbn [app] in Hfun.
    destruct (iterate W sz this _ _) as [s'| |] eqn:Hit; cbn [bind];
      try discriminate.
    intros [= <- <-].
    assert (H0 : (n0 <= fresh (State c None n0))%nat /\
                 kept m0 (skeleton m0 Func) (State c None n0)).
    { split; [cbn; lia|]. split; [|split]; cbn [fn fresh]; [|lia|].
      - constructor; cbn [fn MemBase fresh]; unfold all_insts;
          rewrite ?Hfun; try assumption; try discriminate.
        eapply ids_below_mono; eassumption.
      - now rewrite Hfun. }
    apply (iterate_steps_invariant W sz this Hok
             (fun s => (n0 <= fresh s)%nat /\ kept m0 (skeleton m0 Func) s))
      in Hit; [| | | |exact H0].
    + destruct Hit as (Hn & HWF & _ & Hsk).
      split; [exact Hn|]. split; [|exact Hsk].
      destruct HWF as [Hids' Hnd' Hcl' _]. now constructor.
    + intros s (_ & HWF & _). apply HWF.
    + intros s s1 (Hn & Hk) Hprim. split; [|now apply (kept_prim _ s)].
      apply prim_fresh_le in Hprim. lia.
    + intros s c1 (Hn & Hk) Hadv. split; [exact Hn|].
      now apply kept_advance.
  - intros [= <- <-]. split; [lia|]. split; [|reflexivity].
    constructor; try assumption. eapply ids_below_mono; eassumption.
Qed.

Lemma runOnFunctions_kept Fs : forall n0 Fs' n',
  (m0 <= n0)%nat ->
  Forall (wf_function m0) Fs ->
  runOnFunctions W sz this Fs n0 = Ok (Fs', n') ->
  (n0 <= n')%nat /\
  Forall2 (fun Func Func' =>
             wf_function n' Func' /\ skeleton m0 Func' = skeleton m0 Func)
          Fs Fs'.
Proof.
  induction Fs as [|Func Fs IH]; intros n0 Fs' n' Hle HFs;
    cbn [runOnFunctions bind].
  - intros [= <- <-]. split; [lia | constructor].
  - apply Forall_cons in HFs as [HF HFs].
    destruct (runOnFunction W sz this Func n0) as [[Func1 n1]| |] eqn:Hrun;
      cbn [bind]; try discriminate.
    destruct (runOnFunction_kept _ _ _ _ Hle HF Hrun) as (Hn1 & Hwf1 & Hsk1).
    cbn [fst snd].
    destruct (runOnFunctions W sz this Fs n1) as [[Fs1 n2]| |] eqn:Hruns;
      cbn [bind]; try discriminate.
    destruct (IH n1 Fs1 n2 ltac:(lia) HFs Hruns) as (Hn2 & Hall).
    intros [= <- <-]. cbn [fst snd]. split; [lia|]. constructor; [|exact Hall].
    split; [|exact Hsk1]. now apply (wf_function_mono n1).
Qed.

End Kept.

Lemma runOnModule_kept W sz M n0 :
  Forall (wf_function n0) (functions M) ->
  match runOnModule W sz M n0 with
  | OutOfFuel => False
  | FatalError _ => True
  | Ok (M', n') =>
      (n0 <= n')%nat /\
      Forall2 (fun Func Func' =>
                 wf_function n' Func' /\ skeleton n0 Func' = skeleton n0 Func)
              (functions M) (functions M')
  end.
Proof.
  intros Hwf. unfold runOnModule.
  pose proof (initialize_functions W M) as Hfun.
  pose proof (initialize_pass_ok W M) as Hok.
  destruct (initialize W M) as [this M1]. cbn [fst snd] in *. rewrite Hfun.
  assert (Hids : Forall (fun Func => ids_below n0 (concat Func)) (functions M)).
  { eapply Forall_impl; [exact Hwf|]. cbn. intros Func H. apply H. }
  pose proof (runOnFunctions_mem_base W sz this n0 (functions M) n0
                ltac:(lia) Hids) as Hrun.
  destruct (runOnFunctions W sz this (functions M) n0) as [[Fs' n']| |] eqn:E;
    cbn [bind]; try exact Hrun.
  cbn [fst snd functions].
  exact (runOnFunctions_kept W sz this Hok n0 (functions M) n0 Fs' n'
           ltac:(lia) Hwf E).
Qed.

(** X1. The pass keeps a module well formed.  When in every function of the
    input the instructions are distinct objects created before the id supply
    [n0] and every operand that is an instruction belongs to the function,
    the run does not end in the model's [OutOfFuel], and when it succeeds the
    same holds of every function of the output with the final id supply: the
    new instructions are fresh, their operands are in the function, and
    nothing refers to an erased cast or add. *)
Theorem output_well_formed (W : Z) (sz : type -> Z) (M : module) (n0 : nat) :
  Forall (wf_function n0) (functions M) ->
  match runOnModule W sz M n0 with
  | OutOfFuel => False
  | FatalError _ => True
  | Ok (M', n') =>
      (n0 <= n')%nat /\ Forall (wf_function n') (functions M')
  end.
Proof.
  intros Hwf. pose proof (runOnModule_kept W sz M n0 Hwf) as H.
  destruct (runOnModule W sz M n0) as [[M' n']| |]; try exact H.
  destruct H as [Hle H]. split; [exact Hle|].
  clear -H. induction H as [|F F' Fs Fs' [HF _] _ IH]; constructor; assumption.
Qed.

(** X2. The pass keeps the instructions of the input in place.  In a
    successful run on a well-formed module, every function of the output has
    the blocks of the input, and in each block the instructions of the input
    that are neither an integer-to-pointer cast nor an add, in their order:
    unchanged when they are no load, store or call, and with the same id,
    opcode, type, debug location and name (only the operands may differ) when
    they are.  So the pass only adds instructions, replaces operands of
    loads, stores and calls, and erases casts and adds. *)
Theorem original_instructions_kept (W : Z) (sz : type -> Z) (M : module)
    (n0 : nat) :
  Forall (wf_function n0) (functions M) ->
  match runOnModule W sz M n0 with
  | OutOfFuel => False
  | FatalError _ => True
  | Ok (M', _) =>
      Forall2 (fun Func Func' => skeleton n0 Func' = skeleton n0 Func)
              (functions M) (functions M')
  end.
Proof.
  intros Hwf. pose proof (runOnModule_kept W sz M n0 Hwf) as H.
  destruct (runOnModule W sz M n0) as [[M' n']| |]; try exact H.
  destruct H as [_ H]. eapply Forall2_impl; [exact H|]. cbn. tauto.
Qed.

(** *** The rewritten instruction *)

Lemma differs_at_refl ks J : differs_at ks J J.
Proof. unfold differs_at. tauto. Qed.

Lemma differs_at_set ks J n v :
  In n ks -> differs_at ks J (setOperand J n v).
Proof.
  intros Hn. unfold differs_at, setOperand. cbn.
  repeat split; try reflexivity.
  - apply length_insert.
  - intros k Hk. apply list_lookup_insert_ne. congruence.
Qed.

Lemma differs_at_trans ks J1 J2 J3 :
  differs_at ks J1 J2 -> differs_at ks J2 J3 -> differs_at ks J1 J3.
Proof.
  unfold differs_at.
  intros (H1 & H2 & H3 & H4 & H5 & H6 & H7) (G1 & G2 & G3 & G4 & G5 & G6 & G7).
  repeat split; try congruence. intros k Hk. now rewrite G7, H7.
Qed.

Lemma getType_acquire this s v :
  defined_below (fresh s) v ->
  getType (fn (acquireMemBase this s).2) v = getType (fn s) v.
Proof.
  unfold acquireMemBase. destruct (MemBase s); [reflexivity|].
  cbn [snd fn]. destruct v; try reflexivity. cbn [defined_below getType].
  intros Hlt. unfold lookup_inst. rewrite all_insts_push_front.
  cbn [find]. unfold has_id at 1. cbn [inst_id].
  destruct (Nat.eqb_spec (fresh s) id); [lia | reflexivity].
Qed.

Lemma getOperand_setOperand_eq Inst n v :
  (n < length (operands Inst))%nat -> getOperand (setOperand Inst n v) n = v.
Proof.
  intros Hn. unfold getOperand, setOperand. cbn.
  now rewrite list_lookup_insert_eq.
Qed.

Section Rewritten.

Variable W : Z.
Variable sz : type -> Z.
Variable this : SandboxMemoryAccesses.

(** The function right after the folded rewriting and its cleanup. *)
Lemma sandbox_folded_shape OpNum s p :
  let s1 := (acquireMemBase this s).2 in
  let Ptr := getOperand (cur (fn s)) OpNum in
  let PtrTy := getType (fn s1) Ptr in
  let news := folded_seq (PtrMask this) (fresh s1) (Truncated0 p) (Offset p)
                         PtrTy (acquireMemBase this s).1 in
  let last := last_id (fresh s1) news in
  let s' := sandboxPtrOperand W sz this OpNum true s in
  ids_below (fresh s) (all_insts (fn s)) ->
  first_class_access (cur (fn s)) ->
  recognize W sz (fn s1) true Ptr = Some p ->
  (exists pre0,
     pre (fn s') =
       pre0 ++ [setDebugLoc (dbg (RedundantCast p))
                            (new_SandboxedPtr last PtrTy)]) /\
  cur (fn s') = setOperand (cur (fn s)) OpNum (InstRef last) /\
  (fresh s <= last)%nat.
Proof.
  intros s1 Ptr PtrTy news last s' Hids Hacc Hrec.
  pose proof (sandbox_folded W sz this OpNum s p Hids Hacc Hrec) as Hs'.
  fold s1 Ptr PtrTy news last s' in Hs'.
  pose proof (proj1 (recognize_Some_iff W sz _ _ _ _) Hrec)
    as (_ & (_ & HC & _ & _ & HA & _) & _).
  pose proof (acquire_cur this s) as Hcur. fold s1 in Hcur.
  pose proof (acquire_fresh_le this s) as Hfresh. fold s1 in Hfresh.
  assert (Hids1 : ids_below (fresh s1) (all_insts (fn s1)))
    by now apply acquire_ids_below.
  assert (Hbelow : forall J k, lookup_inst (fn s1) k = Some J ->
                               (k < fresh s1)%nat).
  { intros J k HJ. pose proof (lookup_inst_id _ _ _ HJ) as <-.
    apply lookup_inst_In in HJ. unfold ids_below in Hids1.
    rewrite Forall_forall in Hids1. apply Hids1. now apply list_elem_of_In. }
  destruct (folded_seq_split (PtrMask this) (fresh s1) (Truncated0 p)
              (Offset p) PtrTy (acquireMemBase this s).1)
    as (_ & Hlast & _ & _).
  fold news last in Hlast.
  set (SP := setDebugLoc (dbg (RedundantCast p)) (new_SandboxedPtr last PtrTy))
    in *.
  assert (Hshape : forall c k,
            (k < fresh s1)%nat ->
            (exists pre0, pre c = pre0 ++ [SP]) ->
            exists pre0, pre (eraseFromParent k c) = pre0 ++ [SP]).
  { intros c k Hk [pre0 Hc]. exists (erase_in k pre0).
    cbn [pre eraseFromParent]. rewrite Hc, erase_in_app. f_equal.
    apply (erase_in_above (fresh s1)); [|exact Hk].
    constructor; [cbn; lia | constructor]. }
  set (front := folded_front (PtrMask this) (fresh s1) (Truncated0 p)
                  (acquireMemBase this s).1) in *.
  set (AO := setDebugLoc (dbg (RedundantAdd p))
                         (new_AddOffset last (Offset p))) in *.
  set (copied := replaced_cursor (fn s1) front AO SP OpNum) in *.
  cbn zeta in Hs'.
  set (c3 := if use_empty copied (inst_id (RedundantCast p))
             then eraseFromParent (inst_id (RedundantCast p)) copied
             else copied) in *.
  assert (H0 : exists pre0, pre copied = pre0 ++ [SP]).
  { exists (pre (fn s1) ++ front ++ [AO]). cbn [pre copied replaced_cursor].
    now rewrite <- !app_assoc. }
  assert (H3 : exists pre0, pre c3 = pre0 ++ [SP]).
  { subst c3. destruct (use_empty copied _); [|exact H0].
    apply Hshape; [eapply Hbelow; exact HC | exact H0]. }
  assert (Hc3 : cur c3 = cur copied).
  { subst c3. now destruct (use_empty copied _). }
  rewrite Hs'. cbn [fn].
  split; [|split; [|lia]].
  - destruct (use_empty c3 _); [|exact H3].
    apply Hshape; [eapply Hbelow; exact HA | exact H3].
  - destruct (use_empty c3 _); cbn [cur eraseFromParent]; rewrite Hc3;
      cbn [cur copied replaced_cursor]; now rewrite Hcur.
Qed.

Lemma general_seq_last Mask n Ptr PtrTy mb :
  let news := general_seq Mask n Ptr PtrTy mb in
  exists front,
    news = front ++ [new_inst (last_id n news) IntToPtr PtrTy
                              [InstRef (last_id n news - 1)]] /\
    (n <= last_id n news)%nat.
Proof.
  unfold general_seq, last_id.
  destruct Mask as [Mask|]; cbn [length].
  - replace (n + 5 - 1)%nat with (n + 4)%nat by lia.
    replace (n + 4 - 1)%nat with (n + 3)%nat by lia.
    exists [ new_inst n PtrToInt I32 [Ptr];
             new_inst (n + 1) (BinaryOperator And) I32 [InstRef n; Mask];
             new_inst (n + 2) ZExt I64 [InstRef (n + 1)];
             new_inst (n + 3) (BinaryOperator Add) I64
                      [mb; InstRef (n + 2)] ].
    split; [reflexivity | lia].
  - replace (n + 4 - 1)%nat with (n + 3)%nat by lia.
    replace (n + 3 - 1)%nat with (n + 2)%nat by lia.
    exists [ new_inst n PtrToInt I32 [Ptr];
             new_inst (n + 1) ZExt I64 [InstRef n];
             new_inst (n + 2) (BinaryOperator Add) I64
                      [mb; InstRef (n + 1)] ].
    split; [reflexivity | lia].
Qed.

Lemma sandboxPtrOperand_shape OpNum fca s :
  let s1 := (acquireMemBase this s).2 in
  let Ptr := getOperand (cur (fn s)) OpNum in
  let s' := sandboxPtrOperand W sz this OpNum fca s in
  (fca = true ->
   ids_below (fresh s) (all_insts (fn s)) /\
   first_class_access (cur (fn s))) ->
  exists pre0 SandboxedPtr,
    pre (fn s') = pre0 ++ [SandboxedPtr] /\
    opcode SandboxedPtr = IntToPtr /\
    inst_ty SandboxedPtr = getType (fn s1) Ptr /\
    (fresh s <= inst_id SandboxedPtr)%nat /\
    cur (fn s') =
      setOperand (cur (fn s)) OpNum (InstRef (inst_id SandboxedPtr)).
Proof.
  intros s1 Ptr s' Hfca.
  pose proof (acquire_cur this s) as Hcur. fold s1 in Hcur.
  pose proof (acquire_fresh_le this s) as Hfresh. fold s1 in Hfresh.
  destruct (recognize W sz (fn s1) fca Ptr) as [p|] eqn:Hrec.
  - assert (fca = true) as -> by (destruct fca; [reflexivity | discriminate]).
    destruct (Hfca eq_refl) as [Hids Hacc].
    destruct (sandbox_folded_shape OpNum s p Hids Hacc Hrec)
      as ((pre0 & Hpre) & Hc & Hlast).
    fold s1 Ptr s' in Hpre, Hc, Hlast.
    eexists pre0, _. split; [exact Hpre|].
    split; [reflexivity|]. split; [reflexivity|].
    split; [exact Hlast | exact Hc].
  - subst s'. unfold sandboxPtrOperand.
    rewrite (rewrite_general W sz this OpNum fca s Hrec). fold s1 Ptr.
    destruct (general_seq_last (PtrMask this) (fresh s1) Ptr
                (getType (fn s1) Ptr) (acquireMemBase this s).1)
      as (front & Hnews & Hlast).
    unfold rewritten. cbn [fn pre cur].
    eexists (pre (fn s1) ++ front), _.
    split; [rewrite <- app_assoc; f_equal; exact Hnews|].
    split; [reflexivity|]. split; [reflexivity|].
    split; [cbn [inst_id new_inst]; lia|]. now rewrite Hcur.
Qed.

Lemma sandboxPtrOperand_differs ks OpNum fca s :
  In OpNum ks ->
  (fca = true ->
   ids_below (fresh s) (all_insts (fn s)) /\
   first_class_access (cur (fn s))) ->
  differs_at ks (cur (fn s))
             (cur (fn (sandboxPtrOperand W sz this OpNum fca s))).
Proof.
  intros Hin Hfca.
  destruct (sandboxPtrOperand_shape OpNum fca s Hfca)
    as (pre0 & SP & _ & _ & _ & _ & ->).
  now apply differs_at_set.
Qed.

Lemma sandboxLenOperand_differs ks OpNum s :
  In OpNum ks ->
  differs_at ks (cur (fn s)) (cur (fn (sandboxLenOperand this OpNum s))).
Proof.
  intros Hin. unfold sandboxLenOperand.
  destruct (PtrMask this); [|apply differs_at_refl].
  cbn. now apply differs_at_set.
Qed.

End Rewritten.

(** X3. The function driver replaces operands at the positions of its
    dispatch only.  For a load it is operand 0, for a store operand 1, for a
    bulk copy or move operands 0, 1 and 2, for a bulk set operands 0 and 2,
    for the atomic load and compare-exchange operand 0, for the atomic store,
    read-modify-write and is-lock-free operand 1.  The visit of such an
    instruction succeeds and leaves its id, opcode, type, debug location,
    name and number of operands as they were, and every other operand (the
    stored value, the fill byte, alignment and volatile flags, the memory
    order, the callee) too. *)
Theorem only_dispatched_operands_change (W : Z) (sz : type -> Z)
    (this : SandboxMemoryAccesses) (s : state) :
  ids_below (fresh s) (all_insts (fn s)) ->
  is_site (cur (fn s)) = true ->
  exists s',
    visit W sz this s = Ok s' /\
    differs_at (sandboxed_operands (cur (fn s))) (cur (fn s)) (cur (fn s')).
Proof.
  intros Hids Hsite. unfold visit, sandboxed_operands.
  assert (Hptr : forall ks OpNum,
            In OpNum ks -> first_class_access (cur (fn s)) ->
            differs_at ks (cur (fn s))
              (cur (fn (sandboxPtrOperand W sz this OpNum true s)))).
  { intros ks OpNum Hin Hacc. apply sandboxPtrOperand_differs; auto. }
  assert (Hbulk : forall ks OpNum s0,
            In OpNum ks ->
            differs_at ks (cur (fn s0))
              (cur (fn (sandboxPtrOperand W sz this OpNum false s0)))).
  { intros ks OpNum s0 Hin. apply sandboxPtrOperand_differs;
      [exact Hin | discriminate]. }
  destruct (isa_LoadInst (cur (fn s))) eqn:ELoad.
  { eexists. split; [reflexivity|]. apply Hptr; [now left|].
    left. unfold isa_LoadInst in ELoad. now destruct (opcode (cur (fn s))). }
  destruct (isa_StoreInst (cur (fn s))) eqn:EStore.
  { eexists. split; [reflexivity|]. apply Hptr; [now left|].
    right. left. unfold isa_StoreInst in EStore.
    now destruct (opcode (cur (fn s))). }
  destruct (isa_MemCpyInst (cur (fn s)) || isa_MemMoveInst (cur (fn s)))
    eqn:ECpy.
  { eexists. split; [reflexivity|].
    eapply differs_at_trans; [apply (Hbulk _ 0%nat); cbn; tauto|].
    eapply differs_at_trans; [apply (Hbulk _ 1%nat); cbn; tauto|].
    apply sandboxLenOperand_differs. cbn. tauto. }
  destruct (isa_MemSetInst (cur (fn s))) eqn:ESet.
  { eexists. split; [reflexivity|].
    eapply differs_at_trans; [apply (Hbulk _ 0%nat); cbn; tauto|].
    apply sandboxLenOperand_differs. cbn. tauto. }
  apply orb_false_elim in ECpy as [ECpy EMove].
  unfold is_site, sandboxed_atomic in Hsite.
  rewrite ELoad, EStore, ECpy, EMove, ESet in Hsite. cbn [orb] in Hsite.
  destruct (dyn_cast_IntrinsicInst (cur (fn s))) as [iid|] eqn:EI;
    [|discriminate].
  assert (Hacc : first_class_access (cur (fn s))).
  { right. right. now apply intrinsic_is_call in EI. }
  destruct iid; try discriminate;
    (eexists; split; [reflexivity|]); apply Hptr; auto; now left.
Qed.

(** X4. The sandboxed pointer has the type of the pointer it replaces.  On
    both paths, and whatever the cleanup erases, the last of the instructions
    right before the rewritten one is a new integer-to-pointer cast of the
    type of the old operand, and the operand is replaced by its result. *)
Theorem sandboxed_pointer_keeps_type (W : Z) (sz : type -> Z)
    (this : SandboxMemoryAccesses) (OpNum : nat) (fca : bool) (s : state) :
  let Ptr := getOperand (cur (fn s)) OpNum in
  let s' := sandboxPtrOperand W sz this OpNum fca s in
  (fca = true ->
   ids_below (fresh s) (all_insts (fn s)) /\
   first_class_access (cur (fn s))) ->
  (OpNum < length (operands (cur (fn s))))%nat ->
  defined_below (fresh s) Ptr ->
  exists pre0 SandboxedPtr,
    pre (fn s') = pre0 ++ [SandboxedPtr] /\
    opcode SandboxedPtr = IntToPtr /\
    inst_ty SandboxedPtr = getType (fn s) Ptr /\
    (fresh s <= inst_id SandboxedPtr)%nat /\
    getOperand (cur (fn s')) OpNum = InstRef (inst_id SandboxedPtr).
Proof.
  intros Ptr s' Hfca Hop HPtr.
  destruct (sandboxPtrOperand_shape W sz this OpNum fca s Hfca)
    as (pre0 & SP & Hpre & Hopc & Hty & Hid & Hcur).
  exists pre0, SP. split; [exact Hpre|]. split; [exact Hopc|].
  split; [|split; [exact Hid|]].
  - rewrite Hty. now apply getType_acquire.
  - subst s'. rewrite Hcur. now apply getOperand_setOperand_eq.
Qed.

(** *** The module initializer and the propagation of the fatal error *)



Section Fatal.

Variable W : Z.
Variable sz : type -> Z.
Variable this : SandboxMemoryAccesses.

Lemma visit_fatal s msg :
  visit W sz this s = FatalError msg -> msg = fatal_message.
Proof.
  unfold visit.
  assert (Hcheck : checkDoesNotHavePointerOperands s = FatalError msg ->
                   msg = fatal_message).
  { destruct (check_outcome s) as [-> | ->]; congruence. }
  destruct (isa_LoadInst _); [discriminate|].
  destruct (isa_StoreInst _); [discriminate|].
  destruct (_ || _); [discriminate|].
  destruct (isa_MemSetInst _); [discriminate|].
  destruct (dyn_cast_IntrinsicInst _) as [[]|];
    try discriminate; try exact Hcheck.
  destruct (_ && _); [exact Hcheck | discriminate].
Qed.

Lemma iterate_fatal fuel : forall s msg,
  iterate W sz this fuel s = FatalError msg -> msg = fatal_message.
Proof.
  induction fuel as [|fuel IH]; intros s msg; cbn [iterate bind];
    [discriminate|].
  destruct (visit W sz this s) as [s1| |] eqn:Hvisit; cbn [bind];
    try discriminate.
  - destruct (advance (fn s1)); [apply IH | discriminate].
  - intros [= <-]. now apply visit_fatal in Hvisit.
Qed.

Lemma runOnFunction_fatal Func n msg :
  runOnFunction W sz this Func n = FatalError msg -> msg = fatal_message.
Proof.
  unfold runOnFunction. destruct (enter [] Func); [|discriminate].
  destruct (iterate W sz this _ _) as [s'| |] eqn:Hit; cbn [bind];
    try discriminate.
  intros [= <-]. now apply iterate_fatal in Hit.
Qed.

Lemma runOnFunctions_fatal_intro Fs1 : forall n Func Fs2 Fs1' n1 msg,
  runOnFunctions W sz this Fs1 n = Ok (Fs1', n1) ->
  runOnFunction W sz this Func n1 = FatalError msg ->
  runOnFunctions W sz this (Fs1 ++ Func :: Fs2) n = FatalError msg.
Proof.
  induction Fs1 as [|G Fs1 IH]; intros n Func Fs2 Fs1' n1 msg;
    cbn [runOnFunctions app bind].
  - intros [= <- <-] ->. reflexivity.
  - destruct (runOnFunction W sz this G n) as [[G' n2]| |]; cbn [bind];
      try discriminate.
    cbn [fst snd].
    destruct (runOnFunctions W sz this Fs1 n2) as [[Fs' n3]| |] eqn:E;
      cbn [bind]; try discriminate.
    intros [= <- <-] Hfatal. cbn [fst snd] in *.
    now rewrite (IH n2 Func Fs2 Fs' n3 msg E Hfatal).
Qed.

Lemma runOnFunctions_fatal_elim Fs : forall n msg,
  runOnFunctions W sz this Fs n = FatalError msg ->
  exists Fs1 Func Fs2 Fs1' n1,
    Fs = Fs1 ++ Func :: Fs2 /\
    runOnFunctions W sz this Fs1 n = Ok (Fs1', n1) /\
    runOnFunction W sz this Func n1 = FatalError msg.
Proof.
  induction Fs as [|G Fs IH]; intros n msg; cbn [runOnFunctions bind];
    [discriminate|].
  destruct (runOnFunction W sz this G n) as [[G' n2]| |] eqn:EG; cbn [bind];
    try discriminate.
  - cbn [fst snd].
    destruct (runOnFunctions W sz this Fs n2) as [[Fs' n3]| |] eqn:E;
      cbn [bind]; try discriminate.
    intros [= ->].
    destruct (IH n2 msg E) as (Fs1 & Func & Fs2 & Fs1' & n1 & -> & H1 & H2).
    exists (G :: Fs1), Func, Fs2, (G' :: Fs1'), n1.
    split; [reflexivity|]. split; [|exact H2].
    cbn [runOnFunctions bind]. rewrite EG. cbn [bind fst snd].
    now rewrite H1.
  - intros [= ->]. exists [], G, Fs, [], n. auto.
Qed.

End Fatal.

(** X6. One rejected instruction stops the whole pass.  The run on a module
    ends in a fatal error exactly when, going through the functions in
    order, the functions before some function are rewritten and that
    function ends in the fatal error; the later functions are not looked at
    and no module is returned.  The only message the pass ever reports is the
    fixed text of the validator. *)
Theorem fatal_error_stops_module (W : Z) (sz : type -> Z) (M : module)
    (n0 : nat) (msg : string) :
  let this := (initialize W M).1 in
  (runOnModule W sz M n0 = FatalError msg <->
   exists Fs1 Func Fs2 Fs1' n1,
     functions M = Fs1 ++ Func :: Fs2 /\
     runOnFunctions W sz this Fs1 n0 = Ok (Fs1', n1) /\
     runOnFunction W sz this Func n1 = FatalError msg) /\
  (runOnModule W sz M n0 = FatalError msg -> msg = fatal_message).
Proof.
  intros this. unfold runOnModule.
  pose proof (initialize_functions W M) as Hfun. subst this.
  destruct (initialize W M) as [this M1]. cbn [fst snd] in *. rewrite Hfun.
  assert (Hiff : runOnFunctions W sz this (functions M) n0 = FatalError msg <->
                 exists Fs1 Func Fs2 Fs1' n1,
                   functions M = Fs1 ++ Func :: Fs2 /\
                   runOnFunctions W sz this Fs1 n0 = Ok (Fs1', n1) /\
                   runOnFunction W sz this Func n1 = FatalError msg).
  { split; [apply runOnFunctions_fatal_elim|].
    intros (Fs1 & Func & Fs2 & Fs1' & n1 & -> & H1 & H2).
    eapply runOnFunctions_fatal_intro; eassumption. }
  assert (Hbind : (rs <- runOnFunctions W sz this (functions M) n0 ;;
                   Ok (mkModule (globals M1) rs.1, rs.2)) = FatalError msg <->
                  runOnFunctions W sz this (functions M) n0 = FatalError msg).
  { destruct (runOnFunctions W sz this (functions M) n0) as [[Fs n1]| |];
      cbn [bind]; split; congruence || discriminate. }
  split; [now rewrite Hbind|].
  rewrite Hbind, Hiff.
  intros (Fs1 & Func & Fs2 & Fs1' & n1 & _ & _ & H).
  now apply runOnFunction_fatal in H.
Qed.

(** *** Functions without memory access *)

Lemma existsb_ext_In {A} (f g : A -> bool) (l : list A) :
  (forall x, In x l -> f x = g x) -> existsb f l = existsb g l.
Proof.
  induction l as [|a l IH]; intros H; cbn; [reflexivity|].
  rewrite (H a) by now left. rewrite IH; [reflexivity|].
  intros x Hx. apply H. now right.
Qed.

Lemma getType_ext c c' v :
  all_insts c = all_insts c' -> getType c v = getType c' v.
Proof.
  intros H. destruct v; try reflexivity. cbn. unfold lookup_inst.
  now rewrite H.
Qed.

Lemma rejected_ext c c' J :
  all_insts c = all_insts c' -> rejected c J = rejected c' J.
Proof.
  intros H. unfold rejected, hasPointerOperand. f_equal.
  rewrite !fold_orb_existsb. f_equal. apply existsb_ext_In.
  intros v _. now rewrite (getType_ext c c').
Qed.

Section SiteFree.

Variable W : Z.
Variable sz : type -> Z.
Variable this : SandboxMemoryAccesses.

Lemma visit_site_free s :
  is_site (cur (fn s)) = false ->
  visit W sz this s =
    if rejected (fn s) (cur (fn s)) then FatalError fatal_message else Ok s.
Proof.
  intros Hsite. unfold rejected.
  destruct (handled_kind (cur (fn s))) eqn:Hkind; cbn [negb andb].
  - unfold handled_kind in Hkind. fold (is_site (cur (fn s))) in Hkind.
    rewrite Hsite in Hkind. cbn [orb] in Hkind.
    unfold is_site, sandboxed_atomic in Hsite.
    repeat (apply orb_false_elim in Hsite as [Hsite ?]).
    unfold visit.
    repeat match goal with E : _ = false |- _ => rewrite E; clear E end.
    cbn [orb].
    destruct (dyn_cast_IntrinsicInst (cur (fn s))) as [iid|] eqn:EI.
    + apply intrinsic_is_call in EI.
      unfold isa_PtrToIntInst, isa_BitCastInst in Hkind.
      rewrite EI in Hkind. discriminate.
    + destruct (isa_PtrToIntInst (cur (fn s))); [reflexivity|].
      cbn in Hkind. now rewrite Hkind.
  - rewrite visit_unhandled by assumption.
    reflexivity.
Qed.

Lemma iterate_site_free mb n fuel : forall c,
  (length (remaining c) < fuel)%nat ->
  existsb is_site (cur c :: remaining c) = false ->
  if existsb (rejected c) (cur c :: remaining c)
  then iterate W sz this fuel (State c mb n) = FatalError fatal_message
  else exists c', to_function c' = to_function c /\
                  iterate W sz this fuel (State c mb n) = Ok (State c' mb n).
Proof.
  induction fuel as [|fuel IH]; intros c Hfuel Hsite; [lia|].
  cbn [existsb] in Hsite. apply orb_false_elim in Hsite as [Hcur Hrest].
  cbn [iterate existsb]. rewrite visit_site_free by exact Hcur. cbn [fn].
  destruct (rejected c (cur c)); cbn [bind orb]; [reflexivity|]. cbn [fn].
  destruct (advance c) as [c1|] eqn:Hadv.
  - destruct (advance_Some _ _ Hadv) as [Hfun Hrem].
    pose proof (advance_all_insts _ _ Hadv) as Hall.
    cbn [MemBase fresh].
    assert (Hlen : (length (remaining c1) < fuel)%nat).
    { assert (length (cur c1 :: remaining c1) = length (remaining c))
        by now rewrite Hrem.
      cbn [length] in H. lia. }
    specialize (IH c1 Hlen). rewrite Hrem in IH. specialize (IH Hrest).
    rewrite (existsb_ext_In (rejected c1) (rejected c)) in IH
      by (intros; now apply rejected_ext).
    destruct (existsb (rejected c) (remaining c)); [exact IH|].
    destruct IH as (c' & Hc' & Hit). exists c'. split; [congruence | exact Hit].
  - apply advance_None in Hadv. rewrite Hadv. cbn [existsb]. eauto.
Qed.

End SiteFree.

(** X7. A function without load, store, bulk memory intrinsic or sandboxed
    atomic is validated and nothing else.  [runOnFunction] ends in the fatal
    error when some instruction of a kind other than [ptrtoint] and [bitcast]
    has a pointer among its checked operands, and returns the function and
    the id supply as they were otherwise; a [ptrtoint] or [bitcast] never
    makes it fail. *)
Theorem site_free_function_validated (W : Z) (sz : type -> Z)
    (this : SandboxMemoryAccesses) (Func : function) (n : nat) (c : cursor) :
  to_function c = Func ->
  existsb is_site (concat Func) = false ->
  runOnFunction W sz this Func n =
    if existsb (rejected c) (concat Func)
    then FatalError fatal_message else Ok (Func, n).
Proof.
  intros Hc Hsite. unfold runOnFunction.
  destruct (enter [] Func) as [c0|] eqn:Henter.
  - apply enter_Some in Henter as [Hfun Hrem]. cbn [app] in Hfun.
    assert (Hfuel : (length (remaining c0) < length (concat Func))%nat).
    { rewrite <- Hrem. cbn. lia. }
    pose proof (iterate_site_free W sz this None n _ c0 Hfuel) as Hit.
    rewrite Hrem in Hit. specialize (Hit Hsite).
    rewrite (existsb_ext_In (rejected c0) (rejected c)) in Hit.
    2:{ intros J _. apply rejected_ext. unfold all_insts. congruence. }
    destruct (existsb (rejected c) (concat Func)).
    + now rewrite Hit.
    + destruct Hit as (c' & Hc' & ->). cbn [bind fn fresh]. congruence.
  - apply enter_None in Henter. exfalso.
    pose proof (cur_In c) as Hin. unfold all_insts in Hin.
    rewrite Hc, Henter in Hin. destruct Hin.
Qed.

(** *** The two lowering strategies compared *)

Lemma sandbox_offset_mod (W y : Z) :
  0 <= W <= 32 -> sandbox_offset W (wrap 32 y) = y mod 2 ^ W.
Proof.
  intros HW. unfold sandbox_offset, wrap.
  destruct (Z.ltb_spec W 32) as [Hlt|Hge].
  - rewrite land_mask_mod by lia. apply Z.mod_mod_divide.
    exists (2 ^ (32 - W)). rewrite <- Z.pow_add_r by lia. f_equal. lia.
  - now replace W with 32 by lia.
Qed.

Lemma sandbox_offset_add (W x C : Z) :
  0 <= W <= 32 -> 0 <= x < 2 ^ 32 -> 0 <= C ->
  let o := sandbox_offset W x + C in
  (o < 2 ^ W -> sandbox_offset W (wrap 32 (x + C)) = o) /\
  (2 ^ W <= o < 2 * 2 ^ W ->
   sandbox_offset W (wrap 32 (x + C)) = o - 2 ^ W).
Proof.
  intros HW Hx HC o. rewrite sandbox_offset_mod by assumption.
  assert (Hpos : 0 < 2 ^ W) by (apply Z.pow_pos_nonneg; lia).
  assert (Ho : sandbox_offset W x = x mod 2 ^ W).
  { rewrite <- (sandbox_offset_mod W x) by assumption.
    now rewrite wrap_small. }
  pose proof (Z.mod_pos_bound x (2 ^ W) Hpos) as Hb.
  rewrite <- Zplus_mod_idemp_l. subst o. rewrite Ho. split; intros H.
  - apply Z.mod_small. lia.
  - symmetry. apply (Zmod_unique _ _ 1); lia.
Qed.

(** X8. The folded path agrees with the general path as long as the access
    stays inside the sandbox.  For a pointer recognized as
    [inttoptr (add i32 X, C)], whose low 32 bits are therefore [X + C]
    modulo [2^32], the address built by the folded rewriting is the address
    the general rewriting builds for the same pointer whenever the masked
    [X] plus [C] is below [2^W].  Otherwise the two differ by exactly [2^W]:
    the general path wraps around to the start of the sandbox, the folded
    path goes on into the guard region. *)
Theorem folded_agrees_with_general (W : Z) (sz : type -> Z) (M : module)
    (OpNum : nat) (s : state) (p : folded) (m : Sem.machine) :
  let this := (initialize W M).1 in
  let s1 := (acquireMemBase this s).2 in
  let MemBaseV := (acquireMemBase this s).1 in
  let Ptr := getOperand (cur (fn s)) OpNum in
  let PtrTy := getType (fn s1) Ptr in
  let T := getPointerElementType PtrTy in
  let X := Truncated0 p in
  let C := Offset p in
  let folded := folded_seq (PtrMask this) (fresh s1) X C PtrTy MemBaseV in
  let general := general_seq (PtrMask this) (fresh s1) Ptr PtrTy MemBaseV in
  let addr_folded :=
    Sem.eval (Sem.run m folded) (InstRef (last_id (fresh s1) folded)) in
  let addr_general :=
    Sem.eval (Sem.run m general) (InstRef (last_id (fresh s1) general)) in
  let base := Sem.eval m MemBaseV in
  let x := Sem.eval m X in
  let address o := wrap (Sem.pointer_bits m) (wrap 64 (base + o)) in
  0 <= W <= 32 ->
  0 <= sz T < 2 ^ 63 ->
  recognize W sz (fn s1) true Ptr = Some p ->
  defined_below (fresh s) X ->
  defined_below (fresh s) Ptr ->
  match MemBase s with
  | Some v => defined_below (fresh s) v
  | None => True
  end ->
  0 <= x < 2 ^ 32 ->
  wrap 32 (Sem.eval m Ptr) = wrap 32 (x + C) ->
  (rewritePtrOperand W sz this OpNum true s).1 = rewritten s1 folded OpNum /\
  (rewritePtrOperand W sz this OpNum false s).1 =
    rewritten s1 general OpNum /\
  addr_folded = address (sandbox_offset W x + C) /\
  (sandbox_offset W x + C < 2 ^ W ->
   addr_general = address (sandbox_offset W x + C) /\
   addr_folded = addr_general) /\
  (2 ^ W <= sandbox_offset W x + C ->
   addr_general = address (sandbox_offset W x + C - 2 ^ W) /\
   sandbox_offset W x + C < 2 * 2 ^ W).
Proof.
  intros this s1 MemBaseV Ptr PtrTy T X C folded general addr_folded
    addr_general base x address HW Hsz Hrec HX HPtr HMB Hx Hlow.
  pose proof (acquire_fresh_le this s) as Hfresh. fold s1 in Hfresh.
  pose proof (acquire_defined_below this s HMB) as Hmb. fold s1 MemBaseV in Hmb.
  assert (HX1 : defined_below (fresh s1) X)
    by (eapply defined_below_mono; eassumption).
  assert (HPtr1 : defined_below (fresh s1) Ptr)
    by (eapply defined_below_mono; eassumption).
  pose proof (PtrMask_defined_below W M (fresh s1) ltac:(lia)) as HMask.
  fold this in HMask.
  pose proof (proj1 (recognize_Some_iff W sz _ _ _ _) Hrec)
    as (_ & _ & HC0 & HCmax).
  fold Ptr PtrTy T C in HC0, HCmax.
  rewrite (MaxOffset_exact W sz T HW Hsz) in HCmax.
  assert (Hf : addr_folded = address (sandbox_offset W x + C)).
  { subst addr_folded folded address.
    rewrite (run_folded_seq m _ _ X C PtrTy MemBaseV HX1 Hmb HMask).
    subst this. rewrite masked_initialize by lia. fold base x.
    f_equal. unfold wrap.
    rewrite <- Zplus_mod. f_equal. lia. }
  assert (Hg : addr_general =
               address (sandbox_offset W (wrap 32 (x + C)))).
  { subst addr_general general address.
    rewrite (run_general_seq m _ _ Ptr PtrTy MemBaseV HPtr1 Hmb HMask).
    subst this. rewrite masked_initialize by lia. fold base.
    now rewrite Hlow. }
  destruct (sandbox_offset_add W x C HW Hx HC0) as [Hin Hout].
  pose proof (sandbox_offset_bound W x HW Hx) as Hso.
  split; [now rewrite (rewrite_folded W sz this OpNum true s p Hrec)|].
  split; [now rewrite (rewrite_general W sz this OpNum false s eq_refl)|].
  split; [exact Hf|]. split.
  - intros Hlt. rewrite Hg, Hf, (Hin Hlt). split; reflexivity.
  - intros Hge. rewrite Hg, Hout by lia. split; [reflexivity | lia].
Qed.

(** *** Bulk memory operations *)

Lemma eval_exec_below m K n v :
  defined_below n v -> (n <= inst_id K)%nat ->
  Sem.eval (Sem.exec m K) v = Sem.eval m v.
Proof.
  intros Hv HK. unfold Sem.exec. destruct (Sem.compute m K); [|reflexivity].
  now apply (eval_set_reg_below m n).
Qed.

Lemma eval_run_below l : forall m n v,
  defined_below n v -> Forall (fun K => (n <= inst_id K)%nat) l ->
  Sem.eval (Sem.run m l) v = Sem.eval m v.
Proof.
  unfold Sem.run. induction l as [|K l IH]; intros m n v Hv Hl; cbn;
    [reflexivity|].
  apply Forall_cons in Hl as [HK Hl].
  rewrite (IH _ n) by assumption. now apply (eval_exec_below m K n).
Qed.

Lemma pointer_bits_run l : forall m,
  Sem.pointer_bits (Sem.run m l) = Sem.pointer_bits m.
Proof.
  unfold Sem.run. induction l as [|K l IH]; intros m; cbn; [reflexivity|].
  rewrite IH. unfold Sem.exec. now destruct (Sem.compute m K).
Qed.

Lemma run_app m l1 l2 : Sem.run m (l1 ++ l2) = Sem.run (Sem.run m l1) l2.
Proof. apply fold_left_app. Qed.

Lemma general_seq_ids Mask n Ptr PtrTy mb :
  let N := general_seq Mask n Ptr PtrTy mb in
  Forall (fun K => (n <= inst_id K)%nat) N /\
  (n < n + length N)%nat /\ last_id n N = (n + length N - 1)%nat.
Proof.
  unfold general_seq, last_id, new_inst.
  destruct Mask; cbn [length]; (split; [|split; [lia | reflexivity]]);
    split_Forall; cbn; lia.
Qed.

Lemma sandbox_bulk_cached W sz this OpNum s mb :
  MemBase s = Some mb ->
  sandboxPtrOperand W sz this OpNum false s =
    rewritten s (general_seq (PtrMask this) (fresh s)
                   (getOperand (cur (fn s)) OpNum)
                   (getType (fn s) (getOperand (cur (fn s)) OpNum)) mb)
              OpNum.
Proof.
  intros HMB. rewrite sandbox_bulk_operand. unfold acquireMemBase.
  now rewrite HMB.
Qed.

Lemma getOperand_defined n Inst k :
  Forall (defined_below n) (operands Inst) ->
  defined_below n (getOperand Inst k).
Proof.
  intros H. unfold getOperand.
  destruct (operands Inst !! k) as [v|] eqn:E; cbn; [|exact I].
  rewrite Forall_forall in H. apply H. eapply list_elem_of_lookup_2. exact E.
Qed.

(** X9. After the rewriting of a bulk copy or move both pointers are
    sandboxed and the length is masked.  The visit puts the general sequence
    for the destination, the general sequence for the source and, when
    [W < 32], the [and] of the length right before the instruction, in this
    order, and erases nothing; after their execution operands 0 and 1 hold
    the base plus the masked low 32 bits of the old destination and source,
    and operand 2 the masked old length. *)
Theorem bulk_copy_sandboxed (W : Z) (sz : type -> Z) (M : module)
    (s : state) (m : Sem.machine) :
  let this := (initialize W M).1 in
  let Inst := cur (fn s) in
  let s1 := (acquireMemBase this s).2 in
  let base := Sem.eval m (acquireMemBase this s).1 in
  let sandboxed v :=
    wrap (Sem.pointer_bits m)
         (wrap 64 (base + sandbox_offset W (wrap 32 (Sem.eval m v)))) in
  0 <= W <= 32 ->
  isa_MemCpyInst Inst || isa_MemMoveInst Inst = true ->
  (3 <= length (operands Inst))%nat ->
  Forall (defined_below (fresh s)) (operands Inst) ->
  match MemBase s with
  | Some v => defined_below (fresh s) v
  | None => True
  end ->
  exists s' news,
    visit W sz this s = Ok s' /\
    before (fn s') = before (fn s1) /\
    pre (fn s') = pre (fn s1) ++ news /\
    post (fn s') = post (fn s) /\
    after (fn s') = after (fn s) /\
    let m' := Sem.run m news in
    Sem.eval m' (getOperand (cur (fn s')) 0) = sandboxed (getOperand Inst 0) /\
    Sem.eval m' (getOperand (cur (fn s')) 1) = sandboxed (getOperand Inst 1) /\
    Sem.eval m' (getOperand (cur (fn s')) 2) =
      sandbox_offset W (Sem.eval m (getOperand Inst 2)).
Proof.
  intros this Inst s1 base sandboxed HW Hbulk Hlen Hops HMB.
  pose proof (acquire_cur this s) as Hcur. fold s1 Inst in Hcur.
  pose proof (acquire_post this s) as Hpost. fold s1 in Hpost.
  pose proof (acquire_after this s) as Hafter. fold s1 in Hafter.
  pose proof (acquire_MemBase this s) as HMB1. fold s1 in HMB1.
  pose proof (acquire_fresh_le this s) as Hfresh. fold s1 in Hfresh.
  pose proof (acquire_defined_below this s HMB) as Hmb. fold s1 in Hmb.
  set (mb := (acquireMemBase this s).1) in *.
  assert (Hop : forall k, defined_below (fresh s1) (getOperand Inst k)).
  { intros k. eapply defined_below_mono; [exact Hfresh|].
    now apply getOperand_defined. }
  assert (Hcall : opcode Inst = Call).
  { unfold isa_MemCpyInst, isa_MemMoveInst in Hbulk.
    destruct (dyn_cast_IntrinsicInst Inst) as [iid|] eqn:E; [|discriminate].
    now apply intrinsic_is_call in E. }
  (* the destination *)
  set (N0 := general_seq (PtrMask this) (fresh s1) (getOperand Inst 0)
               (getType (fn s1) (getOperand Inst 0)) mb).
  set (sA := rewritten s1 N0 0).
  assert (HA : sandboxPtrOperand W sz this 0 false s = sA).
  { now rewrite sandbox_bulk_operand. }
  destruct (general_seq_ids (PtrMask this) (fresh s1) (getOperand Inst 0)
              (getType (fn s1) (getOperand Inst 0)) mb) as (Hids0 & Hn0 & Hl0).
  fold N0 in Hids0, Hn0, Hl0.
  (* the source *)
  assert (HcurA : cur (fn sA) =
            setOperand Inst 0 (InstRef (last_id (fresh s1) N0))).
  { cbn. now rewrite Hcur. }
  assert (HP1 : getOperand (cur (fn sA)) 1 = getOperand Inst 1).
  { rewrite HcurA. now apply getOperand_setOperand_ne. }
  set (N1 := general_seq (PtrMask this) (fresh sA) (getOperand Inst 1)
               (getType (fn sA) (getOperand Inst 1)) mb).
  set (sB := rewritten sA N1 1).
  assert (HB : sandboxPtrOperand W sz this 1 false sA = sB).
  { rewrite (sandbox_bulk_cached W sz this 1 sA mb HMB1). now rewrite HP1. }
  destruct (general_seq_ids (PtrMask this) (fresh sA) (getOperand Inst 1)
              (getType (fn sA) (getOperand Inst 1)) mb) as (Hids1 & Hn1 & Hl1).
  fold N1 in Hids1, Hn1, Hl1.
  assert (HfA : fresh sA = (fresh s1 + length N0)%nat) by reflexivity.
  assert (HfB : fresh sB = (fresh sA + length N1)%nat) by reflexivity.
  assert (HcurB : cur (fn sB) =
            setOperand (setOperand Inst 0 (InstRef (last_id (fresh s1) N0)))
                       1 (InstRef (last_id (fresh sA) N1))).
  { cbn [sB rewritten fn cur]. now rewrite HcurA. }
  (* the values *)
  pose proof (PtrMask_defined_below W M (fresh s1) ltac:(lia)) as HMask0.
  pose proof (PtrMask_defined_below W M (fresh sA) ltac:(lia)) as HMask1.
  fold this in HMask0, HMask1.
  assert (Hv0 : Sem.eval (Sem.run m N0) (InstRef (last_id (fresh s1) N0)) =
                sandboxed (getOperand Inst 0)).
  { subst N0 sandboxed. rewrite run_general_seq by auto.
    subst this. now rewrite masked_initialize by lia. }
  assert (HmbA : defined_below (fresh sA) mb).
  { eapply defined_below_mono; [|exact Hmb]. lia. }
  assert (HopA : forall k, defined_below (fresh sA) (getOperand Inst k)).
  { intros k. eapply defined_below_mono; [|apply Hop]. lia. }
  assert (Hv1 : Sem.eval (Sem.run (Sem.run m N0) N1)
                         (InstRef (last_id (fresh sA) N1)) =
                sandboxed (getOperand Inst 1)).
  { subst N1 sandboxed. rewrite run_general_seq by auto.
    subst this. rewrite masked_initialize by lia.
    rewrite pointer_bits_run.
    rewrite !(eval_run_below N0 m (fresh s1)) by auto. reflexivity. }
  assert (Hkeep0 : Sem.eval (Sem.run (Sem.run m N0) N1)
                            (InstRef (last_id (fresh s1) N0)) =
                   sandboxed (getOperand Inst 0)).
  { rewrite (eval_run_below N1 _ (fresh sA)); [exact Hv0 | | exact Hids1].
    cbn [defined_below]. lia. }
  assert (Hlen2 : Sem.eval (Sem.run (Sem.run m N0) N1) (getOperand Inst 2) =
                  Sem.eval m (getOperand Inst 2)).
  { rewrite (eval_run_below N1 _ (fresh sA)) by auto.
    now rewrite (eval_run_below N0 _ (fresh s1)) by auto. }
  (* the visit *)
  assert (Hvisit : visit W sz this s =
                   Ok (sandboxLenOperand this 2 sB)).
  { unfold visit. fold Inst. unfold isa_LoadInst, isa_StoreInst.
    rewrite Hcall, Hbulk. now rewrite HA, HB. }
  assert (Hget0 : forall v2 J,
            J = setOperand (cur (fn sB)) 2 v2 \/ J = cur (fn sB) ->
            getOperand J 0 = InstRef (last_id (fresh s1) N0) /\
            getOperand J 1 = InstRef (last_id (fresh sA) N1)).
  { intros v2 J HJ.
    assert (H0 : getOperand (cur (fn sB)) 0 = InstRef (last_id (fresh s1) N0)).
    { rewrite HcurB, getOperand_setOperand_ne by lia.
      apply getOperand_setOperand_eq. lia. }
    assert (H1 : getOperand (cur (fn sB)) 1 = InstRef (last_id (fresh sA) N1)).
    { rewrite HcurB. apply getOperand_setOperand_eq. cbn.
      rewrite length_insert. lia. }
    destruct HJ as [-> | ->]; [|auto].
    now rewrite !getOperand_setOperand_ne by lia. }
  assert (Hget2 : getOperand (cur (fn sB)) 2 = getOperand Inst 2).
  { rewrite HcurB. now rewrite !getOperand_setOperand_ne by lia. }
  assert (HlenB : (2 < length (operands (cur (fn sB))))%nat).
  { rewrite HcurB. cbn. rewrite !length_insert. lia. }
  pose proof (initialize_PtrMask W M ltac:(lia)) as HPM. fold this in HPM.
  assert (HpreB : pre (fn sB) = pre (fn s1) ++ N0 ++ N1)
    by (cbn; now rewrite <- app_assoc).
  assert (HbeforeB : before (fn sB) = before (fn s1)) by reflexivity.
  assert (HpostB : post (fn sB) = post (fn s))
    by (rewrite <- Hpost; reflexivity).
  assert (HafterB : after (fn sB) = after (fn s))
    by (rewrite <- Hafter; reflexivity).
  clearbody sB sA.
  exists (sandboxLenOperand this 2 sB). unfold sandboxLenOperand.
  destruct (Z.ltb_spec W 32) as [Hlt|Hge].
  - rewrite HPM.
    set (And := mkInst (fresh sB) (BinaryOperator And) I32
                  [getOperand (cur (fn sB)) 2; ConstantInt 32 (2 ^ W - 1)]
                  None "").
    exists (N0 ++ N1 ++ [And]).
    split; [rewrite Hvisit; unfold sandboxLenOperand; now rewrite HPM|].
    unfold emit, insert_before_cur, set_cur.
    cbn [fn MemBase fresh before pre cur post after].
    split; [exact HbeforeB|].
    split; [rewrite HpreB; now rewrite <- !app_assoc|].
    split; [exact HpostB|]. split; [exact HafterB|].
    destruct (Hget0 (InstRef (fresh sB)) _ (or_introl eq_refl)) as [G0 G1].
    cbn zeta. rewrite G0, G1.
    rewrite getOperand_setOperand_eq by exact HlenB.
    cbn zeta. rewrite app_assoc, !run_app.
    set (m1 := Sem.run (Sem.run m N0) N1) in *.
    assert (Hexec : Sem.exec m1 And =
              Sem.set_reg (fresh sB)
                (Z.land (Sem.eval m1 (getOperand (cur (fn sB)) 2))
                        (Sem.eval m1 (ConstantInt 32 (2 ^ W - 1)))) m1)
      by reflexivity.
    cbn [Sem.run fold_left]. rewrite Hexec.
    rewrite !(eval_set_reg_below m1 (fresh sB))
      by (cbn [defined_below]; lia).
    rewrite eval_set_reg_same, Hkeep0, Hv1, Hget2, Hlen2.
    rewrite eval_mask by lia.
    split; [reflexivity|]. split; [reflexivity|].
    unfold sandbox_offset. now destruct (Z.ltb_spec W 32); [|lia].
  - rewrite HPM. exists (N0 ++ N1).
    split; [rewrite Hvisit; unfold sandboxLenOperand; now rewrite HPM|].
    split; [exact HbeforeB|]. split; [exact HpreB|].
    split; [exact HpostB|]. split; [exact HafterB|].
    destruct (Hget0 (InstRef 0) _ (or_intror eq_refl)) as [G0 G1].
    cbn zeta.
    rewrite G0, G1, Hget2, run_app, Hkeep0, Hv1, Hlen2.
    split; [reflexivity|]. split; [reflexivity|].
    unfold sandbox_offset. now destruct (Z.ltb_spec W 32); [lia|].
Qed.

(** *** How much the function grows *)

Lemma length_all_insts_erase k c :
  (length (all_insts (eraseFromParent k c)) <= length (all_insts c))%nat.
Proof. apply sublist_length, all_insts_erase_sublist. Qed.

Lemma length_all_insts_rewritten s N OpNum :
  length (all_insts (fn (rewritten s N OpNum))) =
    (length (all_insts (fn s)) + length N)%nat.
Proof.
  unfold rewritten. cbn [fn]. rewrite all_insts_Cursor, (all_insts_eq (fn s)).
  repeat (rewrite !length_app || cbn [length]). lia.
Qed.

Lemma length_all_insts_acquire this s :
  length (all_insts (fn (acquireMemBase this s).2)) =
    (length (all_insts (fn s)) +
     match MemBase s with Some _ => 0 | None => 1 end)%nat /\
  fresh (acquireMemBase this s).2 =
    (fresh s + match MemBase s with Some _ => 0 | None => 1 end)%nat.
Proof.
  unfold acquireMemBase. destruct (MemBase s); cbn [snd fn fresh].
  - lia.
  - rewrite all_insts_push_front. cbn [length]. lia.
Qed.

(** X10. What one sandboxed pointer costs.  Both lowering strategies create
    the same number of instructions: four, or five when [W < 32] puts the
    mask in, and one more for the load of the memory base the first time in
    a function.  The id supply advances by exactly that number; the function
    grows by that number on the general path, and by at most that number on
    the folded path, where only the erasure of the dead cast and add saves
    anything. *)
Theorem sandboxing_cost (W : Z) (sz : type -> Z)
    (this : SandboxMemoryAccesses) (OpNum : nat) (fca : bool) (s : state) :
  let s1 := (acquireMemBase this s).2 in
  let Ptr := getOperand (cur (fn s)) OpNum in
  let s' := sandboxPtrOperand W sz this OpNum fca s in
  let cost :=
    (match MemBase s with Some _ => 0 | None => 1 end +
     match PtrMask this with Some _ => 5 | None => 4 end)%nat in
  (fca = true ->
   ids_below (fresh s) (all_insts (fn s)) /\
   first_class_access (cur (fn s))) ->
  fresh s' = (fresh s + cost)%nat /\
  (length (all_insts (fn s')) <= length (all_insts (fn s)) + cost)%nat /\
  (recognize W sz (fn s1) fca Ptr = None ->
   length (all_insts (fn s')) = (length (all_insts (fn s)) + cost)%nat).
Proof.
  intros s1 Ptr s' cost Hfca.
  destruct (length_all_insts_acquire this s) as [Hlen1 Hfresh1].
  fold s1 in Hlen1, Hfresh1.
  destruct (recognize W sz (fn s1) fca Ptr) as [p|] eqn:Hrec.
  - assert (fca = true) as -> by (destruct fca; [reflexivity | discriminate]).
    destruct (Hfca eq_refl) as [Hids Hacc].
    pose proof (sandbox_folded W sz this OpNum s p Hids Hacc Hrec) as Hs'.
    fold s1 Ptr s' in Hs'. cbn zeta in Hs'.
    set (news := folded_seq (PtrMask this) (fresh s1) (Truncated0 p)
                   (Offset p) (getType (fn s1) Ptr)
                   (acquireMemBase this s).1) in *.
    destruct (folded_seq_operands (fun _ => True) (PtrMask this) (fresh s1)
                (Truncated0 p) (Offset p) (getType (fn s1) Ptr)
                (acquireMemBase this s).1 (dbg (RedundantAdd p))
                (dbg (RedundantCast p)) I I (fun _ _ => I) I (fun _ _ => I))
      as (_ & _ & HlenN & _).
    fold news in HlenN.
    assert (Hnews : length news =
              match PtrMask this with Some _ => 5%nat | None => 4%nat end).
    { subst news. unfold folded_seq. now destruct (PtrMask this). }
    set (copied := replaced_cursor _ _ _ _ _) in Hs'.
    assert (Hcopied : length (all_insts copied) =
                      (length (all_insts (fn s1)) + length news)%nat).
    { subst copied. unfold replaced_cursor.
      rewrite all_insts_Cursor, (all_insts_eq (fn s1)).
      repeat (rewrite !length_app || cbn [length]).
      rewrite <- HlenN. rewrite length_app. cbn [length]. lia. }
    rewrite Hs'. cbn [fn fresh]. subst cost.
    split; [lia|]. split; [|discriminate].
    set (c3 := if use_empty copied (inst_id (RedundantCast p))
               then eraseFromParent (inst_id (RedundantCast p)) copied
               else copied).
    assert (H3 : (length (all_insts c3) <= length (all_insts copied))%nat).
    { subst c3. destruct (use_empty copied _); [|lia].
      apply length_all_insts_erase. }
    assert (H4 : (length (all_insts
                    (if use_empty c3 (inst_id (RedundantAdd p))
                     then eraseFromParent (inst_id (RedundantAdd p)) c3
                     else c3)) <= length (all_insts c3))%nat).
    { destruct (use_empty c3 _); [|lia]. apply length_all_insts_erase. }
    lia.
  - assert (Hs' : s' = rewritten s1 (general_seq (PtrMask this) (fresh s1) Ptr
                                       (getType (fn s1) Ptr)
                                       (acquireMemBase this s).1) OpNum).
    { subst s'. unfold sandboxPtrOperand.
      now rewrite (rewrite_general W sz this OpNum fca s Hrec). }
    rewrite Hs', length_all_insts_rewritten. cbn [fresh rewritten].
    assert (Hnews : length (general_seq (PtrMask this) (fresh s1) Ptr
                              (getType (fn s1) Ptr)
                              (acquireMemBase this s).1) =
                    match PtrMask this with
                    | Some _ => 5%nat
                    | None => 4%nat
                    end).
    { unfold general_seq. now destruct (PtrMask this). }
    subst cost. rewrite Hnews. repeat split; lia.
Qed.

(** *** Every memory access goes through a sandboxed pointer *)

Lemma all_insts_passed c :
  all_insts c = passed c ++ cur c :: remaining c.
Proof.
  rewrite all_insts_eq. unfold passed, remaining. now rewrite <- app_assoc.
Qed.

Lemma In_passed_all c J : In J (passed c) -> In J (all_insts c).
Proof. rewrite all_insts_passed, in_app_iff. tauto. Qed.

Lemma advance_passed c c' :
  advance c = Some c' -> passed c' = passed c ++ [cur c].
Proof.
  intros H. pose proof (advance_all_insts _ _ H) as Hall.
  destruct (advance_Some _ _ H) as [_ Hrem].
  rewrite !all_insts_passed, <- Hrem in Hall.
  change (passed c ++ cur c :: cur c' :: remaining c')
    with (passed c ++ [cur c] ++ cur c' :: remaining c') in Hall.
  rewrite app_assoc in Hall. now apply app_inv_tail in Hall.
Qed.

Lemma mediated_mono n0 l l' J :
  (forall K, In K l -> opcode K = IntToPtr -> In K l') ->
  mediated n0 l J -> mediated n0 l' J.
Proof.
  intros Hl HJ pos Hpos. destruct (HJ pos Hpos) as (K & HK & Hop & Hid & Hk).
  exists K. auto.
Qed.

Lemma last_setOperand Inst n v :
  (n < length (operands Inst) - 1)%nat ->
  last (operands (setOperand Inst n v)) = last (operands Inst).
Proof.
  unfold setOperand. cbn [operands]. generalize (operands Inst). intros l.
  revert n. induction l as [|a l IH]; intros n Hn; [reflexivity|].
  destruct n as [|n]; cbn [length] in Hn.
  - cbn. destruct l; [cbn in Hn; lia | reflexivity].
  - change (<[S n:=v]> (a :: l)) with (a :: <[n:=v]> l).
    assert (Hl : (n < length l - 1)%nat) by lia.
    specialize (IH n Hl).
    destruct l as [|b l]; [cbn in Hl; lia|].
    destruct (<[n:=v]> (b :: l)) as [|b' l'] eqn:E.
    + apply (f_equal length) in E. rewrite length_insert in E. discriminate.
    + change (last (a :: b' :: l')) with (last (b' :: l')).
      change (last (a :: b :: l)) with (last (b :: l)). exact IH.
Qed.

Lemma kind_setOperand Inst n v :
  (n < length (operands Inst) - if isa_CallInst Inst then 1 else 0)%nat ->
  dyn_cast_IntrinsicInst (setOperand Inst n v) = dyn_cast_IntrinsicInst Inst.
Proof.
  unfold dyn_cast_IntrinsicInst, getCalledValue, isa_CallInst.
  cbn [opcode setOperand]. destruct (opcode Inst); try reflexivity.
  intros Hn. now rewrite last_setOperand.
Qed.

Lemma positions_setOperand Inst n v :
  (n < length (operands Inst) - if isa_CallInst Inst then 1 else 0)%nat ->
  pointer_operands (setOperand Inst n v) = pointer_operands Inst /\
  sandboxed_operands (setOperand Inst n v) = sandboxed_operands Inst /\
  (well_shaped Inst -> well_shaped (setOperand Inst n v)).
Proof.
  intros Hn. pose proof (kind_setOperand Inst n v Hn) as Hkind.
  assert (Hs : sandboxed_operands (setOperand Inst n v) =
               sandboxed_operands Inst).
  { unfold sandboxed_operands, isa_MemCpyInst, isa_MemMoveInst,
      isa_MemSetInst. rewrite Hkind. reflexivity. }
  split; [|split; [exact Hs|]].
  - unfold pointer_operands, isa_MemCpyInst, isa_MemMoveInst,
      isa_MemSetInst. rewrite Hkind. reflexivity.
  - unfold well_shaped. rewrite Hs. intros H pos Hpos.
    specialize (H pos Hpos). unfold setOperand at 1 2. cbn [operands].
    rewrite length_insert. exact H.
Qed.

Lemma well_shaped_length Inst pos :
  well_shaped Inst -> In pos (sandboxed_operands Inst) ->
  (pos < length (operands Inst))%nat /\
  (pos < length (operands Inst) - if isa_CallInst Inst then 1 else 0)%nat.
Proof.
  intros H Hpos. specialize (H pos Hpos). revert H.
  destruct (isa_CallInst Inst); lia.
Qed.

Section Mediation.

Variable W : Z.
Variable sz : type -> Z.
Variable this : SandboxMemoryAccesses.
Hypothesis Hok : pass_ok this.
Variable m0 : nat.

Lemma mediation_prim s s' :
  mediation m0 s -> prim this s s' -> mediation m0 s'.
Proof.
  intros (Hids & Hle & Hshape & Hdone) Hprim.
  pose proof (prim_fresh_le this s s' Hprim) as Hfresh.
  destruct Hprim
    as [s HMB | s N OpNum Hne Hseq _ Hacc Hsrc | s K HK HKcur HKop He].
  - pose proof (acquire_ids_below this s Hids) as Hids'.
    pose proof (remaining_push_front
                  (mkInst (fresh s) Load I64 [MemBaseVar this] None "mem_base")
                  (fn s)) as Hrem.
    unfold mediation. revert Hids' Hfresh. unfold acquireMemBase.
    rewrite HMB. cbn [snd fn fresh MemBase]. intros Hids' Hfresh.
    split; [exact Hids'|]. split; [lia|]. split.
    + injection Hrem as _ Hrem. now rewrite Hrem.
    + intros J HJ Hid.
      assert (HJ' : In J (passed (fn s))).
      { revert HJ. unfold passed, push_front_entry.
        destruct (before (fn s)) as [|b bs]; cbn [before pre concat app In].
        - intros [<- | HJ]; [cbn in Hid; lia | exact HJ].
        - rewrite <- !app_assoc. cbn [app In].
          intros [<- | HJ]; [cbn in Hid; lia | exact HJ]. }
      eapply mediated_mono; [|exact (Hdone J HJ' Hid)].
      intros K HK _. rewrite all_insts_push_front. now right.
  - unfold mediation, rewritten in *. cbn [fn fresh MemBase] in *.
    assert (HN : Forall (fun K => (fresh s <= inst_id K)%nat) N).
    { rewrite Forall_forall. intros K HK.
      apply list_elem_of_In, (in_map inst_id) in HK. rewrite Hseq in HK.
      apply in_seq in HK. lia. }
    split; [|split; [lia | split; [exact Hshape|]]].
    + revert Hids. rewrite all_insts_Cursor, (all_insts_eq (fn s)).
      rewrite !ids_below_app, !ids_below_cons, !ids_below_app.
      intros (HB & HP & Hc & HPo & HA).
      repeat split; try (eapply ids_below_mono; [|eassumption]; lia).
      * unfold ids_below. rewrite Forall_forall. intros K HK.
        apply list_elem_of_In, (in_map inst_id) in HK. rewrite Hseq in HK.
        apply in_seq in HK. lia.
      * cbn. lia.
    + intros J HJ Hid. unfold passed in HJ. cbn [before pre] in HJ.
      rewrite app_assoc, in_app_iff in HJ. destruct HJ as [HJ | HJ].
      * eapply mediated_mono; [|exact (Hdone J HJ Hid)].
        intros K HK HKop. destruct (fn s) as [B P c Po A].
        eapply In_all_insts_rewritten; [exact HK|].
        intros ->. cbn in Hacc. destruct Hacc as [H | [H | H]]; congruence.
      * rewrite Forall_forall in HN.
        specialize (HN J (proj2 (list_elem_of_In _ _) HJ)). lia.
  - unfold mediation. cbn [fn fresh MemBase] in *.
    split; [|split; [exact Hle | split]].
    + unfold ids_below in *. rewrite Forall_forall in *. intros J HJ.
      apply list_elem_of_In, In_all_insts_erase in HJ as [HJ _].
      apply Hids. now apply list_elem_of_In.
    + rewrite remaining_erase. rewrite Forall_forall in *. intros J HJ.
      apply list_elem_of_In, In_erase_in in HJ as [HJ _].
      apply Hshape. now apply list_elem_of_In.
    + intros J HJ Hid.
      assert (HJ' : In J (passed (fn s))).
      { revert HJ. unfold passed, eraseFromParent. cbn [before pre].
        rewrite concat_map_erase, <- erase_in_app, In_erase_in. tauto. }
      intros pos Hpos. destruct (Hdone J HJ' Hid pos Hpos)
        as (K0 & HK0 & Hop & Hid0 & Hk0).
      exists K0. split; [|auto].
      apply In_all_insts_erase. split; [exact HK0|]. left. intros E.
      rewrite (use_empty_false (fn s) (inst_id K) J) in He;
        [discriminate | now apply In_passed_all |].
      rewrite <- E. eapply uses_operand. exact Hop.
Qed.

Lemma mediation_steps s s' :
  steps this s s' -> mediation m0 s -> mediation m0 s'.
Proof. induction 1; eauto using mediation_prim. Qed.

(** What the visit leaves under the iterator. *)
Lemma sandboxPtrOperand_mediates OpNum fca s :
  (fca = true ->
   ids_below (fresh s) (all_insts (fn s)) /\
   first_class_access (cur (fn s))) ->
  (m0 <= fresh s)%nat ->
  (OpNum < length (operands (cur (fn s))))%nat ->
  let s' := sandboxPtrOperand W sz this OpNum fca s in
  exists v,
    cur (fn s') = setOperand (cur (fn s)) OpNum v /\
    sandboxed_at m0 (all_insts (fn s')) (cur (fn s')) OpNum.
Proof.
  intros Hfca Hle Hlen s'.
  destruct (sandboxPtrOperand_shape W sz this OpNum fca s Hfca)
    as (pre0 & SP & Hpre & Hop & _ & Hid & Hcur).
  fold s' in Hpre, Hcur. eexists. split; [exact Hcur|].
  exists SP. split; [|split; [|split; [lia | exact Hop]]].
  - rewrite all_insts_eq, Hpre, !in_app_iff. cbn [In]. tauto.
  - rewrite Hcur. now apply getOperand_setOperand_eq.
Qed.

Lemma sandboxed_at_later l l' J J' pos n v :
  sandboxed_at m0 l J pos ->
  (forall K, In K l -> opcode K = IntToPtr -> In K l') ->
  J' = setOperand J n v -> n <> pos ->
  sandboxed_at m0 l' J' pos.
Proof.
  intros (K & HK & Hop & Hid & Hk) Hl -> Hn.
  exists K. split; [auto|]. split; [|auto].
  now rewrite getOperand_setOperand_ne.
Qed.

Lemma bulk_keeps_casts OpNum s K :
  first_class_access (cur (fn s)) ->
  In K (all_insts (fn s)) -> opcode K = IntToPtr ->
  In K (all_insts (fn (sandboxPtrOperand W sz this OpNum false s))).
Proof.
  intros Hacc HK Hop. rewrite sandbox_bulk_operand. unfold rewritten.
  cbn [fn].
  assert (HK1 : In K (all_insts (fn (acquireMemBase this s).2))).
  { unfold acquireMemBase. destruct (MemBase s); [exact HK|].
    cbn [snd fn]. rewrite all_insts_push_front. now right. }
  pose proof (acquire_cur this s) as Hcur.
  destruct (fn (acquireMemBase this s).2) as [B P c Po A].
  cbn [before pre cur post after] in *.
  eapply In_all_insts_rewritten; [exact HK1|].
  intros ->. rewrite Hcur in Hop.
  destruct Hacc as [H | [H | H]]; congruence.
Qed.

Lemma len_keeps_casts OpNum s K :
  first_class_access (cur (fn s)) ->
  In K (all_insts (fn s)) -> opcode K = IntToPtr ->
  In K (all_insts (fn (sandboxLenOperand this OpNum s))).
Proof.
  intros Hacc HK Hop. unfold sandboxLenOperand.
  destruct (PtrMask this); [|exact HK].
  unfold emit, insert_before_cur, set_cur.
  cbn [fn before pre cur post after].
  destruct (fn s) as [B P c Po A]. cbn [before pre cur post after] in *.
  eapply In_all_insts_rewritten; [exact HK|].
  intros ->. destruct Hacc as [H | [H | H]]; congruence.
Qed.

Lemma sandboxLenOperand_cur OpNum s :
  cur (fn (sandboxLenOperand this OpNum s)) = cur (fn s) \/
  exists v, cur (fn (sandboxLenOperand this OpNum s)) =
            setOperand (cur (fn s)) OpNum v.
Proof.
  unfold sandboxLenOperand. destruct (PtrMask this); [|now left].
  right. eexists. reflexivity.
Qed.

Lemma steps_fresh_le s s' : steps this s s' -> (fresh s <= fresh s')%nat.
Proof.
  induction 1 as [|s1 s2 s3 H _ IH]; [lia|].
  apply prim_fresh_le in H. lia.
Qed.

Lemma sandboxed_at_set l l' J pos n v :
  sandboxed_at m0 l J pos ->
  (forall K, In K l -> opcode K = IntToPtr -> In K l') ->
  n <> pos ->
  sandboxed_at m0 l' (setOperand J n v) pos.
Proof. intros H Hl Hn. eapply sandboxed_at_later; eauto. Qed.

Lemma sandboxed_at_mono l l' J pos :
  sandboxed_at m0 l J pos ->
  (forall K, In K l -> opcode K = IntToPtr -> In K l') ->
  sandboxed_at m0 l' J pos.
Proof.
  intros (K & HK & Hop & Hid & Hk) Hl. exists K. auto.
Qed.

(** A pointer sandboxed before stays sandboxed when the length is masked. *)
Lemma sandboxLenOperand_keeps OpNum s pos :
  first_class_access (cur (fn s)) -> OpNum <> pos ->
  sandboxed_at m0 (all_insts (fn s)) (cur (fn s)) pos ->
  sandboxed_at m0 (all_insts (fn (sandboxLenOperand this OpNum s)))
               (cur (fn (sandboxLenOperand this OpNum s))) pos.
Proof.
  intros Hacc Hne H.
  assert (Hl : forall K, In K (all_insts (fn s)) -> opcode K = IntToPtr ->
                         In K (all_insts (fn (sandboxLenOperand this OpNum s))))
    by (intros; now apply len_keeps_casts).
  destruct (sandboxLenOperand_cur OpNum s) as [-> | [v ->]].
  - eapply sandboxed_at_mono; eassumption.
  - eapply sandboxed_at_set; eassumption.
Qed.

Lemma sandboxLenOperand_positions OpNum s :
  well_shaped (cur (fn s)) ->
  In OpNum (sandboxed_operands (cur (fn s))) ->
  pointer_operands (cur (fn (sandboxLenOperand this OpNum s))) =
    pointer_operands (cur (fn s)).
Proof.
  intros Hws Hin.
  destruct (sandboxLenOperand_cur OpNum s) as [-> | [v ->]]; [reflexivity|].
  apply positions_setOperand. now apply well_shaped_length.
Qed.

(** The visit of a well-shaped instruction leaves every pointer it accesses
    memory through sandboxed. *)
Lemma visit_mediates s s1 :
  ids_below (fresh s) (all_insts (fn s)) ->
  (m0 <= fresh s)%nat ->
  well_shaped (cur (fn s)) ->
  visit W sz this s = Ok s1 ->
  mediated m0 (all_insts (fn s1)) (cur (fn s1)).
Proof.
  intros Hids Hle Hws. unfold visit.
  assert (Hone : forall OpNum,
            first_class_access (cur (fn s)) ->
            sandboxed_operands (cur (fn s)) = [OpNum] ->
            pointer_operands (cur (fn s)) = [OpNum] ->
            mediated m0
              (all_insts (fn (sandboxPtrOperand W sz this OpNum true s)))
              (cur (fn (sandboxPtrOperand W sz this OpNum true s)))).
  { intros OpNum Hacc Hso Hpo.
    destruct (well_shaped_length _ OpNum Hws) as [Hlen Hlen'];
      [rewrite Hso; now left|].
    destruct (sandboxPtrOperand_mediates OpNum true s (fun _ => conj Hids Hacc)
                Hle Hlen) as (v & Hcur & Hsb).
    intros pos Hpos. rewrite Hcur in Hpos.
    rewrite (proj1 (positions_setOperand _ _ v Hlen')), Hpo in Hpos.
    destruct Hpos as [<- | []]. exact Hsb. }
  assert (Hbulk : forall s0 OpNum,
            first_class_access (cur (fn s0)) ->
            (m0 <= fresh s0)%nat ->
            well_shaped (cur (fn s0)) ->
            In OpNum (sandboxed_operands (cur (fn s0))) ->
            let s' := sandboxPtrOperand W sz this OpNum false s0 in
            first_class_access (cur (fn s')) /\ (m0 <= fresh s')%nat /\
            well_shaped (cur (fn s')) /\
            sandboxed_operands (cur (fn s')) =
              sandboxed_operands (cur (fn s0)) /\
            pointer_operands (cur (fn s')) = pointer_operands (cur (fn s0)) /\
            sandboxed_at m0 (all_insts (fn s')) (cur (fn s')) OpNum /\
            forall pos, pos <> OpNum ->
              sandboxed_at m0 (all_insts (fn s0)) (cur (fn s0)) pos ->
              sandboxed_at m0 (all_insts (fn s')) (cur (fn s')) pos).
  { intros s0 OpNum Hacc Hle0 Hws0 Hin s'.
    destruct (well_shaped_length _ OpNum Hws0 Hin) as [Hlen Hlen'].
    destruct (sandboxPtrOperand_mediates OpNum false s0 ltac:(discriminate)
                Hle0 Hlen) as (v & Hcur & Hsb).
    fold s' in Hcur, Hsb.
    destruct (positions_setOperand (cur (fn s0)) OpNum v Hlen')
      as (Hpo & Hso & Hws').
    pose proof (steps_fresh_le _ _
                  (sandboxPtrOperand_steps W sz this Hok OpNum false s0 Hacc
                     ltac:(discriminate))) as Hfresh.
    fold s' in Hfresh. rewrite Hcur.
    split; [exact Hacc|]. split; [lia|]. split; [auto|].
    split; [exact Hso|]. split; [exact Hpo|]. split; [now rewrite <- Hcur|].
    intros pos Hpos Hsa. eapply sandboxed_at_set; [exact Hsa | | auto].
    intros K HK HKop. now apply bulk_keeps_casts. }
  destruct (isa_LoadInst (cur (fn s))) eqn:ELoad.
  { intros [= <-]. apply Hone.
    - left. unfold isa_LoadInst in ELoad. now destruct (opcode (cur (fn s))).
    - unfold sandboxed_operands. now rewrite ELoad.
    - unfold pointer_operands. now rewrite ELoad. }
  destruct (isa_StoreInst (cur (fn s))) eqn:EStore.
  { intros [= <-]. apply Hone.
    - right. left. unfold isa_StoreInst in EStore.
      now destruct (opcode (cur (fn s))).
    - unfold sandboxed_operands. now rewrite ELoad, EStore.
    - unfold pointer_operands. now rewrite ELoad, EStore. }
  destruct (isa_MemCpyInst (cur (fn s)) || isa_MemMoveInst (cur (fn s)))
    eqn:ECpy.
  { intros [= <-].
    assert (Hacc : first_class_access (cur (fn s))).
    { unfold isa_MemCpyInst, isa_MemMoveInst in ECpy.
      destruct (dyn_cast_IntrinsicInst (cur (fn s))) eqn:E; [|discriminate].
      right. right. now apply intrinsic_is_call in E. }
    assert (Hso : sandboxed_operands (cur (fn s)) = [0; 1; 2]%nat).
    { unfold sandboxed_operands. now rewrite ELoad, EStore, ECpy. }
    assert (Hpo : pointer_operands (cur (fn s)) = [0; 1]%nat).
    { unfold pointer_operands. now rewrite ELoad, EStore, ECpy. }
    destruct (Hbulk s 0%nat Hacc Hle Hws)
      as (HaA & HlA & HwA & HsA & HpA & H0 & _);
      [rewrite Hso; cbn; tauto|].
    set (sA := sandboxPtrOperand W sz this 0 false s) in *.
    destruct (Hbulk sA 1%nat HaA HlA HwA)
      as (HaB & HlB & HwB & HsB & HpB & H1 & Hk);
      [rewrite HsA, Hso; cbn; tauto|].
    set (sB := sandboxPtrOperand W sz this 1 false sA) in *.
    intros pos Hpos.
    rewrite sandboxLenOperand_positions in Hpos;
      [|exact HwB | rewrite HsB, HsA, Hso; cbn; tauto].
    rewrite HpB, HpA, Hpo in Hpos.
    destruct Hpos as [<- | [<- | []]];
      (apply sandboxLenOperand_keeps; [exact HaB | lia |]).
    - apply Hk; [lia | exact H0].
    - exact H1. }
  destruct (isa_MemSetInst (cur (fn s))) eqn:ESet.
  { intros [= <-].
    assert (Hacc : first_class_access (cur (fn s))).
    { unfold isa_MemSetInst in ESet.
      destruct (dyn_cast_IntrinsicInst (cur (fn s))) eqn:E; [|discriminate].
      right. right. now apply intrinsic_is_call in E. }
    assert (Hso : sandboxed_operands (cur (fn s)) = [0; 2]%nat).
    { unfold sandboxed_operands. now rewrite ELoad, EStore, ECpy, ESet. }
    assert (Hpo : pointer_operands (cur (fn s)) = [0%nat]).
    { unfold pointer_operands. now rewrite ELoad, EStore, ECpy, ESet. }
    destruct (Hbulk s 0%nat Hacc Hle Hws)
      as (HaA & HlA & HwA & HsA & HpA & H0 & _);
      [rewrite Hso; cbn; tauto|].
    set (sA := sandboxPtrOperand W sz this 0 false s) in *.
    intros pos Hpos.
    rewrite sandboxLenOperand_positions in Hpos;
      [|exact HwA | rewrite HsA, Hso; cbn; tauto].
    rewrite HpA, Hpo in Hpos. destruct Hpos as [<- | []].
    apply sandboxLenOperand_keeps; [exact HaA | lia | exact H0]. }
  assert (Hsame : forall r,
                  r = Ok s1 -> (r = Ok s \/ r = FatalError fatal_message) ->
                  pointer_operands (cur (fn s)) = [] ->
                  mediated m0 (all_insts (fn s1)) (cur (fn s1))).
  { intros r -> [[= ->] | H]; [|discriminate].
    intros Hpo pos Hpos. rewrite Hpo in Hpos. destruct Hpos. }
  destruct (dyn_cast_IntrinsicInst (cur (fn s))) as [iid|] eqn:EI.
  - assert (Hacc : first_class_access (cur (fn s))).
    { right. right. now apply intrinsic_is_call in EI. }
    assert (Hso : forall l,
              match iid with
              | nacl_atomic_load | nacl_atomic_cmpxchg => [0%nat]
              | nacl_atomic_store | nacl_atomic_rmw
              | nacl_atomic_is_lock_free => [1%nat]
              | _ => []
              end = l ->
              sandboxed_operands (cur (fn s)) = l /\
              pointer_operands (cur (fn s)) = l).
    { intros l <-. unfold sandboxed_operands, pointer_operands.
      now rewrite ELoad, EStore, ECpy, ESet, EI. }
    destruct iid;
      try (intros Hr; eapply Hsame;
           [exact Hr | apply check_outcome | now apply (Hso [])]);
      intros [= <-]; apply Hone; try exact Hacc; now apply Hso.
  - intros Hr. eapply (Hsame _ Hr).
    + destruct (negb _ && negb _); [apply check_outcome | now left].
    + unfold pointer_operands. now rewrite ELoad, EStore, ECpy, ESet, EI.
Qed.

(** The invariant at the end of the loop. *)
Lemma iterate_mediation fuel : forall s s',
  mediation m0 s -> well_shaped (cur (fn s)) ->
  iterate W sz this fuel s = Ok s' ->
  forall J, In J (all_insts (fn s')) -> (inst_id J < m0)%nat ->
            mediated m0 (all_insts (fn s')) J.
Proof.
  induction fuel as [|fuel IH]; intros s s' Hmed Hws; cbn [iterate bind];
    [discriminate|].
  destruct (visit W sz this s) as [s1| |] eqn:Hvisit; cbn [bind];
    try discriminate.
  pose proof Hmed as (Hids & Hle & _).
  pose proof (visit_mediates s s1 Hids Hle Hws Hvisit) as Hcur.
  pose proof (mediation_steps s s1
                (visit_steps W sz this Hok s s1 Hids Hvisit) Hmed)
    as (Hids1 & Hle1 & Hshape1 & Hdone1).
  destruct (advance (fn s1)) as [c'|] eqn:Hadv.
  - destruct (advance_Some _ _ Hadv) as [_ Hrem].
    pose proof (advance_all_insts _ _ Hadv) as Hall.
    pose proof (advance_passed _ _ Hadv) as Hpassed.
    rewrite <- Hrem in Hshape1. apply Forall_cons in Hshape1 as [Hws' Hshape'].
    apply IH; [|exact Hws'].
    unfold mediation. cbn [fn MemBase fresh]. rewrite Hall, Hpassed.
    split; [exact Hids1|]. split; [exact Hle1|]. split; [exact Hshape'|].
    intros J HJ Hid. apply in_app_iff in HJ as [HJ | [<- | []]]; auto.
  - intros [= <-] J HJ Hid. apply advance_None in Hadv.
    rewrite all_insts_passed, Hadv, in_app_iff in HJ.
    destruct HJ as [HJ | [<- | []]]; auto.
Qed.

Lemma runOnFunction_mediation Func n0 Func' n' :
  (m0 <= n0)%nat ->
  ids_below m0 (concat Func) ->
  Forall well_shaped (concat Func) ->
  runOnFunction W sz this Func n0 = Ok (Func', n') ->
  forall J, In J (concat Func') -> (inst_id J < m0)%nat ->
            mediated m0 (concat Func') J.
Proof.
  intros Hle Hids Hws. unfold runOnFunction.
  destruct (enter [] Func) as [c|] eqn:Henter.
  - apply enter_Some in Henter as [Hfun Hrem]. cbn [app] in Hfun.
    destruct (iterate W sz this _ _) as [s'| |] eqn:Hit; cbn [bind];
      try discriminate.
    intros [= <- <-].
    rewrite <- Hrem in Hws. apply Forall_cons in Hws as [Hwc Hwr].
    assert (Hall : all_insts c = concat Func)
      by (unfold all_insts; now rewrite Hfun).
    assert (Hnil : passed c = []).
    { pose proof (all_insts_passed c) as E. rewrite Hall, Hrem in E.
      rewrite <- (app_nil_l (concat Func)) in E at 1.
      apply app_inv_tail in E. now symmetry. }
    assert (Hmed : mediation m0 (State c None n0)).
    { unfold mediation. cbn [fn MemBase fresh].
      split; [rewrite Hall; eapply ids_below_mono; eassumption|].
      split; [exact Hle|]. split; [exact Hwr|].
      intros J HJ Hid. rewrite Hnil in HJ. destruct HJ. }
    exact (iterate_mediation _ _ _ Hmed Hwc Hit).
  - intros [= <- <-] J HJ. apply enter_None in Henter.
    rewrite Henter in HJ. destruct HJ.
Qed.

Lemma runOnFunctions_mediation Fs : forall n0 Fs' n',
  (m0 <= n0)%nat ->
  Forall (fun Func => ids_below m0 (concat Func)) Fs ->
  Forall (fun Func => Forall well_shaped (concat Func)) Fs ->
  runOnFunctions W sz this Fs n0 = Ok (Fs', n') ->
  Forall (fun Func' =>
            forall J, In J (concat Func') -> (inst_id J < m0)%nat ->
                      mediated m0 (concat Func') J) Fs'.
Proof.
  induction Fs as [|Func Fs IH]; intros n0 Fs' n' Hle Hids Hws;
    cbn [runOnFunctions bind].
  - intros [= <- <-]. constructor.
  - apply Forall_cons in Hids as [Hid Hids].
    apply Forall_cons in Hws as [Hw Hws].
    destruct (runOnFunction W sz this Func n0) as [[Func1 n1]| |] eqn:Hrun;
      cbn [bind]; try discriminate.
    cbn [fst snd].
    destruct (runOnFunctions W sz this Fs n1) as [[Fs1 n2]| |] eqn:Hruns;
      cbn [bind]; try discriminate.
    intros [= <- <-]. cbn [fst].
    pose proof (runOnFunction_mem_base W sz this m0 n0 Func Hle Hid) as Hn1.
    rewrite Hrun in Hn1. destruct Hn1 as [Hn1 _].
    constructor.
    + eapply runOnFunction_mediation; eassumption.
    + eapply (IH n1); [lia | eassumption..].
Qed.

End Mediation.

(** X11. Every memory access of the output goes through a pointer the pass
    has made.  When the instructions of the input were created before the id
    supply [n0] and have the operands the driver handles (a load its
    pointer, a store its value and pointer, a call of an intrinsic its
    arguments before the callee), then after a successful run every
    instruction of the input that is still there has, at each position the
    driver hands to the pointer sandboxer (operand 0 of a load, 1 of a store,
    0 and 1 of a bulk copy or move, 0 of a bulk set, 0 or 1 of the sandboxed
    atomics), the result of an integer-to-pointer cast that the run created
    in the same function. *)
Theorem memory_accesses_mediated (W : Z) (sz : type -> Z) (M M' : module)
    (n0 n' : nat) :
  Forall (fun Func => ids_below n0 (concat Func)) (functions M) ->
  Forall (fun Func => Forall well_shaped (concat Func)) (functions M) ->
  runOnModule W sz M n0 = Ok (M', n') ->
  Forall (fun Func' =>
            forall J, In J (concat Func') -> (inst_id J < n0)%nat ->
                      mediated n0 (concat Func') J)
         (functions M').
Proof.
  intros Hids Hws. unfold runOnModule.
  pose proof (initialize_functions W M) as Hfun.
  pose proof (initialize_pass_ok W M) as Hok.
  destruct (initialize W M) as [this M1]. cbn [fst snd] in *. rewrite Hfun.
  destruct (runOnFunctions W sz this (functions M) n0) as [[Fs' n1]| |] eqn:E;
    cbn [bind]; try discriminate.
  intros [= <- <-]. cbn [functions fst].
  exact (runOnFunctions_mediation W sz this Hok n0 (functions M) n0 Fs' n1
           ltac:(lia) Hids Hws E).
Qed.

(** *** What the pass creates *)

Section Creation.

Variable W : Z.
Variable sz : type -> Z.
Variable this : SandboxMemoryAccesses.
Hypothesis Hok : pass_ok this.
Variable m0 : nat.

Lemma creation_prim s s' :
  creation this m0 s -> prim this s s' -> creation this m0 s'.
Proof.
  intros (Hids & Hle & Htodo & Hnew) Hprim.
  pose proof (prim_fresh_le this s s' Hprim) as Hfresh.
  destruct Hprim
    as [s HMB | s N OpNum Hne Hseq Harith Hacc Hsrc | s K HK HKcur HKop He].
  - pose proof (acquire_ids_below this s Hids) as Hids'.
    pose proof (remaining_push_front (mem_base_load this (fresh s)) (fn s))
      as Hrem.
    unfold creation. revert Hids' Hfresh. unfold acquireMemBase.
    rewrite HMB. cbn [snd fn fresh MemBase]. intros Hids' Hfresh.
    fold (mem_base_load this (fresh s)) in *.
    split; [exact Hids'|]. split; [lia|]. split; [now rewrite Hrem|].
    rewrite all_insts_push_front. intros J [<- | HJ] Hid; [now left | auto].
  - unfold creation, rewritten in *. cbn [fn fresh MemBase] in *.
    assert (HN : forall K, In K N -> (fresh s <= inst_id K)%nat).
    { intros K HK. apply (in_map inst_id) in HK. rewrite Hseq in HK.
      apply in_seq in HK. lia. }
    apply ids_below_cons in Htodo as [Hcur Hrem].
    split; [|split; [lia | split]].
    + revert Hids. rewrite all_insts_Cursor, (all_insts_eq (fn s)).
      rewrite !ids_below_app, !ids_below_cons, !ids_below_app.
      intros (HB & HP & Hc & HPo & HA).
      repeat split; try (eapply ids_below_mono; [|eassumption]; lia).
      * unfold ids_below. rewrite Forall_forall. intros K HK.
        apply list_elem_of_In, (in_map inst_id) in HK. rewrite Hseq in HK.
        apply in_seq in HK. lia.
      * cbn. lia.
    + apply ids_below_cons. split; [exact Hcur | exact Hrem].
    + intros J HJ Hid. rewrite all_insts_Cursor in HJ.
      repeat (rewrite !in_app_iff in HJ || cbn [In] in HJ).
      assert (Hold : In J (all_insts (fn s)) -> created_kind this J) by auto.
      rewrite all_insts_eq in Hold.
      repeat (rewrite !in_app_iff in Hold || cbn [In] in Hold).
      destruct HJ as [HJ | [[HJ | HJ] | [<- | [HJ | HJ]]]]; try tauto.
      * right. rewrite Forall_forall in Harith.
        apply Harith. now apply list_elem_of_In.
      * cbn in Hid. lia.
  - unfold creation. cbn [fn fresh MemBase] in *.
    split; [|split; [exact Hle | split]].
    + unfold ids_below in *. rewrite Forall_forall in *. intros J HJ.
      apply list_elem_of_In, In_all_insts_erase in HJ as [HJ _].
      apply Hids. now apply list_elem_of_In.
    + rewrite remaining_erase. cbn [cur eraseFromParent].
      apply ids_below_cons in Htodo as [Hcur Hrem].
      apply ids_below_cons. split; [exact Hcur | now apply ids_below_erase].
    + intros J HJ. apply In_all_insts_erase in HJ as [HJ _]. auto.
Qed.

Lemma creation_advance s c :
  creation this m0 s -> advance (fn s) = Some c ->
  creation this m0 (State c (MemBase s) (fresh s)).
Proof.
  intros (Hids & Hle & Htodo & Hnew) Hadv.
  pose proof (advance_all_insts _ _ Hadv) as Hall.
  destruct (advance_Some _ _ Hadv) as [_ Hrem].
  unfold creation. cbn [fn fresh MemBase]. rewrite Hall, Hrem.
  repeat split; try assumption. now apply ids_below_cons in Htodo.
Qed.

Lemma runOnFunction_creation Func n0 Func' n' :
  (m0 <= n0)%nat ->
  ids_below m0 (concat Func) ->
  runOnFunction W sz this Func n0 = Ok (Func', n') ->
  forall J, In J (concat Func') -> (m0 <= inst_id J)%nat ->
            created_kind this J.
Proof.
  intros Hle Hids. unfold runOnFunction.
  destruct (enter [] Func) as [c|] eqn:Henter.
  - apply enter_Some in Henter as [Hfun Hrem]. cbn [app] in Hfun.
    destruct (iterate W sz this _ _) as [s'| |] eqn:Hit; cbn [bind];
      try discriminate.
    intros [= <- <-].
    assert (Hall : all_insts c = concat Func)
      by (unfold all_insts; now rewrite Hfun).
    apply (iterate_steps_invariant W sz this Hok (creation this m0)) in Hit.
    + apply Hit.
    + intros s H. apply H.
    + apply creation_prim.
    + apply creation_advance.
    + unfold creation. cbn [fn fresh MemBase]. rewrite Hall, Hrem.
      split; [eapply ids_below_mono; eassumption|].
      split; [exact Hle|]. split; [exact Hids|].
      intros J HJ Hid. unfold ids_below in Hids. rewrite Forall_forall in Hids.
      specialize (Hids J (proj2 (list_elem_of_In _ _) HJ)). lia.
  - intros [= <- <-] J HJ Hid. unfold ids_below in Hids.
    rewrite Forall_forall in Hids.
    specialize (Hids J (proj2 (list_elem_of_In _ _) HJ)). lia.
Qed.

Lemma runOnFunctions_creation Fs : forall n0 Fs' n',
  (m0 <= n0)%nat ->
  Forall (fun Func => ids_below m0 (concat Func)) Fs ->
  runOnFunctions W sz this Fs n0 = Ok (Fs', n') ->
  Forall (fun Func' =>
            forall J, In J (concat Func') -> (m0 <= inst_id J)%nat ->
                      created_kind this J) Fs'.
Proof.
  induction Fs as [|Func Fs IH]; intros n0 Fs' n' Hle Hids;
    cbn [runOnFunctions bind].
  - intros [= <- <-]. constructor.
  - apply Forall_cons in Hids as [Hid Hids].
    destruct (runOnFunction W sz this Func n0) as [[Func1 n1]| |] eqn:Hrun;
      cbn [bind]; try discriminate.
    cbn [fst snd].
    destruct (runOnFunctions W sz this Fs n1) as [[Fs1 n2]| |] eqn:Hruns;
      cbn [bind]; try discriminate.
    intros [= <- <-]. cbn [fst].
    pose proof (runOnFunction_mem_base W sz this m0 n0 Func Hle Hid) as Hn1.
    rewrite Hrun in Hn1. destruct Hn1 as [Hn1 _].
    constructor.
    + eapply runOnFunction_creation; eassumption.
    + eapply (IH n1); [lia | eassumption..].
Qed.

End Creation.

(** X12. The pass creates no memory access besides the load of the memory
    base.  After a successful run on a module whose instructions were created
    before the id supply [n0], every instruction with an id from [n0] on is
    the load of [__sfi_memory_base] or a [ptrtoint], [and], [zext], [add] or
    [inttoptr]: no store, no call and no other load is created. *)
Theorem only_address_arithmetic_created (W : Z) (sz : type -> Z)
    (M M' : module) (n0 n' : nat) :
  let this := (initialize W M).1 in
  Forall (fun Func => ids_below n0 (concat Func)) (functions M) ->
  runOnModule W sz M n0 = Ok (M', n') ->
  Forall (fun Func' =>
            forall J, In J (concat Func') -> (n0 <= inst_id J)%nat ->
                      J = mem_base_load this (inst_id J) \/ arithmetic J)
         (functions M').
Proof.
  intros this Hids. unfold runOnModule.
  pose proof (initialize_functions W M) as Hfun.
  pose proof (initialize_pass_ok W M) as Hok. subst this.
  destruct (initialize W M) as [this M1]. cbn [fst snd] in *. rewrite Hfun.
  destruct (runOnFunctions W sz this (functions M) n0) as [[Fs' n1]| |] eqn:E;
    cbn [bind]; try discriminate.
  intros [= <- <-]. cbn [functions fst].
  exact (runOnFunctions_creation W sz this Hok n0 (functions M) n0 Fs' n1
           ltac:(lia) Hids E).
Qed.

(** ** Concrete runs *)



Lemma ex_ids_below : ids_below 5 (all_insts (fn at_load)).
Proof. unfold ids_below. cbn. split_Forall; cbn; lia. Qed.

Lemma ex_module_ids_below :
  Forall (fun Func => ids_below 5 (concat Func)) (functions ex_module).
Proof. unfold ids_below. cbn. split_Forall; cbn; split_Forall; cbn; lia. Qed.

Lemma general_path_bounded_witness :
  let this := (initialize 24 ex_module).1 in
  let s1 := (acquireMemBase this at_store).2 in
  let MemBaseV := (acquireMemBase this at_store).1 in
  let Ptr := getOperand (cur (fn at_store)) 1 in
  let news := general_seq (PtrMask this) (fresh s1) Ptr
                          (getType (fn s1) Ptr) MemBaseV in
  sandboxPtrOperand 24 store_size this 1 true at_store =
    rewritten s1 news 1 /\
  forall m : Sem.machine,
    let base := Sem.eval m MemBaseV in
    let offset := sandbox_offset 24 (wrap 32 (Sem.eval m Ptr)) in
    let addr :=
      Sem.eval (Sem.run m news) (InstRef (last_id (fresh s1) news)) in
    addr = wrap (Sem.pointer_bits m) (wrap 64 (base + offset)) /\
    0 <= offset < 2 ^ 24 /\
    wrap 64 (wrap 64 (base + offset) - base) = offset /\
    (0 <= base -> base + 2 ^ 24 <= 2 ^ Sem.pointer_bits m ->
     Sem.pointer_bits m <= 64 ->
     addr = base + offset /\ base <= addr < base + 2 ^ 24).
Proof.
  apply (general_path_bounded 24 store_size ex_module 1 true at_store);
    [lia | reflexivity | exact I | exact I].
Defined.

Lemma unhandled_instruction_checked_witness :
  handled_kind (cur (fn at_call_int)) = false /\
  visit 32 store_size (initialize 32 ex_module).1 at_call_int =
    Ok at_call_int.
Proof.
  split; [reflexivity|].
  apply (unhandled_instruction_checked 32 store_size
           (initialize 32 ex_module).1 at_call_int eq_refl).
  intros (v & Hin & Hv). cbn in Hin. destruct Hin as [<- | []].
  discriminate Hv.
Defined.

Lemma folded_offset_applies_iff_witness :
  let this := (initialize 24 ex_module).1 in
  let s1 := (acquireMemBase this at_load).2 in
  let Ptr := getOperand (cur (fn at_load)) 0 in
  let T := getPointerElementType (getType (fn s1) Ptr) in
  (0 <= 24 <= 32 /\ 0 <= store_size T < 2 ^ 63) /\
  (recognize 24 store_size (fn s1) true Ptr = Some ex_folded <->
   true = true /\
   folded_shape (fn s1) Ptr (Argument 0 I32) 16 ex_cast ex_add /\
   0 <= 16 /\ 16 + store_size T <= 2 ^ 24).
Proof.
  assert (H1 : 0 <= 24 <= 32) by lia.
  assert (H2 : 0 <= 4 < 2 ^ 63) by lia.
  split; [split; [exact H1 | exact H2]|].
  apply (folded_offset_applies_iff 24 store_size ex_module 0 true at_load
           H1 H2).
Defined.

Lemma folded_path_address_witness :
  let this := (initialize 24 ex_module).1 in
  let s1 := (acquireMemBase this at_load).2 in
  let Ptr := getOperand (cur (fn at_load)) 0 in
  let news := folded_seq (PtrMask this) (fresh s1) (Argument 0 I32) 16
                         (getType (fn s1) Ptr) (acquireMemBase this at_load).1
  in
  recognize 24 store_size (fn s1) true Ptr = Some ex_folded /\
  (rewritePtrOperand 24 store_size this 0 true at_load).1 =
    rewritten s1 news 0.
Proof.
  assert (H1 : 0 <= 24 <= 32) by lia.
  assert (H2 : 0 <= 4 < 2 ^ 63) by lia.
  split; [reflexivity|].
  apply (folded_path_address 24 store_size ex_module 0 true at_load ex_folded
           H1 H2 eq_refl I I).
Defined.

(** C4, as stated, fails: with [W = 24] the load of
    [inttoptr (add i32 %x, 16)] is rewritten with an [and] of [%x] and the
    mask, and for [%x = 2^24 + 8] and the base [2^32] the address is
    [2^32 + 8 + 16], not [base + %x + 16]. *)
Lemma folded_offset_mask_counterexample :
  let this := (initialize 24 ex_module).1 in
  let s' := sandboxPtrOperand 24 store_size this 0 true at_load in
  let addr :=
    Sem.eval (Sem.run ex_machine (pre (fn s'))) (getOperand (cur (fn s')) 0) in
  let base := 2 ^ 32 in
  let x := Sem.eval ex_machine (Argument 0 I32) in
  recognize 24 store_size (fn (acquireMemBase this at_load).2) true
            (InstRef 1) = Some ex_folded /\
  16 + store_size I32 <= 2 ^ 24 /\
  In (new_inst 6 (BinaryOperator And) I32
               [Argument 0 I32; ConstantInt 32 (2 ^ 24 - 1)])
     (pre (fn s')) /\
  addr = base + 8 + 16 /\
  addr <> base + x + 16.
Proof.
  cbv zeta. split; [reflexivity|]. split; [vm_compute; discriminate|].
  split; [vm_compute; tauto|].
  split; [vm_compute; reflexivity | vm_compute; discriminate].
Qed.

Lemma call_arguments_checked_witness :
  handled_kind (cur (fn at_call_int)) = false /\
  isa_CallInst (cur (fn at_call_int)) = true /\
  visit 32 store_size (initialize 32 ex_module).1 at_call_int =
    Ok at_call_int.
Proof.
  split; [reflexivity|]. split; [reflexivity|].
  destruct (call_arguments_checked 32 store_size (initialize 32 ex_module).1
              at_call_int eq_refl) as [Hcall _].
  apply (Hcall eq_refl). intros v Hin Hv. cbn in Hin.
  destruct Hin as [<- | []]. discriminate Hv.
Defined.

(** C5, as stated, fails: a call of an ordinary function with a
    pointer-typed argument stops the pass with the fatal error. *)
Lemma call_pointer_argument_fatal :
  isa_CallInst ex_call_ptr = true /\
  runOnModule 32 store_size (mkModule [] [[[ex_call_ptr]]]) 1 =
    FatalError fatal_message.
Proof. split; reflexivity. Qed.

Lemma mem_base_loaded_once_witness :
  match runOnModule 24 store_size ex_module 5 with
  | OutOfFuel => False
  | FatalError _ => True
  | Ok (M', _) =>
      Forall2 (fun Func Func' =>
                 exists n,
                   (5 <= n)%nat /\
                   if existsb is_site (concat Func)
                   then (exists b bs,
                           Func' =
                             (mem_base_load (initialize 24 ex_module).1 n
                                :: b) :: bs) /\
                        count_synth 5 (concat Func') = 1%nat /\
                        Forall (adds_base_from 5 n) (concat Func')
                   else Func' = Func)
              (functions ex_module) (functions M')
  end.
Proof.
  exact (mem_base_loaded_once 24 store_size ex_module 5 ex_module_ids_below).
Defined.

Lemma length_operand_masked_witness :
  exists s1 : state,
    visit 24 store_size (initialize 24 ex_module).1 at_memset =
      Ok (sandboxLenOperand (initialize 24 ex_module).1 2 s1) /\
    getOperand (cur (fn s1)) 2 = Argument 1 I32.
Proof.
  assert (H1 : 0 <= 24) by lia.
  destruct (length_operand_masked 24 store_size ex_module at_memset H1 eq_refl)
    as (s1 & Hvisit & HLen & _).
  exists s1. split; [exact Hvisit | exact HLen].
Defined.

Lemma folded_cleanup_order_witness :
  let this := (initialize 24 ex_module).1 in
  let s' := sandboxPtrOperand 24 store_size this 0 true at_load in
  ids_below 5 (all_insts (fn at_load)) /\
  first_class_access (cur (fn at_load)) /\
  cur (fn s') = setOperand ex_load 0 (InstRef 10).
Proof.
  split; [exact ex_ids_below|]. split; [left; reflexivity|].
  exact (proj1 (proj2
           (folded_cleanup_order 24 store_size (initialize 24 ex_module).1 0
              at_load ex_folded ex_ids_below (or_introl eq_refl) eq_refl))).
Defined.

Lemma no_mask_at_32_witness :
  isa_StoreInst (cur (fn at_store)) = true /\
  PtrMask (initialize 32 ex_module).1 = None /\
  PtrMask (initialize 24 ex_module).1 = Some (ConstantInt 32 (2 ^ 24 - 1)).
Proof.
  split; [reflexivity|]. split.
  - apply (no_mask_at_32 32 store_size ex_module at_store eq_refl). reflexivity.
  - apply (no_mask_at_32 24 store_size ex_module at_store eq_refl). lia.
Defined.

Lemma pattern_position_sensitive_witness :
  let this := (initialize 24 ex_module).1 in
  let s1 := (acquireMemBase this at_load).2 in
  lookup_inst (fn s1) 1 = Some ex_cast /\
  lookup_inst (fn s1) 0 = Some ex_add /\
  forall p,
    recognize 24 store_size (fn s1) true (InstRef 1) = Some p ->
    inst_ty ex_add = IntegerTy 32 /\
    exists bits raw,
      getOperand ex_add 1 = ConstantInt bits raw /\
      Offset p = getSExtValue bits raw /\
      Truncated0 p = getOperand ex_add 0.
Proof.
  split; [reflexivity|]. split; [reflexivity|].
  apply (pattern_position_sensitive 24 store_size (initialize 24 ex_module).1
           0 at_load ex_cast ex_add eq_refl eq_refl eq_refl eq_refl eq_refl
           eq_refl).
Defined.

Lemma defined_in_ids l k : In k (map inst_id l) -> defined_in l k.
Proof. intros H. apply in_map_iff in H as (K & <- & HK). now exists K. Qed.

Lemma ex_module_wf : Forall (wf_function 5) (functions ex_module).
Proof.
  cbn. split_Forall; constructor.
  - unfold ids_below. cbn. split_Forall; cbn; lia.
  - exact (NoDup_seq 0 5).
  - intros J k HJ Hop. apply defined_in_ids. cbn in HJ.
    repeat (destruct HJ as [<- | HJ]; [cbn in Hop |]); try contradiction;
      repeat (destruct Hop as [E | Hop]; [try discriminate E |]);
      try contradiction; injection E as <-; cbn; auto 10.
  - unfold ids_below. cbn. split_Forall; cbn; lia.
  - exact (NoDup_seq 0 2).
  - intros J k HJ Hop. apply defined_in_ids. cbn in HJ.
    repeat (destruct HJ as [<- | HJ]; [cbn in Hop |]); try contradiction;
      repeat (destruct Hop as [E | Hop]; [try discriminate E |]);
      try contradiction; injection E as <-; cbn; auto 10.
Qed.

Lemma output_well_formed_witness :
  Forall (wf_function 5) (functions ex_module) /\
  match runOnModule 24 store_size ex_module 5 with
  | OutOfFuel => False
  | FatalError _ => True
  | Ok (M', n') =>
      (5 <= n')%nat /\ Forall (wf_function n') (functions M')
  end.
Proof.
  split; [exact ex_module_wf|].
  exact (output_well_formed 24 store_size ex_module 5 ex_module_wf).
Defined.

Lemma original_instructions_kept_witness :
  Forall (wf_function 5) (functions ex_module) /\
  match runOnModule 24 store_size ex_module 5 with
  | OutOfFuel => False
  | FatalError _ => True
  | Ok (M', _) =>
      Forall2 (fun Func Func' => skeleton 5 Func' = skeleton 5 Func)
              (functions ex_module) (functions M')
  end.
Proof.
  split; [exact ex_module_wf|].
  exact (original_instructions_kept 24 store_size ex_module 5 ex_module_wf).
Defined.

Lemma only_dispatched_operands_change_witness :
  ids_below 5 (all_insts (fn at_load)) /\
  is_site (cur (fn at_load)) = true /\
  exists s',
    visit 24 store_size (initialize 24 ex_module).1 at_load = Ok s' /\
    differs_at [0%nat] ex_load (cur (fn s')).
Proof.
  split; [exact ex_ids_below|]. split; [reflexivity|].
  exact (only_dispatched_operands_change 24 store_size
           (initialize 24 ex_module).1 at_load ex_ids_below eq_refl).
Defined.

Lemma sandboxed_pointer_keeps_type_witness :
  let s' :=
    sandboxPtrOperand 24 store_size (initialize 24 ex_module).1 0 true at_load
  in
  (ids_below 5 (all_insts (fn at_load)) /\
   first_class_access (cur (fn at_load))) /\
  (0 < length (operands (cur (fn at_load))))%nat /\
  defined_below 5 (InstRef 1) /\
  exists pre0 SandboxedPtr,
    pre (fn s') = pre0 ++ [SandboxedPtr] /\
    opcode SandboxedPtr = IntToPtr /\
    inst_ty SandboxedPtr = PointerTy I32 /\
    (5 <= inst_id SandboxedPtr)%nat /\
    getOperand (cur (fn s')) 0 = InstRef (inst_id SandboxedPtr).
Proof.
  assert (H1 : ids_below 5 (all_insts (fn at_load)) /\
               first_class_access (cur (fn at_load)))
    by (split; [exact ex_ids_below | left; reflexivity]).
  assert (H2 : (0 < length (operands (cur (fn at_load))))%nat) by (cbn; lia).
  assert (H3 : defined_below 5 (InstRef 1)) by (cbn; lia).
  split; [exact H1|]. split; [exact H2|]. split; [exact H3|].
  exact (sandboxed_pointer_keeps_type 24 store_size
           (initialize 24 ex_module).1 0 true at_load (fun _ => H1) H2 H3).
Defined.


Lemma site_free_function_validated_witness :
  to_function at_plain = ex_plain /\
  existsb is_site (concat ex_plain) = false /\
  runOnFunction 24 store_size (initialize 24 ex_module).1 ex_plain 5 =
    Ok (ex_plain, 5%nat).
Proof.
  split; [reflexivity|]. split; [reflexivity|].
  exact (site_free_function_validated 24 store_size
           (initialize 24 ex_module).1 ex_plain 5 at_plain eq_refl eq_refl).
Defined.

Lemma folded_agrees_with_general_witness :
  let this := (initialize 24 ex_module).1 in
  let m := Sem.run ex_machine [ex_add; ex_cast] in
  let s1 := (acquireMemBase this at_load).2 in
  let MemBaseV := (acquireMemBase this at_load).1 in
  let PtrTy := getType (fn s1) (InstRef 1) in
  let folded :=
    folded_seq (PtrMask this) (fresh s1) (Argument 0 I32) 16 PtrTy MemBaseV in
  let general :=
    general_seq (PtrMask this) (fresh s1) (InstRef 1) PtrTy MemBaseV in
  recognize 24 store_size (fn s1) true (InstRef 1) = Some ex_folded /\
  0 <= Sem.eval m (Argument 0 I32) < 2 ^ 32 /\
  wrap 32 (Sem.eval m (InstRef 1)) =
    wrap 32 (Sem.eval m (Argument 0 I32) + 16) /\
  sandbox_offset 24 (Sem.eval m (Argument 0 I32)) + 16 < 2 ^ 24 /\
  Sem.eval (Sem.run m folded) (InstRef (last_id (fresh s1) folded)) =
    Sem.eval (Sem.run m general) (InstRef (last_id (fresh s1) general)).
Proof.
  cbv zeta.
  assert (H1 : 0 <= 24 <= 32) by lia.
  assert (H2 : 0 <= 4 < 2 ^ 63) by lia.
  assert (H3 : 0 <= 2 ^ 24 + 8 < 2 ^ 32) by lia.
  assert (H4 : sandbox_offset 24 (2 ^ 24 + 8) + 16 < 2 ^ 24)
    by (vm_compute; reflexivity).
  split; [reflexivity|]. split; [exact H3|]. split; [reflexivity|].
  split; [exact H4|].
  exact (proj2 (proj1 (proj2 (proj2 (proj2
           (folded_agrees_with_general 24 store_size ex_module 0 at_load
              ex_folded (Sem.run ex_machine [ex_add; ex_cast])
              H1 H2 eq_refl I ltac:(cbn; lia) I H3 eq_refl)))) H4)).
Defined.

Lemma bulk_copy_sandboxed_witness :
  let this := (initialize 24 ex_module).1 in
  (0 <= 24 <= 32 /\
   isa_MemCpyInst (cur (fn at_memcpy)) ||
     isa_MemMoveInst (cur (fn at_memcpy)) = true /\
   (3 <= length (operands (cur (fn at_memcpy))))%nat /\
   Forall (defined_below 1) (operands (cur (fn at_memcpy)))) /\
  exists s' news,
    visit 24 store_size this at_memcpy = Ok s' /\
    pre (fn s') = pre (fn (acquireMemBase this at_memcpy).2) ++ news /\
    Sem.eval (Sem.run ex_machine news) (getOperand (cur (fn s')) 2) =
      sandbox_offset 24 (Sem.eval ex_machine (Argument 2 I32)).
Proof.
  cbv zeta.
  assert (H1 : 0 <= 24 <= 32) by lia.
  assert (H3 : (3 <= length (operands (cur (fn at_memcpy))))%nat)
    by (cbn; lia).
  assert (H4 : Forall (defined_below 1) (operands (cur (fn at_memcpy))))
    by (cbn; split_Forall; exact I).
  split; [split; [exact H1 | split; [reflexivity | split; assumption]]|].
  destruct (bulk_copy_sandboxed 24 store_size ex_module at_memcpy ex_machine
              H1 eq_refl H3 H4 I)
    as (s' & news & Hvisit & _ & Hpre & _ & _ & _ & _ & Hlen).
  exists s', news. split; [exact Hvisit|]. split; [exact Hpre | exact Hlen].
Defined.

Lemma sandboxing_cost_witness :
  let s' :=
    sandboxPtrOperand 24 store_size (initialize 24 ex_module).1 0 true at_load
  in
  (ids_below 5 (all_insts (fn at_load)) /\
   first_class_access (cur (fn at_load))) /\
  fresh s' = (5 + (1 + 5))%nat /\
  (length (all_insts (fn s')) <= 5 + (1 + 5))%nat.
Proof.
  assert (H1 : ids_below 5 (all_insts (fn at_load)) /\
               first_class_access (cur (fn at_load)))
    by (split; [exact ex_ids_below | left; reflexivity]).
  split; [exact H1|].
  destruct (sandboxing_cost 24 store_size (initialize 24 ex_module).1 0 true
              at_load (fun _ => H1)) as (Hfresh & Hlen & _).
  split; [exact Hfresh | exact Hlen].
Defined.

Lemma ex_module_shaped :
  Forall (fun Func => Forall well_shaped (concat Func)) (functions ex_module).
Proof.
  unfold ex_module, ex_function, ex_plain. cbn [functions concat app].
  split_Forall; cbn [concat app]; split_Forall; unfold well_shaped;
    intros pos Hpos;
    cbn in Hpos; repeat (destruct Hpos as [<- | Hpos]); try contradiction;
    cbn; lia.
Qed.

Lemma memory_accesses_mediated_witness :
  Forall (fun Func => ids_below 5 (concat Func)) (functions ex_module) /\
  Forall (fun Func => Forall well_shaped (concat Func))
         (functions ex_module) /\
  match runOnModule 24 store_size ex_module 5 with
  | Ok (M', _) =>
      Forall (fun Func' =>
                forall J, In J (concat Func') -> (inst_id J < 5)%nat ->
                          mediated 5 (concat Func') J)
             (functions M')
  | _ => False
  end.
Proof.
  split; [exact ex_module_ids_below|]. split; [exact ex_module_shaped|].
  destruct (runOnModule 24 store_size ex_module 5) as [[M' n']| |] eqn:E.
  - exact (memory_accesses_mediated 24 store_size ex_module M' 5 n'
             ex_module_ids_below ex_module_shaped E).
  - vm_compute in E. discriminate E.
  - vm_compute in E. discriminate E.
Defined.

Lemma only_address_arithmetic_created_witness :
  Forall (fun Func => ids_below 5 (concat Func)) (functions ex_module) /\
  match runOnModule 24 store_size ex_module 5 with
  | Ok (M', _) =>
      Forall (fun Func' =>
                forall J, In J (concat Func') -> (5 <= inst_id J)%nat ->
                          J = mem_base_load (initialize 24 ex_module).1
                                            (inst_id J) \/
                          arithmetic J)
             (functions M')
  | _ => False
  end.
Proof.
  split; [exact ex_module_ids_below|].
  destruct (runOnModule 24 store_size ex_module 5) as [[M' n']| |] eqn:E.
  - exact (only_address_arithmetic_created 24 store_size ex_module M' 5 n'
             ex_module_ids_below E).
  - vm_compute in E. discriminate E.
  - vm_compute in E. discriminate E.
Defined.
